(** * Purlovia: asset-name resolution, asset cache and mod-package decoding

    A shallow embedding of [ue/loader.py], [automate/modutils.py] and the
    mod resolvers of [automate/ark.py], followed by the properties that
    hold (or fail) of them.

    Conventions.
    - A Python [str] is a list of characters; a character is a code point
      below 256, so the character classes below ([is_space], [is_numeric],
      [lower_char], line boundaries) are Python's, restricted to that range.
    - A Python [bytes] value is a list of [byte].
    - A Python [int] is a [Z]; fixed-width fields carry their range.
    - A call that may raise returns a [result]; code that also changes
      state returns the result together with the new state, so that what an
      exception leaves behind is visible. *)

From Stdlib Require Import ZArith List Ascii String Strings.Byte Lia Bool.
From Equations Require Import Equations.
From stdpp Require Import gmap strings list fin_maps.
Import ListNotations.

Local Open Scope Z_scope.
Local Open Scope list_scope.

(* ===================================================================== *)
(** * Part I: definitions *)
(* ===================================================================== *)

(** ** Python strings *)

Module PyStr.

Abbreviation str := (list ascii).

(** A literal. *)
Definition py (s : string) : str := list_ascii_of_string s.

Definition code (c : ascii) : N := N_of_ascii c.

Definition SLASH : ascii := "/"%char.
Definition BACKSLASH : ascii := "\"%char.
Definition DOT : ascii := "."%char.
Definition QUOTE : ascii := ascii_of_nat 34.
Definition LF : ascii := ascii_of_nat 10.
Definition CR : ascii := ascii_of_nat 13.

Definition eqc (a b : ascii) : bool := Ascii.eqb a b.

Definition eqs (a b : str) : bool := bool_decide (a = b).

(** [str.isspace] on one character: TAB..CR, FS..US, SPACE, NEL, NBSP. *)
Definition is_space (c : ascii) : bool :=
  let n := code c in
  ((9 <=? n) && (n <=? 13) || (28 <=? n) && (n <=? 32)
   || (n =? 133) || (n =? 160))%N.

(** [str.isnumeric] on one character: the digits, the superscripts
    2, 3, 1 and the vulgar fractions. *)
Definition is_numeric (c : ascii) : bool :=
  let n := code c in
  ((48 <=? n) && (n <=? 57) || (n =? 178) || (n =? 179) || (n =? 185)
   || (188 <=? n) && (n <=? 190))%N.

(** [str.lower] on one character. *)
Definition lower_char (c : ascii) : ascii :=
  let n := code c in
  if ((65 <=? n) && (n <=? 90)
      || (192 <=? n) && (n <=? 222) && negb (n =? 215))%N
  then ascii_of_N (n + 32) else c.

Definition lower (s : str) : str := map lower_char s.

(** [s.isnumeric()]: at least one character, all of them numeric. *)
Definition isnumeric (s : str) : bool :=
  match s with
  | [] => false
  | _ => forallb is_numeric s
  end.

(** [c in s] for a one-character [c]. *)
Definition contains (c : ascii) (s : str) : bool := existsb (eqc c) s.

(** [s[:s.index(c)]], for [c in s]: the text before the first [c]. *)
Fixpoint before (c : ascii) (s : str) : str :=
  match s with
  | [] => []
  | x :: s' => if eqc x c then [] else x :: before c s'
  end.

Fixpoint lstrip_by (p : ascii -> bool) (s : str) : str :=
  match s with
  | [] => []
  | c :: s' => if p c then lstrip_by p s' else s
  end.

Definition rstrip_by (p : ascii -> bool) (s : str) : str :=
  rev (lstrip_by p (rev s)).

Definition strip_by (p : ascii -> bool) (s : str) : str :=
  rstrip_by p (lstrip_by p s).

(** [s.strip()], [s.lstrip()], [s.rstrip()] and [s.strip(c)]. *)
Definition strip (s : str) : str := strip_by is_space s.
Definition lstrip (s : str) : str := lstrip_by is_space s.
Definition rstrip (s : str) : str := rstrip_by is_space s.
Definition strip_char (c : ascii) (s : str) : str := strip_by (eqc c) s.

(** [s.replace(a, b)] for one-character [a] and [b]. *)
Definition replace_char (a b : ascii) (s : str) : str :=
  map (fun c => if eqc c a then b else c) s.

(** [s.replace(a, '')] for a one-character [a]. *)
Definition remove_char (a : ascii) (s : str) : str :=
  List.filter (fun c => negb (eqc c a)) s.

(** [s.split(sep)] for a one-character [sep]: never empty. *)
Fixpoint split (sep : ascii) (s : str) : list str :=
  match s with
  | [] => [[]]
  | c :: s' =>
      if eqc c sep then [] :: split sep s'
      else match split sep s' with
           | p :: ps => (c :: p) :: ps
           | [] => [[c]]
           end
  end.

(** [sep.join(parts)]. *)
Fixpoint join (sep : str) (parts : list str) : str :=
  match parts with
  | [] => []
  | [p] => p
  | p :: ps => p ++ sep ++ join sep ps
  end.

(** [s.startswith(p)]. *)
Fixpoint startswith (p s : str) : bool :=
  match p, s with
  | [], _ => true
  | _ :: _, [] => false
  | a :: p', b :: s' => eqc a b && startswith p' s'
  end.

(** The text up to the first character satisfying [p], and the rest. *)
Fixpoint break_at (p : ascii -> bool) (s : str) : str * str :=
  match s with
  | [] => ([], [])
  | c :: s' =>
      if p c then ([], s)
      else let '(a, b) := break_at p s' in (c :: a, b)
  end.

(** [s.split(None, 1)]: at most two fields; leading whitespace and the
    whitespace after the first field are dropped, the rest is kept as
    it is. *)
Definition split_ws1 (s : str) : list str :=
  match lstrip s with
  | [] => []
  | t =>
      let '(a, r) := break_at is_space t in
      match lstrip r with
      | [] => [a]
      | b => [a; b]
      end
  end.

(** Line boundaries of [str.splitlines]. *)
Definition is_linebreak (c : ascii) : bool :=
  let n := code c in
  ((10 <=? n) && (n <=? 13) || (28 <=? n) && (n <=? 30) || (n =? 133))%N.

(** [splitlines] with the line being read in [cur] (reversed); a CR LF
    pair is one boundary, and no empty last line is produced. *)
Fixpoint splitlines_from (cur : str) (s : str) : list str :=
  match s with
  | [] => match cur with [] => [] | _ => [rev cur] end
  | c :: s' =>
      if is_linebreak c then
        match s' with
        | d :: s'' =>
            if eqc c CR && eqc d LF
            then rev cur :: splitlines_from [] s''
            else rev cur :: splitlines_from [] s'
        | [] => [rev cur]
        end
      else splitlines_from (c :: cur) s'
  end.

Definition splitlines (s : str) : list str := splitlines_from [] s.

(** [s[:-1]]. *)
Definition drop_last (s : str) : str := removelast s.

End PyStr.
Import PyStr.

(** ** Exceptions *)

(** [class DecompressionError(Exception)] of [modutils.py]. *)
Inductive DecompressionError : Type :=
| MkDecompressionError (msg : string).

(** The exceptions the embedded code raises. [AssertionError] carries the
    message object of the failing [assert], which in [unpackModFile] is a
    [DecompressionError] instance. *)
Inductive exn : Type :=
| KeyError (key : str)
| IndexError
| TypeError
| ValueError (msg : string)
| ModNotFound (mod_name : str)
| AssetNotFound (asset_name : str)
| AssertionError (message : DecompressionError)
| StructError
| ZlibError
| UnicodeDecodeError
| AssetFormatError.

Inductive result (A : Type) : Type :=
| Ok (a : A)
| Raise (e : exn).
Arguments Ok {A} a.
Arguments Raise {A} e.

Definition bind {A B : Type} (r : result A) (k : A -> result B) : result B :=
  match r with
  | Ok a => k a
  | Raise e => Raise e
  end.

Notation "'do' x <- r ; k" := (bind r (fun x => k))
  (at level 10, x name, r at level 100, k at level 200).
Notation "'do' ' p <- r ; k" := (bind r (fun x => let 'p := x in k))
  (at level 10, p pattern, r at level 100, k at level 200).

Definition is_Ok {A : Type} (r : result A) : bool :=
  match r with Ok _ => true | Raise _ => false end.

(** ** Mod resolvers ([ue/loader.py], [automate/ark.py]) *)

(** [dict(pairs)]: a later pair replaces an earlier one with the same key. *)
Definition dict_of_pairs {V : Type} (l : list (str * V)) : gmap str V :=
  foldl (fun m kv => <[fst kv := snd kv]> m) ∅ l.

(** The mod data record kept by [ManagedModResolver]: the fields
    [data['id']], [data['name']] and the [official] flag. *)
Record ModData : Type := mkModData {
  md_id : str;
  md_name : str;
  md_official : bool
}.

(** The three implementations of [ModResolver], each with the tables its
    [__init__] and [initialise] leave in it. *)
Inductive ModResolver : Type :=
| IniModResolver (mods_id_to_names mods_names_to_ids : gmap str str)
| ManagedModResolver (dataCache : gmap str ModData)
                     (modNameToIds : gmap str str)
| FixedModResolver (namesToIds idsToNames : gmap str str).

(** [IniModResolver.initialise], from the items of the [ids] section of
    [mods.ini] in file order. *)
Definition IniModResolver_initialise (ids : list (str * str)) : ModResolver :=
  IniModResolver
    (dict_of_pairs ids)
    (dict_of_pairs (map (fun kv => (lower (snd kv), fst kv)) ids)).

(** [ManagedModResolver.initialise], from the installed mods found by
    [findInstalledMods] (mod id and its data, in scan order) and the
    configured official mods (id and tag). *)
Definition ManagedModResolver_initialise
    (installed : list (str * ModData)) (official : list (str * str))
    : ModResolver :=
  let dataCache := dict_of_pairs installed in
  let modNameToIds :=
    dict_of_pairs (map (fun kv => (lower (md_name (snd kv)), md_id (snd kv)))
                       installed) in
  let '(dataCache, modNameToIds) :=
    foldl (fun '(dc, n2i) '(modid, name) =>
             (<[modid := mkModData modid name true]> dc,
              <[lower name := modid]> n2i))
          (dataCache, modNameToIds) official in
  ManagedModResolver dataCache modNameToIds.

(** [FixedModResolver.__init__], from the items of [namesToIds]. *)
Definition FixedModResolver_init (items : list (str * str)) : ModResolver :=
  FixedModResolver
    (dict_of_pairs items)
    (dict_of_pairs (map (fun kv => (snd kv, fst kv)) items)).

(** [get_name_from_id]; the value returned is a [str] or [None]. *)
Definition get_name_from_id (r : ModResolver) (modid : str)
    : result (option str) :=
  match r with
  | IniModResolver mods_id_to_names _ =>
      Ok (mods_id_to_names !! modid)
  | ManagedModResolver dataCache _ =>
      match dataCache !! modid with
      | None => Ok (Some modid)
      | Some data => Ok (Some (md_name data))
      end
  | FixedModResolver _ idsToNames =>
      match idsToNames !! modid with
      | Some name => Ok (Some name)
      | None => Raise (KeyError modid)
      end
  end.

(** [get_id_from_name]; the value returned is a [str] or [None]. *)
Definition get_id_from_name (r : ModResolver) (name : str)
    : result (option str) :=
  match r with
  | IniModResolver _ mods_names_to_ids =>
      Ok (mods_names_to_ids !! lower name)
  | ManagedModResolver _ modNameToIds =>
      match modNameToIds !! lower name with
      | Some ((_ :: _) as modid) => Ok (Some modid)
      | Some [] | None => Raise (ModNotFound name)
      end
  | FixedModResolver namesToIds _ =>
      match namesToIds !! name with
      | Some modid => Ok (Some modid)
      | None => Raise (KeyError name)
      end
  end.

(** What a managed resolver knows after [initialise]: the data of the
    installed mods, then the data made up for the official mods. *)
Definition managed_data (installed : list (str * ModData))
    (official : list (str * str)) : list (str * ModData) :=
  installed
  ++ map (fun kv => (fst kv, mkModData (fst kv) (snd kv) true)) official.

(** ** The asset cache ([DictCacheManager]) *)

Module DictCacheManager.

Section Cache.
(** What is cached: a reference to a parsed asset. *)
Context {V : Type}.

(** [del d[name]]. *)
Definition dict_delitem (d : gmap str V) (name : str)
    : result (gmap str V) :=
  match d !! name with
  | Some _ => Ok (delete name d)
  | None => Raise (KeyError name)
  end.

Definition lookup (cache : gmap str V) (name : str) : option V :=
  cache !! name.

Definition add (cache : gmap str V) (name : str) (asset : V)
    : gmap str V :=
  <[name := asset]> cache.

Definition remove (cache : gmap str V) (name : str)
    : result (gmap str V) :=
  dict_delitem cache name.

(** The loop [for name in names: del cache[name]]. *)
Fixpoint delete_all (cache : gmap str V) (names : list str)
    : result (gmap str V) :=
  match names with
  | [] => Ok cache
  | name :: names' =>
      do cache' <- dict_delitem cache name;
      delete_all cache' names'
  end.

Definition wipe (cache : gmap str V) (prefix : str)
    : result (gmap str V) :=
  match prefix with
  | [] => Ok ∅
  | _ =>
      delete_all cache
        (List.filter (startswith prefix) (map fst (map_to_list cache)))
  end.
End Cache.

End DictCacheManager.

(** ** The asset loader ([AssetLoader]) *)

(** What [ue/asset.py] provides and this development does not look into:
    the tables of a parsed asset, [UAsset.deserialise] and [UAsset.link]
    ([None] when they raise), the export table and the two attributes of
    an export that [_load_asset] reads. *)
Class UAssetFormat : Type := {
  Tables : Type;
  ExportTableItem : Type;
  ClassRef : Type;
  deserialise : list byte -> option Tables;
  link : Tables -> option Tables;
  exports_values : Tables -> list ExportTableItem;
  export_name : ExportTableItem -> str;
  export_klass_value : ExportTableItem -> ClassRef
}.

(** [posixpath.join(a, *p)]. *)
Definition endswith_char (c : ascii) (s : str) : bool :=
  match rev s with
  | x :: _ => eqc x c
  | [] => false
  end.

Definition os_path_join (a : str) (p : list str) : str :=
  foldl (fun path b =>
           if startswith [SLASH] b then b
           else if eqs path [] || endswith_char SLASH path then path ++ b
           else path ++ [SLASH] ++ b)
        a p.

(** [sep.join(parts)] where an item may be [None]: a [TypeError]. *)
Fixpoint all_str (parts : list (option str)) : result (list str) :=
  match parts with
  | [] => Ok []
  | Some p :: ps => do ps' <- all_str ps; Ok (p :: ps')
  | None :: _ => Raise TypeError
  end.

Definition part (parts : list (option str)) (i : nat) : str :=
  match parts !! i with
  | Some (Some p) => p
  | _ => []
  end.

(** [AssetLoader.clean_asset_name]. *)
Definition clean_asset_name (modresolver : ModResolver) (name : str)
    : result str :=
  (* Remove class name, if present *)
  let name := if contains DOT name then before DOT name else name in
  (* Clean it up and break it into its parts *)
  let name :=
    replace_char BACKSLASH SLASH
      (strip_char BACKSLASH (strip_char SLASH (strip name))) in
  let parts := map Some (split SLASH name) in
  (* Convert mod names to numbers *)
  do parts <-
    (if (2 <? length parts)%nat && eqs (lower (part parts 1)) (py "mods")
        && isnumeric (part parts 2)
     then do mod_name <- get_name_from_id modresolver (part parts 2);
          Ok (<[2%nat := mod_name]> parts)
     else Ok parts);
  (* Change Content back to name, for cache consistency *)
  let parts :=
    if eqs (lower (part parts 0)) (py "content")
    then <[0%nat := Some (py "Game")]> parts
    else parts in
  do strs <- all_str parts;
  Ok (SLASH :: join [SLASH] strs).

(** [AssetLoader.convert_asset_name_to_path], with [partial=False]. *)
Definition convert_asset_name_to_path
    (modresolver : ModResolver) (asset_path : str) (name ext : str)
    : result str :=
  do name <- clean_asset_name modresolver name;
  let parts := map Some (split SLASH (strip_char SLASH name)) in
  do parts <-
    (if (2 <? length parts)%nat && eqs (lower (part parts 1)) (py "mods")
        && negb (isnumeric (part parts 2))
     then do modid <- get_id_from_name modresolver (part parts 2);
          Ok (<[2%nat := modid]> parts)
     else Ok parts);
  let parts :=
    if eqs (lower (part parts 0)) (py "game")
    then <[0%nat := Some (py "Content")]> parts
    else parts in
  do strs <- all_str parts;
  Ok (os_path_join asset_path strs ++ ext).

Section Loader.
Context `{FMT : UAssetFormat}.

(** A [UAsset] object as [_load_asset] builds it. [tables] is [None]
    until [deserialise] has run; [linked] records that [link] has. *)
Record UAsset : Type := mkUAsset {
  assetname : str;
  name : str;
  tables : option Tables;
  linked : bool;
  default_export : option ExportTableItem;
  default_class : option ClassRef
}.

(** The loader together with the part of the world it acts on: the
    files by path, the number of file reads made so far
    ([load_file_into_memory]), and the [UAsset] objects by identity. *)
Record AssetLoader : Type := mkAssetLoader {
  cache : gmap str nat;
  asset_path : str;
  modresolver : ModResolver;
  files : str -> option (list byte);
  reads : nat;
  heap : gmap nat UAsset
}.

Definition set_cache (c : gmap str nat) (s : AssetLoader) : AssetLoader :=
  mkAssetLoader c (asset_path s) (modresolver s) (files s) (reads s)
                (heap s).

Definition count_read (s : AssetLoader) : AssetLoader :=
  mkAssetLoader (cache s) (asset_path s) (modresolver s) (files s)
                (S (reads s)) (heap s).

Definition store (oid : nat) (a : UAsset) (s : AssetLoader) : AssetLoader :=
  mkAssetLoader (cache s) (asset_path s) (modresolver s) (files s)
                (reads s) (<[oid := a]> (heap s)).

(** [str(Path(assetpath))] for a POSIX path: one slash at the start is
    kept, two are kept as two and more as one; segments that are empty or
    a single dot are dropped; what is left empty is [.]. *)
Definition Path (assetpath : str) : str :=
  let rel := lstrip_by (eqc SLASH) assetpath in
  let slashes := (length assetpath - length rel)%nat in
  let root :=
    match slashes with
    | 0%nat => []
    | 2%nat => [SLASH; SLASH]
    | _ => [SLASH]
    end in
  let parts :=
    List.filter (fun x => negb (eqs x []) && negb (eqs x [DOT]))
                (split SLASH rel) in
  match root ++ join [SLASH] parts with
  | [] => [DOT]
  | path => path
  end.

(** [AssetLoader.__init__] with the default cache manager. *)
Definition AssetLoader_init (modresolver : ModResolver) (assetpath : str)
    (files : str -> option (list byte)) : AssetLoader :=
  mkAssetLoader ∅ (Path assetpath) modresolver files 0 ∅.

(** The loop of [load_raw_asset] over the extensions. *)
Fixpoint load_raw_asset_exts (s : AssetLoader) (name : str)
    (exts : list str) : result (option (list byte)) * AssetLoader :=
  match exts with
  | [] => (Ok None, s)
  | ext :: exts' =>
      match convert_asset_name_to_path (modresolver s) (asset_path s)
                                       name ext with
      | Raise e => (Raise e, s)
      | Ok filename =>
          match files s filename with
          | Some data => (Ok (Some data), count_read s)
          | None => load_raw_asset_exts s name exts'
          end
      end
  end.

(** [AssetLoader.load_raw_asset]. *)
Definition load_raw_asset (s : AssetLoader) (name : str)
    : result (list byte) * AssetLoader :=
  match clean_asset_name (modresolver s) name with
  | Raise e => (Raise e, s)
  | Ok name =>
      match load_raw_asset_exts s name [py ".uasset"; py ".umap"] with
      | (Raise e, s') => (Raise e, s')
      | (Ok None, s') => (Raise (AssetNotFound name), s')
      | (Ok (Some mem), s') => (Ok mem, s')
      end
  end.

(** [assetname.split('/')[-1]]. *)
Definition last_part (assetname : str) : str :=
  List.last (split SLASH assetname) [].

(** The exports whose name starts with [Default__]. *)
Definition default_exports (t : Tables) : list ExportTableItem :=
  List.filter (fun export => startswith (py "Default__") (export_name export))
              (exports_values t).

(** [AssetLoader._load_asset]; the asset is returned by reference. *)
Definition _load_asset (s : AssetLoader) (assetname : str)
    (doNotLink : bool) : result nat * AssetLoader :=
  match load_raw_asset s assetname with
  | (Raise e, s) => (Raise e, s)
  | (Ok mem, s) =>
      let oid := fresh (dom (heap s)) in
      let asset :=
        mkUAsset assetname (last_part assetname) None false None None in
      let s := store oid asset s in
      match deserialise mem with
      | None => (Raise AssetFormatError, s)
      | Some t =>
          let asset :=
            mkUAsset assetname (last_part assetname) (Some t) false
                     None None in
          let s := store oid asset s in
          if doNotLink then (Ok oid, s)
          else
            match link t with
            | None => (Raise AssetFormatError, s)
            | Some t =>
                let exports := default_exports t in
                let default_export := head exports in
                let default_class :=
                  option_map export_klass_value default_export in
                let asset :=
                  mkUAsset assetname (last_part assetname) (Some t) true
                           default_export default_class in
                let s := store oid asset s in
                let s :=
                  set_cache (DictCacheManager.add (cache s) assetname oid)
                            s in
                (Ok oid, s)
            end
      end
  end.

(** [AssetLoader.__getitem__]. A [UAsset] is taken to be truthy, as an
    object is unless its class says otherwise, so that [or] falls through
    to [_load_asset] exactly when [lookup] returns [None]. *)
Definition __getitem__ (s : AssetLoader) (assetname : str)
    : result nat * AssetLoader :=
  match clean_asset_name (modresolver s) assetname with
  | Raise e => (Raise e, s)
  | Ok assetname =>
      match DictCacheManager.lookup (cache s) assetname with
      | Some asset => (Ok asset, s)
      | None => _load_asset s assetname false
      end
  end.

(** [AssetLoader.__delitem__]. *)
Definition __delitem__ (s : AssetLoader) (assetname : str)
    : result unit * AssetLoader :=
  match clean_asset_name (modresolver s) assetname with
  | Raise e => (Raise e, s)
  | Ok assetname =>
      match DictCacheManager.remove (cache s) assetname with
      | Raise e => (Raise e, s)
      | Ok c => (Ok tt, set_cache c s)
      end
  end.

(** [AssetLoader.partially_load_asset]. *)
Definition partially_load_asset (s : AssetLoader) (assetname : str)
    : result nat * AssetLoader :=
  _load_asset s assetname true.

(** [AssetLoader.wipe_cache_with_prefix]; [wipe_cache] is the call with
    the default prefix, the empty string. *)
Definition wipe_cache_with_prefix (s : AssetLoader) (prefix : str)
    : result unit * AssetLoader :=
  match DictCacheManager.wipe (cache s) prefix with
  | Raise e => (Raise e, s)
  | Ok c => (Ok tt, set_cache c s)
  end.

Definition wipe_cache (s : AssetLoader) : result unit * AssetLoader :=
  wipe_cache_with_prefix s [].

(** An asset as a full load leaves it: linked, and with its default
    export the first export named [Default__...], if there is one. *)
Definition fully_loaded (k : str) (a : UAsset) : Prop :=
  assetname a = k
  /\ linked a = true
  /\ exists t,
       tables a = Some t
       /\ default_export a = head (default_exports t)
       /\ default_class a = option_map export_klass_value (default_export a).

Definition cache_ok (s : AssetLoader) : Prop :=
  forall k oid,
    DictCacheManager.lookup (cache s) k = Some oid ->
    exists a, heap s !! oid = Some a /\ fully_loaded k a.

(** The calls a client makes on a loader. *)
Inductive request : Type :=
| Retrieve (x : str)
| RetrieveShallow (x : str)
| Invalidate (x : str)
| Wipe
| WipePrefix (prefix : str).

Definition serve (s : AssetLoader) (r : request) : AssetLoader :=
  match r with
  | Retrieve x => snd (__getitem__ s x)
  | RetrieveShallow x => snd (partially_load_asset s x)
  | Invalidate x => snd (__delitem__ s x)
  | Wipe => snd (wipe_cache s)
  | WipePrefix prefix => snd (wipe_cache_with_prefix s prefix)
  end.

Definition serve_all (s : AssetLoader) (rs : list request) : AssetLoader :=
  foldl serve s rs.

(** Two loaders over the same resolver, asset path and files. *)
Definition same_world (s w : AssetLoader) : Prop :=
  modresolver s = modresolver w
  /\ asset_path s = asset_path w
  /\ files s = files w.

End Loader.

(** ** The byte stream *)

Module Stream.

(** Modelled from the spec: [ue.stream.MemoryStream], which is not among
    the sources. A stream is a buffer and a read position; the
    fixed-width readers return unsigned little-endian integers and
    raise when fewer bytes are left than the field needs; [readBytes]
    returns the slice [mem[offset:offset+count]] and advances the
    position by [count]. *)
Record MemoryStream : Type := mkStream {
  mem : list byte;
  offset : Z
}.

(** [l[:n]] and [l[n:]] for an integer [n]. *)
Fixpoint take_bytes (l : list byte) (n : Z) : list byte :=
  match l with
  | [] => []
  | b :: l' => if n <=? 0 then [] else b :: take_bytes l' (n - 1)
  end.

Fixpoint drop_bytes (l : list byte) (n : Z) : list byte :=
  match l with
  | [] => []
  | b :: l' => if n <=? 0 then l else drop_bytes l' (n - 1)
  end.

Definition slice (l : list byte) (from count : Z) : list byte :=
  take_bytes (drop_bytes l from) count.

(** The bytes not read yet. *)
Definition remaining (f : MemoryStream) : nat :=
  Z.to_nat (Z.of_nat (length (mem f)) - offset f).

Definition le_value (bs : list byte) : Z :=
  foldr (fun b acc => Z.of_N (Byte.to_N b) + 256 * acc) 0 bs.

(** Modelled from the spec: the fixed-width readers behind [readUInt32]
    and [readUInt64]. *)
Definition read_uint (width : Z) (f : MemoryStream)
    : result (Z * MemoryStream) :=
  let bs := slice (mem f) (offset f) width in
  if Z.of_nat (length bs) =? width
  then Ok (le_value bs, mkStream (mem f) (offset f + width))
  else Raise StructError.

Definition readUInt32 : MemoryStream -> result (Z * MemoryStream) :=
  read_uint 4.
Definition readUInt64 : MemoryStream -> result (Z * MemoryStream) :=
  read_uint 8.

(** Modelled from the spec: [MemoryStream.readBytes]. *)
Definition readBytes (f : MemoryStream) (count : Z)
    : list byte * MemoryStream :=
  (slice (mem f) (offset f) count, mkStream (mem f) (offset f + count)).

(** [loadFileAsStream], from the content of the file. *)
Definition loadFileAsStream (data : list byte) : MemoryStream :=
  mkStream data 0.

End Stream.
Import Stream.

(** ** [automate/modutils.py] *)

(** [bytes.decode('utf8')], [None] when it raises. *)
Class Utf8Codec : Type := {
  decode_utf8 : list byte -> option str
}.

(** [zlib.decompress], [None] when it raises. *)
Class Zlib : Type := {
  zlib_decompress : list byte -> option (list byte)
}.

(** [readUnrealString]; the stream is returned as the call leaves it. *)
Definition readUnrealString `{Utf8Codec} (f : MemoryStream)
    : result (option str) * MemoryStream :=
  match readUInt32 f with
  | Raise e => (Raise e, f)
  | Ok (count, f) =>
      if count <? 0 then
        (Raise (ValueError "UTF16 string detected - add support here!"), f)
      else if count =? 0 then (Ok None, f)
      else
        let '(data, f) := readBytes f count in
        match decode_utf8 data with
        | None => (Raise UnicodeDecodeError, f)
        | Some string => (Ok (Some (drop_last string)), f)
        end
  end.

Definition MAGIC : Z := 0x9e2a83c1.

Definition InvalidHeader : exn :=
  AssertionError (MkDecompressionError "Invalid header in downloaded mod").
Definition InvalidChunkSizes : exn :=
  AssertionError
    (MkDecompressionError "Invalid chunk sizes in downloaded mod").
Definition FailedVerification : exn :=
  AssertionError
    (MkDecompressionError
       "Decompression of downloaded mod chunk failed verification").
Definition NotExpectedSize : exn :=
  AssertionError
    (MkDecompressionError "Chunk of downloaded mod is not the expected size").

(** The four header fields of [unpackModFile], in the order read:
    token, chunk size, (packed size, dropped) and unpacked size. *)
Definition read_header (f : MemoryStream)
    : result (Z * Z * Z) * MemoryStream :=
  match readUInt64 f with
  | Raise e => (Raise e, f)
  | Ok (token, f) =>
  match readUInt64 f with
  | Raise e => (Raise e, f)
  | Ok (sizeUnpackedChunk, f) =>
  match readUInt64 f with
  | Raise e => (Raise e, f)
  | Ok (_, f) =>
  match readUInt64 f with
  | Raise e => (Raise e, f)
  | Ok (sizeUnpacked, f) => (Ok (token, sizeUnpackedChunk, sizeUnpacked), f)
  end end end end.

Definition inspect {A : Type} (a : A) : {b : A | a = b} :=
  exist _ a eq_refl.

(** The loop [while sizeFound < sizeUnpacked] of [unpackModFile]. Every
    round reads sixteen bytes, so the loop ends with the stream at the
    latest. *)
Equations? read_descriptors (f : MemoryStream) (sizeUnpacked sizeFound : Z)
    (chunkSizes : list (Z * Z))
    : result (list (Z * Z) * Z) * MemoryStream
    by wf (remaining f) lt :=
  read_descriptors f sizeUnpacked sizeFound chunkSizes
    with (sizeFound <? sizeUnpacked) => {
    | false => (Ok (chunkSizes, sizeFound), f)
    | true with inspect (readUInt64 f) => {
      | exist _ (Raise e) _ => (Raise e, f)
      | exist _ (Ok (chunkSizeCompressed, f1)) H1
          with inspect (readUInt64 f1) => {
          | exist _ (Raise e) _ => (Raise e, f1)
          | exist _ (Ok (chunkSizeUnompressed, f2)) H2 =>
              read_descriptors f2 sizeUnpacked
                (sizeFound + chunkSizeUnompressed)
                (chunkSizes ++ [(chunkSizeCompressed, chunkSizeUnompressed)])
          } } }.
Proof.
  unfold readUInt64, read_uint in H1, H2.
  destruct (Z.of_nat (length (slice (mem f) (offset f) 8)) =? 8) eqn:E1;
    [|discriminate].
  destruct (Z.of_nat (length (slice (mem f1) (offset f1) 8)) =? 8) eqn:E2;
    [|discriminate].
  injection H1 as _ <-. injection H2 as _ <-. simpl in *.
  apply Z.eqb_eq in E1.
  assert (forall l n, Z.of_nat (length (take_bytes l n)) <= Z.of_nat (length l)).
  { induction l as [|b l IH]; intros n; simpl; [lia|].
    destruct (n <=? 0); simpl; [lia|]. specialize (IH (n - 1)). lia. }
  assert (forall l n, 0 <= n ->
            Z.of_nat (length (drop_bytes l n)) <= Z.of_nat (length l) - n
            \/ drop_bytes l n = []).
  { induction l as [|b l IH]; intros n Hn; simpl; [now right|].
    destruct (n <=? 0) eqn:E; [left; simpl; lia|].
    apply Z.leb_gt in E. destruct (IH (n - 1)) as [IH'|IH']; [lia| |];
      [left; lia | now right]. }
  unfold remaining, slice in *. simpl.
  destruct (Z_le_gt_dec 0 (offset f)) as [Hp|Hn].
  - destruct (H0 (mem f) (offset f) Hp) as [Hd|Hd].
    + specialize (H (drop_bytes (mem f) (offset f)) 8). lia.
    + rewrite Hd in E1. simpl in E1. lia.
  - lia.
Qed.

(** The loop [for i, (csCompressed, csUncompressed) in enumerate(chunkSizes)]
    of [unpackModFile], from chunk [i] on; [count] is [len(chunkSizes)] and
    [out] what has been written to [dst] so far. *)
Fixpoint write_chunks `{Zlib} (sizeUnpackedChunk : Z) (count i : nat)
    (chunkSizes : list (Z * Z)) (f : MemoryStream) (out : list byte)
    : result unit * MemoryStream * list byte :=
  match chunkSizes with
  | [] => (Ok tt, f, out)
  | (csCompressed, csUncompressed) :: rest =>
      let '(chunkData, f) := readBytes f csCompressed in
      match zlib_decompress chunkData with
      | None => (Raise ZlibError, f, out)
      | Some uncompressedChunkData =>
          let len := Z.of_nat (length uncompressedChunkData) in
          if negb (len =? csUncompressed) then
            (Raise FailedVerification, f, out)
          else if negb ((len =? sizeUnpackedChunk)
                        || Nat.eqb (i + 1) count) then
            (Raise NotExpectedSize, f, out)
          else
            write_chunks sizeUnpackedChunk count (S i) rest f
                         (out ++ uncompressedChunkData)
      end
  end.

(** [unpackModFile], from the stream over the content of [src] and the
    content of the file at [dst], if there is one. What is returned is
    the outcome of the call, the stream as it leaves it, and the file
    at [dst] afterwards. *)
Definition unpackModFile `{Zlib} (f : MemoryStream) (dst : option (list byte))
    : result unit * MemoryStream * option (list byte) :=
  match read_header f with
  | (Raise e, f) => (Raise e, f, dst)
  | (Ok (token, sizeUnpackedChunk, sizeUnpacked), f) =>
      if negb (token =? MAGIC) then (Raise InvalidHeader, f, dst)
      else
        match read_descriptors f sizeUnpacked 0 [] with
        | (Raise e, f) => (Raise e, f, dst)
        | (Ok (chunkSizes, sizeFound), f) =>
            if negb (sizeFound =? sizeUnpacked) then
              (Raise InvalidChunkSizes, f, dst)
            else
              let '(r, f, out) :=
                write_chunks sizeUnpackedChunk (length chunkSizes) 0
                             chunkSizes f [] in
              (r, f, Some out)
        end
  end.

(** The loop behind [(readUnrealString(f) for i in range(count))], run to
    its end as [tuple] does. *)
Fixpoint read_strings `{Utf8Codec} (count : nat) (f : MemoryStream)
    : result (list (option str)) * MemoryStream :=
  match count with
  | O => (Ok [], f)
  | S count' =>
      match readUnrealString f with
      | (Raise e, f) => (Raise e, f)
      | (Ok string, f) =>
          match read_strings count' f with
          | (Raise e, f) => (Raise e, f)
          | (Ok strings, f) => (Ok (string :: strings), f)
          end
      end
  end.

(** What [readModInfo] returns: [dict(modname=..., maps=...)]. *)
Record ModInfo : Type := mkModInfo {
  modname : option str;
  maps : list (option str)
}.

(** [readModInfo], from the stream over the file. *)
Definition readModInfo `{Utf8Codec} (f : MemoryStream)
    : result ModInfo * MemoryStream :=
  match readUnrealString f with
  | (Raise e, f) => (Raise e, f)
  | (Ok modname, f) =>
      match readUInt32 f with
      | Raise e => (Raise e, f)
      | Ok (countMaps, f) =>
          match read_strings (Z.to_nat countMaps) f with
          | (Raise e, f) => (Raise e, f)
          | (Ok maps, f) => (Ok (mkModInfo modname maps), f)
          end
      end
  end.

(** The loop behind the list of pairs of [readModMetaInfo]. *)
Fixpoint read_entries `{Utf8Codec} (count : nat) (f : MemoryStream)
    : result (list (option str * option str)) * MemoryStream :=
  match count with
  | O => (Ok [], f)
  | S count' =>
      match readUnrealString f with
      | (Raise e, f) => (Raise e, f)
      | (Ok key, f) =>
          match readUnrealString f with
          | (Raise e, f) => (Raise e, f)
          | (Ok value, f) =>
              match read_entries count' f with
              | (Raise e, f) => (Raise e, f)
              | (Ok entries, f) => (Ok ((key, value) :: entries), f)
              end
          end
      end
  end.

(** [dict(entries)] with keys that may be [None]. *)
Definition dict_of_entries (entries : list (option str * option str))
    : gmap (option str) (option str) :=
  foldl (fun m kv => <[fst kv := snd kv]> m) ∅ entries.

(** [readModMetaInfo], from the stream over the file. *)
Definition readModMetaInfo `{Utf8Codec} (f : MemoryStream)
    : result (gmap (option str) (option str)) * MemoryStream :=
  match readUInt32 f with
  | Raise e => (Raise e, f)
  | Ok (countEntries, f) =>
      match read_entries (Z.to_nat countEntries) f with
      | (Raise e, f) => (Raise e, f)
      | (Ok entries, f) => (Ok (dict_of_entries entries), f)
      end
  end.

(** ** [parseAcf] *)

Module Acf.

(** A value stored in a section: a string, or a reference to the [dict]
    object of a subsection. *)
Inductive value : Type :=
| VStr (s : str)
| VRef (oid : nat).

(** A [dict] with its items in insertion order. *)
Definition pydict := list (str * value).

Fixpoint dict_get (d : pydict) (k : str) : option value :=
  match d with
  | [] => None
  | (k', v) :: d' => if eqs k' k then Some v else dict_get d' k
  end.

(** [d[k] = v]: a key already present keeps its place. *)
Fixpoint dict_set (d : pydict) (k : str) (v : value) : pydict :=
  match d with
  | [] => [(k, v)]
  | (k', v') :: d' =>
      if eqs k' k then (k', v) :: d' else (k', v') :: dict_set d' k v
  end.

(** The [dict] objects made so far, by identity; [output] is object 0. *)
Definition objects := list pydict.

Record state : Type := mkState {
  heap : objects;
  current_section : nat;
  sections : list str
}.

Definition output : nat := 0%nat.

Definition initial : state := mkState [[]] output [].

(** [for i in path: current = current[i]]. *)
Fixpoint descend (h : objects) (current : value) (path : list str)
    : result value :=
  match path with
  | [] => Ok current
  | i :: path' =>
      match current with
      | VStr _ => Raise TypeError
      | VRef o =>
          match dict_get (h !!! o) i with
          | Some v => descend h v path'
          | None => Raise (KeyError i)
          end
      end
  end.

(** [sections[:-1]] and [sections[-1]]. *)
Definition init_of (sections : list str) : list str := removelast sections.
Definition last_of (sections : list str) : option str :=
  List.last (map Some sections) None.

(** The body of the loop of [parseAcf] for one line that is not empty. *)
Definition step (st : state) (line : str) : result state :=
  let line := strip line in
  match split_ws1 line with
  | [key; val] =>
      let key := lstrip (remove_char QUOTE key) in
      let val := rstrip (remove_char QUOTE val) in
      let cs := current_section st in
      Ok (mkState (<[cs := dict_set (heap st !!! cs) key (VStr val)]>
                     (heap st))
                  cs (sections st))
  | _ =>
      if eqs line (py "{") then
        (* Initialize the last added section. *)
        do current <- descend (heap st) (VRef output)
                              (init_of (sections st));
        match last_of (sections st), current with
        | None, _ => Raise IndexError
        | Some _, VStr _ => Raise TypeError
        | Some name, VRef o =>
            let oid := length (heap st) in
            let h := heap st ++ [[]] in
            let h := <[o := dict_set (h !!! o) name (VRef oid)]> h in
            Ok (mkState h oid (sections st))
        end
      else if eqs line (py "}") then
        (* Remove the last section from the queue. *)
        match sections st with
        | [] => Raise IndexError
        | _ => Ok (mkState (heap st) (current_section st)
                           (removelast (sections st)))
        end
      else
        (* Add a new section to the queue. *)
        Ok (mkState (heap st) (current_section st)
                    (sections st ++ [remove_char QUOTE line]))
  end.

(** [for line in lines: if not line: break; ...]. *)
Fixpoint run (st : state) (lines : list str) : result state :=
  match lines with
  | [] => Ok st
  | [] :: _ => Ok st
  | line :: lines' => do st' <- step st line; run st' lines'
  end.

(** [parseAcf] with the default [outputType]: the objects built, of
    which object 0 is the one returned. *)
Definition parseAcf (data : str) : result objects :=
  do st <- run initial (splitlines data);
  Ok (heap st).

(** What a value looks like from outside: nested mappings. *)
#[warning="-register-all"]
Inductive tree : Type :=
| Leaf (s : str)
| Node (items : list (str * tree)).

Fixpoint view (depth : nat) (h : objects) (v : value) : tree :=
  match v with
  | VStr s => Leaf s
  | VRef o =>
      match depth with
      | O => Node []
      | S depth' =>
          Node (map (fun kv => (fst kv, view depth' h (snd kv))) (h !!! o))
      end
  end.

(** The returned mapping; no section is nested deeper than there are
    objects. *)
Definition parseAcf_tree (data : str) : result tree :=
  do h <- parseAcf data;
  Ok (view (length h) h (VRef output)).

End Acf.

(** ** The vocabulary of the properties *)


(** The sum of the uncompressed sizes of a descriptor table. *)
Definition total_uncompressed (chunkSizes : list (Z * Z)) : Z :=
  fold_right Z.add 0 (map snd chunkSizes).

(** The path that [clean_asset_name] splits: the name without its class
    suffix, trimmed, with forward slashes. *)
Definition path_of (name : str) : str :=
  replace_char BACKSLASH SLASH
    (strip_char BACKSLASH
       (strip_char SLASH
          (strip (if contains DOT name then before DOT name else name)))).

Fixpoint last_char (s : str) : option ascii :=
  match s with
  | [] => None
  | [c] => Some c
  | _ :: s' => last_char s'
  end.

(** [s] does not end with a blank or with a slash. *)
Definition last_char_ok (s : str) : bool :=
  match last_char s with
  | Some c => negb (is_space c) && negb (eqc SLASH c)
  | None => true
  end.

(** A path with no slash at its start and no slash or blank at its end. *)
Definition well_trimmed (p : str) : bool :=
  negb (startswith [SLASH] p) && last_char_ok p.

(** A character that can stand inside one segment of a canonical name. *)
Definition seg_char (c : ascii) : bool :=
  negb (eqc c DOT) && negb (eqc c SLASH) && negb (eqc c BACKSLASH).

(** [parts[i]], the empty string where there is none. *)
Definition seg (parts : list str) (i : nat) : str :=
  match parts !! i with
  | Some p => p
  | None => []
  end.

(** An alias that can stand for a mod in a canonical name: a segment that
    is not empty, does not end with a blank and, if it is numeric itself,
    is its own alias. *)
Definition stable_alias (modresolver : ModResolver) (alias : str) : bool :=
  negb (eqs alias []) && forallb seg_char alias && last_char_ok alias
  && (if isnumeric alias
      then match get_name_from_id modresolver alias with
           | Ok (Some a) => eqs a alias
           | _ => false
           end
      else true).

(** The test of [clean_asset_name] for a numeric mod segment. *)
Definition has_mod_id (parts : list str) : bool :=
  (2 <? length parts)%nat && eqs (lower (seg parts 1)) (py "mods")
  && isnumeric (seg parts 2).

(** A valid raw asset name: its path is well trimmed and, when it names a
    mod by its id, the resolver has a stable alias for that id. *)
Definition valid_raw_name (modresolver : ModResolver) (name : str) : bool :=
  let parts := split SLASH (path_of name) in
  well_trimmed (path_of name)
  && (if has_mod_id parts
      then match get_name_from_id modresolver (seg parts 2) with
           | Ok (Some alias) => stable_alias modresolver alias
           | _ => false
           end
      else true).

(** [clean_asset_name] on the segments of the path. *)
Definition canon (modresolver : ModResolver) (parts : list str)
    : result (list str) :=
  do parts <-
    (if has_mod_id parts
     then match get_name_from_id modresolver (seg parts 2) with
          | Ok (Some mod_name) => Ok (<[2%nat := mod_name]> parts)
          | Ok None => Raise TypeError
          | Raise e => Raise e
          end
     else Ok parts);
  Ok (if eqs (lower (seg parts 0)) (py "content")
      then <[0%nat := py "Game"]> parts
      else parts).

(** Well-trimmed, on the segments. *)
Definition char_ok (c : ascii) : bool :=
  negb (is_space c) && negb (eqc SLASH c).

Definition ends_ok (q : str) : bool :=
  match last_char q with
  | Some c => char_ok c
  | None => false
  end.

Fixpoint wt_tail (ps : list str) : bool :=
  match ps with
  | [] => false
  | [t] => ends_ok t
  | _ :: rest => wt_tail rest
  end.

Definition wt_parts (ps : list str) : bool :=
  match ps with
  | [] => false
  | [p] => last_char_ok p
  | p :: rest => negb (eqs p []) && wt_tail rest
  end.

(** Segments that make a canonical name. *)
Definition good_parts (ps : list str) : Prop :=
  ps <> []
  /\ Forall (Forall (fun c => seg_char c = true)) ps
  /\ wt_parts ps = true.

(** The rewriting of [Content] into [Game]. *)
Definition content_step (ps : list str) : list str :=
  if eqs (lower (seg ps 0)) (py "content")
  then <[0%nat := py "Game"]> ps
  else ps.

(** ** More of the loader *)

(** [AssetLoader.get_mod_name]. *)
Definition get_mod_name (modresolver : ModResolver) (assetname : str)
    : result (option str) :=
  do assetname <- clean_asset_name modresolver assetname;
  let parts := split SLASH (strip_char SLASH assetname) in
  if (length parts <? 3)%nat then Ok None
  else if negb (eqs (lower (seg parts 0)) (py "game"))
          || negb (eqs (lower (seg parts 1)) (py "mods"))
  then Ok None
  else
    let mod_ := seg parts 2 in
    if isnumeric mod_ then get_name_from_id modresolver mod_
    else Ok (Some mod_).

(** [AssetLoader.get_mod_id]. *)
Definition get_mod_id (modresolver : ModResolver) (assetname : str)
    : result (option str) :=
  do assetname <- clean_asset_name modresolver assetname;
  let parts := split SLASH (strip_char SLASH assetname) in
  if (length parts <? 3)%nat then Ok None
  else if negb (eqs (lower (seg parts 0)) (py "game"))
          || negb (eqs (lower (seg parts 1)) (py "mods"))
  then Ok None
  else
    let mod_ := seg parts 2 in
    if negb (isnumeric mod_) then get_id_from_name modresolver mod_
    else Ok (Some mod_).

(** A directory as [posixpath.join] continues it: with a slash added
    unless it is empty or ends with one. *)
Definition with_sep (path : str) : str :=
  if eqs path [] || endswith_char SLASH path then path
  else path ++ [SLASH].

(** The first segment as [clean_asset_name] leaves it. *)
Definition game_for_content (root : str) : str :=
  if eqs (lower root) (py "content") then py "Game" else root.

(** ** Concrete instances used by the examples *)

Module Fixtures.

(** A small asset format: a file is its export table, one byte per
    export; an empty file does not deserialise, a one-byte file does not
    link, and the exports named [Default__...] are the bytes ["D"]. *)
#[export] Instance toy_format : UAssetFormat := {|
  Tables := list byte;
  ExportTableItem := byte;
  ClassRef := byte;
  deserialise := fun data =>
    match data with [] => None | _ => Some data end;
  link := fun t => match t with [_] => None | _ => Some t end;
  exports_values := fun t => t;
  export_name := fun b =>
    if Byte.eqb b "D"%byte then py "Default__Toy" else py "Other";
  export_klass_value := fun b => b
|}.

(** UTF-8 on buffers of 7-bit characters, where it maps a byte to the
    character of the same code; other buffers are left undecoded. *)
#[export] Instance ascii_codec : Utf8Codec := {|
  decode_utf8 := fun data =>
    if forallb (fun b => (Byte.to_N b <? 128)%N) data
    then Some (map ascii_of_byte data) else None
|}.

(** A decompressor for blocks stored as they are. *)
#[export] Instance stored : Zlib := {|
  zlib_decompress := fun data => Some data
|}.

Definition byte_of (n : Z) : byte :=
  match Byte.of_N (Z.to_N (n mod 256)) with
  | Some b => b
  | None => "000"%byte
  end.

(** [width] bytes of [n], least significant first. *)
Fixpoint le_bytes (width : nat) (n : Z) : list byte :=
  match width with
  | O => []
  | S w => byte_of n :: le_bytes w (n / 256)
  end.

Definition u32 : Z -> list byte := le_bytes 4.
Definition u64 : Z -> list byte := le_bytes 8.

Definition text (s : string) : list byte := list_byte_of_string s.

(** A token between double quotes. *)
Definition quoted (s : string) : str := QUOTE :: py s ++ [QUOTE].

(** Lines, each ended by a line feed. *)
Definition lines (l : list str) : str :=
  concat (map (fun line => line ++ [LF]) l).

Definition primal_fear_ini : ModResolver :=
  IniModResolver_initialise [(py "839162288", py "PrimalFear")].

Definition primal_fear_managed : ModResolver :=
  ManagedModResolver_initialise
    [(py "839162288", mkModData (py "839162288") (py "PrimalFear") false)]
    [].

Definition primal_fear_fixed : ModResolver :=
  FixedModResolver_init [(py "PrimalFear", py "839162288")].

(** A file system with a good asset, one that does not deserialise and
    one that does not link. *)
Definition toy_files (path : str) : option (list byte) :=
  if eqs path (py "root/Content/Dodo.uasset") then Some (text "xDy")
  else if eqs path (py "root/Content/Empty.uasset") then Some []
  else if eqs path (py "root/Content/Loose.umap") then Some (text "x")
  else None.

Definition toy_loader : AssetLoader :=
  AssetLoader_init primal_fear_managed (py "root") toy_files.

(** Mod packages: a header with nominal chunk size 4 and total size 6,
    once with a wrong token; a table whose sizes add up to 8; and a table
    that adds up, with a second chunk of three bytes where two are
    declared. *)
Definition header (token : Z) : list byte :=
  u64 token ++ u64 4 ++ u64 0 ++ u64 6.




Definition good_package : MemoryStream :=
  loadFileAsStream (header MAGIC ++ u64 4 ++ u64 4 ++ u64 2 ++ u64 2
                    ++ text "abcdxy").

Definition at_offset (f : MemoryStream) (n : Z) : MemoryStream :=
  mkStream (mem f) n.

(** The document of the specification. *)
Definition nested : str :=
  lines [ quoted "Root";
          py "{";
          py "    " ++ quoted "A" ++ py "    " ++ quoted "1";
          py "    " ++ quoted "Child";
          py "    {";
          py "        " ++ quoted "B" ++ py "    " ++ quoted "2";
          py "    }";
          py "}" ].

(** The same document with the entry of [Root] after its subsection. *)
Definition entry_after_close : str :=
  lines [ quoted "Root";
          py "{";
          py "    " ++ quoted "Child";
          py "    {";
          py "        " ++ quoted "B" ++ py "    " ++ quoted "2";
          py "    }";
          py "    " ++ quoted "A" ++ py "    " ++ quoted "1";
          py "}" ].

(** Two installed mods and one official one. *)
Definition two_mods : list (str * ModData) :=
  [ (py "839162288", mkModData (py "839162288") (py "PrimalFear") false);
    (py "893735676", mkModData (py "893735676") (py "AE") false) ].

Definition one_official : list (str * str) := [ (py "111111111", py "Ragnarok") ].

End Fixtures.

(** ** Files as they are laid out *)

(** The stream [f] has read [before] and has [after] still to read. *)
Definition stream_at (f : MemoryStream) (before after : list byte) : Prop :=
  mem f = before ++ after /\ offset f = Z.of_nat (length before).

(** A length-prefixed string as it lies in a file: nothing but a zero
    length, or a length and that many bytes. *)
Inductive text_field : Type :=
| Absent
| Text (data : list byte).

Definition field_bytes (t : text_field) : list byte :=
  match t with
  | Absent => Fixtures.u32 0
  | Text data => Fixtures.u32 (Z.of_nat (length data)) ++ data
  end.

(** A field [readUnrealString] reads without raising. *)
Definition field_ok `{Utf8Codec} (t : text_field) : Prop :=
  match t with
  | Absent => True
  | Text data =>
      data <> [] /\ Z.of_nat (length data) < 2 ^ 32
      /\ is_Some (decode_utf8 data)
  end.

(** What [readUnrealString] makes of it. *)
Definition field_value `{Utf8Codec} (t : text_field) : option str :=
  match t with
  | Absent => None
  | Text data => option_map drop_last (decode_utf8 data)
  end.

(** A mod package: the header, the descriptor table and the payloads of
    the chunks, each chunk given as its compressed and its uncompressed
    bytes. *)
Definition descriptor (chunk : list byte * list byte) : list byte :=
  Fixtures.u64 (Z.of_nat (length (fst chunk)))
  ++ Fixtures.u64 (Z.of_nat (length (snd chunk))).

Definition unpacked_size (chunks : list (list byte * list byte)) : Z :=
  Z.of_nat (length (concat (map snd chunks))).

Definition package (sizeUnpackedChunk sizePacked : Z)
    (chunks : list (list byte * list byte)) : list byte :=
  Fixtures.u64 MAGIC ++ Fixtures.u64 sizeUnpackedChunk
  ++ Fixtures.u64 sizePacked ++ Fixtures.u64 (unpacked_size chunks)
  ++ concat (map descriptor chunks)
  ++ concat (map fst chunks).

(** Every chunk but the last has the nominal size. *)
Fixpoint nominal_sizes (sizeUnpackedChunk : Z)
    (chunks : list (list byte * list byte)) : Prop :=
  match chunks with
  | [] => True
  | [_] => True
  | chunk :: rest =>
      Z.of_nat (length (snd chunk)) = sizeUnpackedChunk
      /\ nominal_sizes sizeUnpackedChunk rest
  end.

(** The descriptor of a chunk as the table holds it. *)
Definition chunk_sizes (chunk : list byte * list byte) : Z * Z :=
  (Z.of_nat (length (fst chunk)), Z.of_nat (length (snd chunk))).

(** A chunk [unpackModFile] takes: not empty, its sizes below [2^64], and
    its payload decompressing to its bytes. *)
Definition chunk_ok `{Zlib} (chunk : list byte * list byte) : Prop :=
  snd chunk <> []
  /\ Z.of_nat (length (fst chunk)) < 2 ^ 64
  /\ Z.of_nat (length (snd chunk)) < 2 ^ 64
  /\ zlib_decompress (fst chunk) = Some (snd chunk).




(** ** The game version ([automate/ark.py]) *)

(** [\d] within the characters below 256: the digits [0] to [9]. *)
Definition is_digit (c : ascii) : bool :=
  let n := code c in ((48 <=? n) && (n <=? 57))%N.

(** [re.fullmatch(r"\d+(\.\d+)*", s, re.I)]: groups of digits, none
    empty, with one dot between two of them. *)
Definition is_version (s : str) : bool :=
  forallb (fun group => negb (eqs group []) && forallb is_digit group)
          (split DOT s).

(** [if v:] for a value that is a [str] or [None]. *)
Definition truthy (v : option str) : bool :=
  match v with
  | Some (_ :: _) => true
  | _ => false
  end.

(** [_fetchGameVersionFromFile], from the content of [version.txt] if the
    file is there. *)
Definition _fetchGameVersionFromFile (verFile : option str) : option str :=
  match verFile with
  | None => None
  | Some content => Some (strip content)
  end.

(** [_fetchGameVersionFromAPI], from the status and the text of the
    response. *)
Definition _fetchGameVersionFromAPI (status_code : Z) (text : str)
    : option str :=
  if negb (status_code =? 200) then None
  else
    let version := strip text in
    match version with
    | [] => None
    | _ => Some version
    end.

(** The check of one source in [fetchGameVersion]: a version that is
    there and does not match is dropped. *)
Definition checked (version : option str) : option str :=
  if truthy version then
    match version with
    | Some v => if negb (is_version v) then None else version
    | None => version
    end
  else version.

(** The [str] behind a value that is not [None]. *)
Definition the_str (v : option str) : str :=
  match v with
  | Some s => s
  | None => []
  end.

(** [fetchGameVersion], from what running the server gave (nothing with
    [skip_exe]), the content of [version.txt] and the response of the
    official API. *)
Definition fetchGameVersion (exe : option str) (verFile : option str)
    (status_code : Z) (text : str) : result str :=
  (* Try to run the server itself and grab its version output *)
  let exe_version := checked exe in
  (* Try version.txt in depot... cross fingers *)
  let txt_version := checked (_fetchGameVersionFromFile verFile) in
  (* Fetch official server network version API *)
  let api_version := checked (_fetchGameVersionFromAPI status_code text) in
  (* Decide which to return *)
  if truthy exe_version then Ok (the_str exe_version)
  else if truthy txt_version && truthy api_version
          && negb (bool_decide (txt_version = api_version))
  then Ok (the_str txt_version)
  else if truthy txt_version then Ok (the_str txt_version)
  else if truthy api_version then Ok (the_str api_version)
  else Raise (ValueError "No version number source available").

(** The first of the candidates that is a well-formed version. *)
Fixpoint first_version (candidates : list (option str)) : option str :=
  match candidates with
  | [] => None
  | Some v :: rest => if is_version v then Some v else first_version rest
  | None :: rest => first_version rest
  end.

(** ** Documents in the key-value format *)

(** A token between double quotes. *)
Definition in_quotes (s : str) : str := QUOTE :: s ++ [QUOTE].

(** Blanks that do not end a line. *)
Definition blanks (w : str) : Prop :=
  Forall (fun c => is_space c = true /\ is_linebreak c = false) w.

(** A key or a section name: no blank and no double quote. *)
Definition plain_token (s : str) : Prop :=
  Forall (fun c => is_space c = false /\ c <> QUOTE) s.

(** A value: no line break and no double quote, and no blank at its
    end. *)
Definition plain_value (s : str) : Prop :=
  Forall (fun c => is_linebreak c = false /\ c <> QUOTE) s
  /\ forall c, last_char s = Some c -> is_space c = false.

(** An entry as it stands on its line: the indentation, the key, the
    blanks between key and value, and the value. *)
Record acf_entry : Type := mkEntry {
  e_indent : str;
  e_key : str;
  e_sep : str;
  e_value : str
}.

Definition entry_ok (e : acf_entry) : Prop :=
  blanks (e_indent e) /\ plain_token (e_key e)
  /\ blanks (e_sep e) /\ e_sep e <> [] /\ plain_value (e_value e).

Definition entry_line (e : acf_entry) : str :=
  e_indent e ++ in_quotes (e_key e) ++ e_sep e ++ in_quotes (e_value e).

(** The [dict] the entries make, one after the other. *)
Definition entries_dict (entries : list acf_entry) : Acf.pydict :=
  foldl (fun d e => Acf.dict_set d (e_key e) (Acf.VStr (e_value e)))
        [] entries.

(** The value of the last entry with the key, if there is one. *)
Fixpoint last_value (key : str) (entries : list acf_entry) : option str :=
  match entries with
  | [] => None
  | e :: rest =>
      match last_value key rest with
      | Some v => Some v
      | None => if eqs (e_key e) key then Some (e_value e) else None
      end
  end.

(** A document of one section: its name, the opening brace, its entries
    and the closing brace, each on a line of its own. *)
Definition one_section (indent name : str) (entries : list acf_entry)
    : str :=
  Fixtures.lines
    ((indent ++ in_quotes name) :: (indent ++ py "{")
     :: map entry_line entries ++ [indent ++ py "}"]).

(** [d[k]] for a value of a parsed document. *)
Definition acf_getitem (h : Acf.objects) (d : Acf.value) (k : str)
    : result Acf.value :=
  match d with
  | Acf.VStr _ => Raise TypeError
  | Acf.VRef o =>
      match Acf.dict_get (h !!! o) k with
      | Some v => Ok v
      | None => Raise (KeyError k)
      end
  end.

(** [getGameBuildId] of [automate/ark.py], from the text of the app
    manifest. *)
Definition getGameBuildId (content : str) : result Acf.value :=
  do data <- Acf.parseAcf content;
  do app_state <- acf_getitem data (Acf.VRef Acf.output) (py "AppState");
  acf_getitem data app_state (py "buildid").

(* ===================================================================== *)
(** * Part II: properties *)
(* ===================================================================== *)

(** ** The cache *)

Section CacheFacts.
Context {V : Type}.
Implicit Types (cache : gmap str V) (names : list str).

Import DictCacheManager.

Lemma delete_all_lookup names : forall cache,
  NoDup names ->
  (forall n, n ∈ names -> is_Some (cache !! n)) ->
  exists cache',
    delete_all cache names = Ok cache'
    /\ forall k, cache' !! k = if decide (k ∈ names) then None
                               else cache !! k.
Proof.
  induction names as [|n names IH]; intros cache Hnd Hin; simpl.
  - exists cache. split; [reflexivity|]. intros k.
    destruct (decide (k ∈ [])) as [Hk|_]; [inversion Hk | reflexivity].
  - unfold dict_delitem.
    destruct (Hin n) as [v Hv]; [left|]. rewrite Hv. simpl.
    apply NoDup_cons in Hnd as [Hn Hnd].
    destruct (IH (delete n cache) Hnd) as (c' & Hc' & Hl).
    + intros m Hm. rewrite lookup_delete_ne; [apply Hin; now right|].
      intros ->. contradiction.
    + exists c'. split; [exact Hc'|]. intros k. rewrite Hl.
      destruct (decide (k ∈ names)) as [Hk|Hk].
      * rewrite decide_True; [reflexivity | now right].
      * destruct (decide (k = n)) as [->|Hne].
        -- rewrite decide_True; [apply lookup_delete_eq | left].
        -- rewrite decide_False; [now apply lookup_delete_ne|].
           intros Hk'. apply elem_of_cons in Hk' as [?|?]; contradiction.
Qed.

Lemma wipe_keys cache prefix k :
  k ∈ List.filter (startswith prefix) (map fst (map_to_list cache))
  <-> startswith prefix k = true /\ is_Some (cache !! k).
Proof.
  rewrite list_elem_of_In, filter_In, <- list_elem_of_In.
  change (map fst (map_to_list cache)) with ((map_to_list cache).*1).
  rewrite list_elem_of_fmap. split.
  - intros [[[k' v] [-> Hkv]] Hp]. split; [exact Hp|].
    apply elem_of_map_to_list in Hkv. now exists v.
  - intros [Hp [v Hv]]. split; [|exact Hp].
    exists (k, v). split; [reflexivity|]. now apply elem_of_map_to_list.
Qed.

Lemma startswith_nil name : startswith [] name = true.
Proof. now destruct name. Qed.

End CacheFacts.

(** [wipe] returns, and deletes the names that start with the prefix and
    no other. *)
Lemma wipe_lookup {V : Type} (cache : gmap str V) (prefix : str) :
  exists cache',
    DictCacheManager.wipe cache prefix = Ok cache'
    /\ forall name,
         cache' !! name =
         if startswith prefix name then None else cache !! name.
Proof.
  destruct prefix as [|c p].
  - exists ∅. split; [reflexivity|]. intros name. simpl. apply lookup_empty.
  - set (prefix := c :: p).
    destruct (delete_all_lookup
                (List.filter (startswith prefix)
                             (map fst (map_to_list cache))) cache)
      as (c' & Hc' & Hl).
    + apply NoDup_ListNoDup, List.NoDup_filter, NoDup_ListNoDup.
      apply NoDup_fst_map_to_list.
    + intros n Hn. now apply wipe_keys in Hn.
    + exists c'. split; [exact Hc'|].
      intros name. rewrite Hl.
      destruct (startswith prefix name) eqn:Hp.
      * destruct (decide _) as [_|Hk]; [reflexivity|].
        destruct (cache !! name) as [v|] eqn:Hv; [|reflexivity].
        exfalso. apply Hk, wipe_keys. split; [exact Hp | now exists v].
      * rewrite decide_False; [reflexivity|].
        intros Hk. apply wipe_keys in Hk as [Hk _]. congruence.
Qed.

(** C9. For every cache and every prefix, [wipe] returns, and afterwards a
    lookup of a name that starts with the prefix finds nothing while a
    lookup of any other name finds what it found before; with the empty
    prefix nothing is left. *)
Theorem wipe_removes_prefix {V : Type} (cache : gmap str V) (prefix : str) :
  exists cache',
    DictCacheManager.wipe cache prefix = Ok cache'
    /\ (forall name,
          DictCacheManager.lookup cache' name =
          if startswith prefix name then None
          else DictCacheManager.lookup cache name)
    /\ DictCacheManager.wipe cache [] = Ok ∅.
Proof.
  destruct (wipe_lookup cache prefix) as (cache' & Hw & Hl).
  exists cache'. split; [exact Hw|]. split; [exact Hl | reflexivity].
Qed.

(** C10. A name with no entry in the cache for which [__delitem__] does
    not raise [KeyError]: with the resolver read from [mods.ini], a mod
    path whose id is not registered has no canonical name, and the call
    raises [TypeError] from [clean_asset_name] before the cache is asked.
    The cache is empty and the loader is left as it was. *)
Theorem delitem_unregistered_mod_id :
  let s := AssetLoader_init Fixtures.primal_fear_ini (py "root")
                            Fixtures.toy_files in
  let x := py "/Game/Mods/123456/Foo" in
  (forall k, DictCacheManager.lookup (cache s) k = None)
  /\ clean_asset_name (modresolver s) x = Raise TypeError
  /\ @__delitem__ Fixtures.toy_format s x = (Raise TypeError, s).
Proof.
  intros s x. split; [|split].
  - intros k. apply lookup_empty.
  - reflexivity.
  - reflexivity.
Qed.

(** X23. When [x] has a canonical name: if that name has no entry in the
    cache, [__delitem__] raises [KeyError] with it and leaves the loader as
    it was; if it has one, the entry is deleted; so the call goes through
    exactly when the canonical name is cached. *)
Theorem delitem_missing_raises `{UAssetFormat} (s : AssetLoader) (x k : str) :
  clean_asset_name (modresolver s) x = Ok k ->
  (DictCacheManager.lookup (cache s) k = None ->
     __delitem__ s x = (Raise (KeyError k), s))
  /\ (forall a, DictCacheManager.lookup (cache s) k = Some a ->
        __delitem__ s x = (Ok tt, set_cache (delete k (cache s)) s))
  /\ (is_Ok (fst (__delitem__ s x)) = true
      <-> is_Some (DictCacheManager.lookup (cache s) k)).
Proof.
  intros Hk.
  unfold __delitem__, DictCacheManager.remove, DictCacheManager.dict_delitem,
    DictCacheManager.lookup.
  rewrite Hk.
  destruct (cache s !! k) as [a|] eqn:Ha; repeat split; simpl;
    try discriminate; try reflexivity; eauto.
  intros [? ?]; discriminate.
Qed.

Lemma delitem_missing_raises_witness :
  __delitem__ Fixtures.toy_loader (py "Content/Dodo.Dodo_C")
  = (Raise (KeyError (py "/Game/Dodo")), Fixtures.toy_loader).
Proof.
  refine (proj1 (delitem_missing_raises Fixtures.toy_loader
                   (py "Content/Dodo.Dodo_C") (py "/Game/Dodo") _) _);
    reflexivity.
Defined.

(** ** The mod resolvers *)

(** The managed resolver answers every id, with the id itself when it has
    no data for it. *)
Lemma Managed_get_name_from_id (dataCache : gmap str ModData)
    modNameToIds (modid : str) :
  exists name,
    get_name_from_id (ManagedModResolver dataCache modNameToIds) modid
    = Ok (Some name)
    /\ (dataCache !! modid = None -> name = modid).
Proof.
  simpl. destruct (dataCache !! modid) as [d|]; eauto.
  exists (md_name d). split; [reflexivity | discriminate].
Qed.

(** The managed resolver raises [ModNotFound] for a name it has not. *)
Lemma Managed_get_id_from_name_absent (dataCache : gmap str ModData)
    (modNameToIds : gmap str str) (name : str) :
  modNameToIds !! lower name = None ->
  get_id_from_name (ManagedModResolver dataCache modNameToIds) name
  = Raise (ModNotFound name).
Proof. unfold get_id_from_name. now intros ->. Qed.

(** C4. An id that is not registered: the resolver read from [mods.ini]
    returns [None], with which [clean_asset_name] raises [TypeError]; the
    resolver over a fixed map raises [KeyError]; the managed resolver
    returns the id. *)
Theorem get_name_from_id_unregistered :
  get_name_from_id Fixtures.primal_fear_ini (py "123456") = Ok None
  /\ clean_asset_name Fixtures.primal_fear_ini (py "/Game/Mods/123456/Foo")
     = Raise TypeError
  /\ get_name_from_id Fixtures.primal_fear_fixed (py "123456")
     = Raise (KeyError (py "123456"))
  /\ get_name_from_id Fixtures.primal_fear_managed (py "123456")
     = Ok (Some (py "123456")).
Proof. repeat split; vm_compute; reflexivity. Qed.

(** C5. A name that is not registered: the resolver read from [mods.ini]
    returns [None] and the resolver over a fixed map raises [KeyError],
    where the managed resolver raises [ModNotFound]; and the resolver over
    a fixed map does not find a registered name written in another case. *)
Theorem get_id_from_name_unregistered :
  get_id_from_name Fixtures.primal_fear_ini (py "Unknown") = Ok None
  /\ get_id_from_name Fixtures.primal_fear_fixed (py "Unknown")
     = Raise (KeyError (py "Unknown"))
  /\ get_id_from_name Fixtures.primal_fear_fixed (py "primalfear")
     = Raise (KeyError (py "primalfear"))
  /\ get_id_from_name Fixtures.primal_fear_fixed (py "PrimalFear")
     = Ok (Some (py "839162288"))
  /\ get_id_from_name Fixtures.primal_fear_managed (py "Unknown")
     = Raise (ModNotFound (py "Unknown"))
  /\ get_id_from_name Fixtures.primal_fear_managed (py "PRIMALFEAR")
     = Ok (Some (py "839162288")).
Proof. repeat split; vm_compute; reflexivity. Qed.

(** ** [parseAcf] *)

Module AcfFacts.
Import Acf Fixtures.

Example parseAcf_nested :
  parseAcf_tree nested
  = Ok (Node [(py "Root",
               Node [(py "A", Leaf (py "1"));
                     (py "Child", Node [(py "B", Leaf (py "2"))])])]).
Proof. vm_compute. reflexivity. Qed.

(** C6. An entry that follows the [}] of a subsection is stored in that
    subsection, not in the section around it: closing a section leaves
    [current_section] where it was. *)
Theorem parseAcf_entry_after_close :
  parseAcf_tree entry_after_close
  = Ok (Node [(py "Root",
               Node [(py "Child",
                      Node [(py "B", Leaf (py "2"));
                            (py "A", Leaf (py "1"))])])]).
Proof. vm_compute. reflexivity. Qed.

(** Closing a section changes nothing but the stack of names. *)
Lemma step_close st :
  sections st <> [] ->
  step st (py "}")
  = Ok (mkState (heap st) (current_section st) (removelast (sections st))).
Proof.
  intros Hs. unfold step. cbn.
  destruct (sections st); [contradiction | reflexivity].
Qed.

End AcfFacts.

(** ** [readUnrealString] *)

Lemma le_value_range bs : 0 <= le_value bs.
Proof.
  induction bs as [|b bs IH]; simpl; [lia|].
  pose proof (N2Z.is_nonneg (Byte.to_N b)). lia.
Qed.

Lemma read_uint_nonneg width f n f' :
  read_uint width f = Ok (n, f') -> 0 <= n.
Proof.
  unfold read_uint. destruct (_ =? _); [|discriminate].
  intros [= <- _]. apply le_value_range.
Qed.

(** The test [count < 0] never holds of what [readUInt32] returns, so the
    [ValueError] behind it is never raised. *)
Lemma readUnrealString_never_ValueError `{Utf8Codec} f msg f' :
  readUnrealString f <> (Raise (ValueError msg), f').
Proof.
  unfold readUnrealString.
  destruct (readUInt32 f) as [[count f1]|e] eqn:Hr.
  - apply read_uint_nonneg in Hr.
    destruct (count <? 0) eqn:Hneg; [apply Z.ltb_lt in Hneg; lia|].
    destruct (count =? 0); [discriminate|].
    destruct (readBytes f1 count) as [data f2].
    destruct (decode_utf8 data); discriminate.
  - unfold readUInt32, read_uint in Hr.
    destruct (_ =? _); [discriminate|]. injection Hr as <-. discriminate.
Qed.

(** What the length field decides: zero gives [None] with nothing more
    read; any other length, whatever its sign bit, has that many bytes
    read and decoded, and the last character dropped. *)
Lemma readUnrealString_cases `{Utf8Codec} f count f1 :
  readUInt32 f = Ok (count, f1) ->
  readUnrealString f
  = if count =? 0 then (Ok None, f1)
    else match decode_utf8 (fst (readBytes f1 count)) with
         | Some string =>
             (Ok (Some (drop_last string)), snd (readBytes f1 count))
         | None => (Raise UnicodeDecodeError, snd (readBytes f1 count))
         end.
Proof.
  intros Hr. unfold readUnrealString. rewrite Hr.
  apply read_uint_nonneg in Hr.
  destruct (count <? 0) eqn:Hneg; [apply Z.ltb_lt in Hneg; lia|].
  destruct (count =? 0); [reflexivity|]. simpl.
  destruct (decode_utf8 _); reflexivity.
Qed.

(** C7. A length field with the sign bit set, here [0xFFFFFFFC] (minus
    four as a signed number) before four wide characters: nothing is
    rejected, the bytes that follow are read and decoded as 8-bit text. *)
Theorem readUnrealString_wide_length :
  @readUnrealString Fixtures.ascii_codec
    (loadFileAsStream
       (Fixtures.u32 0xFFFFFFFC
        ++ [ "a"; "000"; "b"; "000"; "c"; "000"; "000"; "000" ]%byte))
  = (Ok (Some [ "a"; "000"; "b"; "000"; "c"; "000"; "000" ]%char),
     mkStream
       (Fixtures.u32 0xFFFFFFFC
        ++ [ "a"; "000"; "b"; "000"; "c"; "000"; "000"; "000" ]%byte)
       (4 + 0xFFFFFFFC)).
Proof. vm_compute. reflexivity. Qed.

Example readUnrealString_zero :
  fst (@readUnrealString Fixtures.ascii_codec
         (loadFileAsStream (Fixtures.u32 0))) = Ok None.
Proof. reflexivity. Qed.

Example readUnrealString_text :
  fst (@readUnrealString Fixtures.ascii_codec
         (loadFileAsStream
            (Fixtures.u32 4 ++ [ "a"; "b"; "c"; "000" ]%byte)))
  = Ok (Some (py "abc")).
Proof. vm_compute. reflexivity. Qed.

(** ** The loader *)

Section LoaderFacts.
Context `{FMT : UAssetFormat}.
Implicit Types (s : AssetLoader) (a : UAsset) (k x prefix : str).

Lemma load_raw_asset_exts_state s k exts r s' :
  load_raw_asset_exts s k exts = (r, s') ->
  match r with
  | Ok (Some _) => s' = count_read s
  | _ => s' = s
  end.
Proof.
  induction exts as [|ext exts IH]; simpl.
  - now intros [= <- <-].
  - destruct (convert_asset_name_to_path _ _ _ _) as [filename|e].
    + destruct (files s filename); [now intros [= <- <-] | exact IH].
    + now intros [= <- <-].
Qed.

(** A raw load that goes through has read one file; one that raises
    has read none. *)
Lemma load_raw_asset_state s k r s' :
  load_raw_asset s k = (r, s') ->
  match r with
  | Ok _ => s' = count_read s
  | Raise _ => s' = s
  end.
Proof.
  unfold load_raw_asset.
  destruct (clean_asset_name _ _) as [k'|e]; [|now intros [= <- <-]].
  destruct (load_raw_asset_exts _ _ _) as [[[mem|]|e] s1] eqn:Hx;
    apply load_raw_asset_exts_state in Hx; now intros [= <- <-].
Qed.

Lemma fresh_oid_unused (h : gmap nat UAsset) : h !! fresh (dom h) = None.
Proof. apply not_elem_of_dom, is_fresh. Qed.

(** What [_load_asset] does to the loader, case by case. *)
Lemma load_asset_state s k doNotLink r s' :
  _load_asset s k doNotLink = (r, s') ->
  modresolver s' = modresolver s
  /\ (forall o, is_Some (heap s !! o) -> heap s' !! o = heap s !! o)
  /\ match r with
     | Raise _ => cache s' = cache s
     | Ok oid =>
         reads s' = S (reads s)
         /\ if doNotLink then cache s' = cache s
            else cache s' = <[k := oid]> (cache s)
                 /\ exists a, heap s' !! oid = Some a /\ fully_loaded k a
     end.
Proof.
  unfold _load_asset.
  destruct (load_raw_asset s k) as [[mem|e] s1] eqn:Hraw;
    apply load_raw_asset_state in Hraw; subst s1;
    [|now intros [= <- <-]].
  assert (Hframe : forall a (h : gmap nat UAsset),
            (forall o, is_Some (heap s !! o) ->
            h !! o = heap s !! o) ->
            forall o, is_Some (heap s !! o) ->
            <[fresh (dom (heap s)) := a]> h !! o = heap s !! o).
  { intros a h Hh o Ho. rewrite lookup_insert_ne; [now apply Hh|].
    intros <-. rewrite fresh_oid_unused in Ho. now destruct Ho. }
  destruct (deserialise mem) as [t|].
  2:{ intros [= <- <-]. simpl. repeat split. now apply Hframe. }
  destruct doNotLink.
  { intros [= <- <-]. simpl. repeat split. now apply Hframe, Hframe. }
  destruct (link t) as [t'|].
  2:{ intros [= <- <-]. simpl. repeat split. now apply Hframe, Hframe. }
  intros [= <- <-]. simpl. repeat split.
  - now apply Hframe, Hframe, Hframe.
  - eexists. split; [apply lookup_insert_eq|].
    repeat split. exists t'. repeat split.
Qed.

(** A retrieval that goes through leaves the
    asset cached under the canonical name. *)
Lemma getitem_state s x r s' :
  __getitem__ s x = (Ok r, s') ->
  exists k,
    clean_asset_name (modresolver s) x = Ok k
    /\ modresolver s' = modresolver s
    /\ DictCacheManager.lookup (cache s') k = Some r
    /\ match DictCacheManager.lookup (cache s) k with
       | Some _ => s' = s
       | None => reads s' = S (reads s)
       end.
Proof.
  unfold __getitem__, DictCacheManager.lookup.
  destruct (clean_asset_name _ _) as [k|e]; [|discriminate].
  intros Hg. exists k. split; [reflexivity|].
  destruct (cache s !! k) as [a|] eqn:Hk.
  - injection Hg as <- <-. now rewrite Hk.
  - apply load_asset_state in Hg as (Hm & _ & Hr & Hc & _).
    rewrite Hc, lookup_insert_eq. auto.
Qed.

End LoaderFacts.

(** C1. When a retrieval of [x] returns an asset, the next retrieval of
    [x] returns the same object and changes nothing, so it reads no file;
    the first one read at most one file, and exactly one when the
    canonical name of [x] was not cached before. *)
Theorem getitem_twice_same_object `{UAssetFormat}
    (s : AssetLoader) (x : str) (asset : nat) (s1 : AssetLoader) :
  __getitem__ s x = (Ok asset, s1) ->
  __getitem__ s1 x = (Ok asset, s1)
  /\ (reads s1 <= S (reads s))%nat
  /\ (forall k, clean_asset_name (modresolver s) x = Ok k ->
        DictCacheManager.lookup (cache s) k = None ->
        reads s1 = S (reads s)).
Proof.
  intros Hg. apply getitem_state in Hg as (k & Hk & Hm & Hc & Hr).
  split; [|split].
  - unfold __getitem__. rewrite Hm, Hk, Hc. reflexivity.
  - destruct (DictCacheManager.lookup (cache s) k); [subst s1|]; lia.
  - intros k' Hk' Hnone. rewrite Hk in Hk'. injection Hk' as <-.
    now rewrite Hnone in Hr.
Qed.

Lemma getitem_twice_same_object_witness :
  let first := __getitem__ Fixtures.toy_loader (py "Content\Dodo.Dodo_C") in
  fst first = Ok 0%nat
  /\ __getitem__ (snd first) (py "Content\Dodo.Dodo_C") = (Ok 0%nat, snd first)
  /\ reads (snd first) = 1%nat.
Proof.
  pose proof (getitem_twice_same_object Fixtures.toy_loader
                (py "Content\Dodo.Dodo_C") 0%nat
                (snd (__getitem__ Fixtures.toy_loader
                        (py "Content\Dodo.Dodo_C")))) as Hw.
  destruct Hw as (H2 & _ & H1); [vm_compute; reflexivity|].
  split; [vm_compute; reflexivity|]. split; [exact H2|].
  apply (H1 (py "/Game/Dodo")); reflexivity.
Defined.

(** C8. A load that raises leaves the cache as it was; a shallow load
    leaves the cache as it was whatever its outcome; and in a loader that
    started with an empty cache every cached name refers to an asset that
    is linked and has its default export identified. *)
Theorem cache_only_full_loads `{UAssetFormat} :
  (forall s k doNotLink e s',
     _load_asset s k doNotLink = (Raise e, s') -> cache s' = cache s)
  /\ (forall s x e s',
        __getitem__ s x = (Raise e, s') -> cache s' = cache s)
  /\ (forall s x r s',
        partially_load_asset s x = (r, s') -> cache s' = cache s)
  /\ (forall modresolver assetpath files requests,
        cache_ok (serve_all (AssetLoader_init modresolver assetpath files)
                            requests)).
Proof.
  assert (Hraise : forall s k doNotLink e s',
            _load_asset s k doNotLink = (Raise e, s') -> cache s' = cache s).
  { intros s k b e s' Hl. now apply load_asset_state in Hl as (_ & _ & Hc). }
  assert (Hget : forall s x e s',
            __getitem__ s x = (Raise e, s') -> cache s' = cache s).
  { intros s x e s'. unfold __getitem__.
    destruct (clean_asset_name _ _) as [k|e']; [|now intros [= _ <-]].
    destruct (DictCacheManager.lookup _ _); [discriminate | apply Hraise]. }
  assert (Hshallow : forall s x r s',
            partially_load_asset s x = (r, s') -> cache s' = cache s).
  { intros s x r s' Hl. apply load_asset_state in Hl as (_ & _ & Hc).
    destruct r; [apply Hc | exact Hc]. }
  repeat split; try assumption.
  intros mr root fs requests.
  (* the invariant holds at the start and every call keeps it *)
  assert (Hframe : forall s s', cache_ok s ->
            (forall o, is_Some (heap s !! o) -> heap s' !! o = heap s !! o) ->
            cache s' = cache s -> cache_ok s').
  { intros s s' Hok Hh Hc k oid Hk. rewrite Hc in Hk.
    destruct (Hok k oid Hk) as (a & Ha & Hf). exists a.
    split; [|exact Hf]. rewrite Hh; [exact Ha | now rewrite Ha]. }
  assert (Hsub : forall s (c : gmap str nat), cache_ok s ->
            (forall k oid, c !! k = Some oid -> cache s !! k = Some oid) ->
            cache_ok (set_cache c s)).
  { intros s c Hok Hc k oid Hk. apply (Hok k oid), Hc, Hk. }
  assert (Hwipe : forall s prefix, cache_ok s ->
            cache_ok (snd (wipe_cache_with_prefix s prefix))).
  { intros s prefix Hok. unfold wipe_cache_with_prefix.
    destruct (wipe_lookup (cache s) prefix) as (c & -> & Hl).
    apply Hsub; [exact Hok|]. intros k oid Hk.
    specialize (Hl k). rewrite Hk in Hl. destruct (startswith prefix k); congruence. }
  assert (Hstep : forall s r, cache_ok s -> cache_ok (serve s r)).
  { intros s [x|x|x| |prefix] Hok.
    - simpl. destruct (__getitem__ s x) as [[oid|e] s'] eqn:Hg; simpl.
      + unfold __getitem__ in Hg.
        destruct (clean_asset_name _ _) as [k|e']; [|discriminate].
        destruct (DictCacheManager.lookup _ _);
          [now injection Hg as _ <-|].
        apply load_asset_state in Hg as (_ & Hh & _ & Hc & a & Ha & Hf).
        intros k' oid' Hk'. unfold DictCacheManager.lookup in Hk'.
        rewrite Hc in Hk'. destruct (decide (k = k')) as [<-|Hne].
        * rewrite lookup_insert_eq in Hk'. injection Hk' as <-. eauto.
        * rewrite lookup_insert_ne in Hk' by exact Hne.
          destruct (Hok k' oid' Hk') as (a' & Ha' & Hf'). exists a'.
          split; [|exact Hf']. rewrite Hh; [exact Ha' | now rewrite Ha'].
      + pose proof (Hget _ _ _ _ Hg) as Hc. unfold __getitem__ in Hg.
        destruct (clean_asset_name _ _) as [k|e']; [|now injection Hg as _ <-].
        destruct (DictCacheManager.lookup _ _); [discriminate|].
        apply load_asset_state in Hg as (_ & Hh & _).
        now apply (Hframe s).
    - simpl. destruct (partially_load_asset s x) as [r s'] eqn:Hp; simpl.
      pose proof (Hshallow _ _ _ _ Hp) as Hc.
      apply load_asset_state in Hp as (_ & Hh & _). now apply (Hframe s).
    - simpl. unfold __delitem__, DictCacheManager.remove,
        DictCacheManager.dict_delitem.
      destruct (clean_asset_name _ _) as [k|e]; [|exact Hok].
      destruct (cache s !! k) eqn:Hk; [|exact Hok]. simpl.
      apply Hsub; [exact Hok|]. intros k' oid' Hk'.
      apply lookup_delete_Some in Hk'. tauto.
    - exact (Hwipe s [] Hok).
    - exact (Hwipe s prefix Hok). }
  unfold serve_all.
  assert (Hinit : cache_ok (AssetLoader_init mr root fs)).
  { intros k oid Hk. unfold DictCacheManager.lookup in Hk. simpl in Hk.
    now rewrite lookup_empty in Hk. }
  revert Hinit. generalize (AssetLoader_init mr root fs).
  induction requests as [|r requests IH]; intros s Hok; simpl;
    [exact Hok | apply IH, Hstep, Hok].
Qed.

Lemma cache_only_full_loads_witness :
  cache (snd (_load_asset Fixtures.toy_loader (py "/Game/Empty") false))
  = cache Fixtures.toy_loader
  /\ cache (snd (partially_load_asset Fixtures.toy_loader (py "/Game/Dodo")))
     = cache Fixtures.toy_loader.
Proof.
  destruct (@cache_only_full_loads Fixtures.toy_format) as (H1 & _ & H3 & _).
  split.
  - apply (H1 _ (py "/Game/Empty") false AssetFormatError).
    vm_compute. reflexivity.
  - apply (H3 _ (py "/Game/Dodo")
              (fst (partially_load_asset Fixtures.toy_loader
                      (py "/Game/Dodo")))).
    apply surjective_pairing.
Defined.

(** ** [unpackModFile] *)

Lemma total_uncompressed_app cs1 cs2 :
  total_uncompressed (cs1 ++ cs2)
  = total_uncompressed cs1 + total_uncompressed cs2.
Proof.
  unfold total_uncompressed. induction cs1 as [|c cs1 IH]; simpl; lia.
Qed.

(** The descriptor loop adds to the table it is given and keeps
    [sizeFound] the sum of what it has added; it stops as soon as the sum
    reaches the total of the header. *)
Lemma read_descriptors_sum f sizeUnpacked sizeFound chunkSizes :
  forall table sizeFound' f',
    read_descriptors f sizeUnpacked sizeFound chunkSizes
    = (Ok (table, sizeFound'), f') ->
    exists added,
      table = chunkSizes ++ added
      /\ sizeFound' = sizeFound + total_uncompressed added
      /\ sizeUnpacked <= sizeFound'.
Proof.
  funelim (read_descriptors f sizeUnpacked sizeFound chunkSizes);
    intros table found' f'; try discriminate.
  - intros [= <- <- <-]. exists []. rewrite app_nil_r.
    apply Z.ltb_ge in Heq. unfold total_uncompressed. simpl.
    repeat split; lia.
  - intros Hrec.
    match goal with
    | IH : forall _ _ _, read_descriptors _ _ _ _ = _ -> _ |- _ =>
        destruct (IH _ _ _ Hrec) as (added & -> & -> & Hge)
    end.
    exists ((chunkSizeCompressed, chunkSizeUnompressed) :: added).
    rewrite <- app_assoc. unfold total_uncompressed in *. simpl.
    repeat split; lia.
Qed.


Example unpackModFile_good :
  @unpackModFile Fixtures.stored Fixtures.good_package None
  = (Ok tt, Fixtures.at_offset Fixtures.good_package 70,
     Some (Fixtures.text "abcdxy")).
Proof. vm_compute. reflexivity. Qed.

(** ** [clean_asset_name] *)

Section StringFacts.
Implicit Types (s p q : str) (c : ascii) (P : ascii -> bool).

Lemma eqc_true a b : eqc a b = true <-> a = b.
Proof. apply Ascii.eqb_eq. Qed.

Lemma eqc_false a b : eqc a b = false <-> a <> b.
Proof. apply Ascii.eqb_neq. Qed.

Lemma eqc_sym a b : eqc a b = eqc b a.
Proof. apply Ascii.eqb_sym. Qed.

Lemma eqs_true (a b : str) : eqs a b = true <-> a = b.
Proof. unfold eqs. apply bool_decide_eq_true. Qed.

Lemma lstrip_by_suffix P s : exists pre, s = pre ++ lstrip_by P s.
Proof.
  induction s as [|c s [pre IH]]; simpl.
  - now exists [].
  - destruct (P c); [|now exists []]. exists (c :: pre). simpl. now f_equal.
Qed.

Lemma Forall_lstrip_by (Q : ascii -> Prop) P s :
  Forall Q s -> Forall Q (lstrip_by P s).
Proof.
  intros H. destruct (lstrip_by_suffix P s) as [pre Hs].
  rewrite Hs in H. now apply Forall_app in H.
Qed.

Lemma Forall_strip_by (Q : ascii -> Prop) P s :
  Forall Q s -> Forall Q (strip_by P s).
Proof.
  intros H. unfold strip_by, rstrip_by.
  apply Forall_rev, Forall_lstrip_by, Forall_rev, Forall_lstrip_by, H.
Qed.

Lemma Forall_before c s : Forall (fun x => x <> c) (before c s).
Proof.
  induction s as [|x s IH]; simpl; [constructor|].
  destruct (eqc x c) eqn:E; [constructor|].
  constructor; [now apply eqc_false | exact IH].
Qed.

Lemma contains_false c s :
  contains c s = false -> Forall (fun x => x <> c) s.
Proof.
  unfold contains. induction s as [|x s IH]; simpl; [constructor|].
  intros H. apply orb_false_iff in H as [Hx Hs].
  constructor; [|now apply IH]. apply eqc_false in Hx. congruence.
Qed.

Lemma Forall_contains c s :
  Forall (fun x => x <> c) s -> contains c s = false.
Proof.
  unfold contains. induction 1 as [|x s Hx _ IH]; simpl; [reflexivity|].
  rewrite IH, orb_false_r. apply eqc_false. congruence.
Qed.

Lemma replace_char_id a b s :
  Forall (fun x => x <> a) s -> replace_char a b s = s.
Proof.
  unfold replace_char. induction 1 as [|x s Hx _ IH]; simpl; [reflexivity|].
  apply eqc_false in Hx. now rewrite Hx, IH.
Qed.

Lemma Forall_replace_char (Q : ascii -> Prop) a b s :
  Q b -> Forall Q s -> Forall Q (replace_char a b s).
Proof.
  intros Hb. unfold replace_char.
  induction 1 as [|x s Hx _ IH]; simpl; constructor; [|exact IH].
  now destruct (eqc x a).
Qed.

Lemma replace_char_gone a b s :
  a <> b -> Forall (fun x => x <> a) (replace_char a b s).
Proof.
  intros Hab. unfold replace_char.
  induction s as [|x s IH]; simpl; constructor; [|exact IH].
  destruct (eqc x a) eqn:E; [congruence | now apply eqc_false].
Qed.

Lemma last_char_snoc s c : last_char (s ++ [c]) = Some c.
Proof.
  induction s as [|x s IH]; simpl; [reflexivity|].
  rewrite IH. now destruct s.
Qed.

Lemma last_char_Some s c : last_char s = Some c -> exists s', s = s' ++ [c].
Proof.
  induction s as [|x s IH]; simpl; [discriminate|].
  destruct s as [|y s].
  - intros [= ->]. now exists [].
  - intros H. destruct (IH H) as [s' ->]. now exists (x :: s').
Qed.

Lemma last_char_cons c s :
  last_char (c :: s) = Some (default c (last_char s)).
Proof.
  revert c. induction s as [|x s IH]; intros c; simpl; [reflexivity|].
  specialize (IH x). simpl in IH. rewrite IH. now destruct (last_char s).
Qed.

Lemma last_char_app s q :
  last_char (s ++ q) = match last_char q with
                       | Some c => Some c
                       | None => last_char s
                       end.
Proof.
  destruct (last_char q) as [c|] eqn:Hq.
  - apply last_char_Some in Hq as [q' ->].
    now rewrite app_assoc, last_char_snoc.
  - destruct q; [now rewrite app_nil_r|].
    now rewrite last_char_cons in Hq.
Qed.

Lemma lstrip_by_id P s :
  (forall c, head s = Some c -> P c = false) -> lstrip_by P s = s.
Proof.
  destruct s as [|c s]; simpl; [reflexivity|].
  intros H. now rewrite (H c eq_refl).
Qed.

Lemma rstrip_by_id P s :
  (forall c, last_char s = Some c -> P c = false) -> rstrip_by P s = s.
Proof.
  intros H. unfold rstrip_by.
  destruct (last_char s) as [c|] eqn:Hl.
  - apply last_char_Some in Hl as [s' ->].
    rewrite rev_app_distr. simpl. rewrite (H c eq_refl).
    now rewrite <- (rev_involutive s') at 2.
  - destruct s; [reflexivity|]. now rewrite last_char_cons in Hl.
Qed.

Lemma strip_by_id P s :
  (forall c, head s = Some c -> P c = false) ->
  (forall c, last_char s = Some c -> P c = false) ->
  strip_by P s = s.
Proof.
  intros Hh Hl. unfold strip_by. rewrite (lstrip_by_id P s Hh).
  now apply rstrip_by_id.
Qed.

End StringFacts.

Section SplitJoinFacts.
Implicit Types (s p q : str) (c sep : ascii) (ps : list str).

Lemma split_nonempty sep s : split sep s <> [].
Proof.
  destruct s as [|c s]; simpl; [discriminate|].
  destruct (eqc c sep); [discriminate|].
  destruct (split sep s); discriminate.
Qed.

Lemma Forall_split (Q : ascii -> Prop) sep s :
  Forall Q s -> Forall (Forall Q) (split sep s).
Proof.
  induction 1 as [|c s Hc _ IH]; simpl; [repeat constructor|].
  destruct (eqc c sep); [constructor; [constructor | exact IH]|].
  destruct (split sep s) as [|p ps]; [repeat constructor; exact Hc|].
  apply Forall_cons in IH as [Hp Hps]. repeat constructor; assumption.
Qed.

Lemma Forall_split_sep sep s :
  Forall (Forall (fun x => x <> sep)) (split sep s).
Proof.
  induction s as [|c s IH]; simpl; [repeat constructor|].
  destruct (eqc c sep) eqn:E; [constructor; [constructor | exact IH]|].
  apply eqc_false in E.
  destruct (split sep s) as [|p ps]; [repeat constructor; exact E|].
  apply Forall_cons in IH as [Hp Hps]. repeat constructor; assumption.
Qed.

Lemma join_split sep s : join [sep] (split sep s) = s.
Proof.
  induction s as [|c s IH]; simpl; [reflexivity|].
  pose proof (split_nonempty sep s) as Hne.
  destruct (eqc c sep) eqn:E.
  - apply eqc_true in E. subst c.
    destruct (split sep s) as [|p ps]; [contradiction|].
    simpl in *. now rewrite IH.
  - destruct (split sep s) as [|p ps]; [contradiction|].
    destruct ps as [|p' ps]; simpl in *; now rewrite <- IH.
Qed.

Lemma split_plain sep p :
  Forall (fun x => x <> sep) p -> split sep p = [p].
Proof.
  induction 1 as [|c p Hc _ IH]; simpl; [reflexivity|].
  apply eqc_false in Hc. now rewrite Hc, IH.
Qed.

Lemma split_app_sep sep p q :
  Forall (fun x => x <> sep) p ->
  split sep (p ++ sep :: q) = p :: split sep q.
Proof.
  induction 1 as [|c p Hc _ IH]; simpl.
  - now rewrite (proj2 (eqc_true sep sep) eq_refl).
  - apply eqc_false in Hc. now rewrite Hc, IH.
Qed.

Lemma split_join sep ps :
  ps <> [] -> Forall (Forall (fun x => x <> sep)) ps ->
  split sep (join [sep] ps) = ps.
Proof.
  intros Hne H. induction H as [|p ps Hp Hps IH]; [contradiction|].
  destruct ps as [|p' ps]; simpl.
  - now apply split_plain.
  - rewrite split_app_sep by exact Hp. f_equal. now apply IH.
Qed.

Lemma Forall_join (Q : ascii -> Prop) sep ps :
  Q sep -> Forall (Forall Q) ps -> Forall Q (join [sep] ps).
Proof.
  intros Hsep. induction 1 as [|p ps Hp Hps IH]; simpl; [constructor|].
  destruct ps as [|p' ps]; [exact Hp|].
  apply Forall_app. split; [exact Hp|]. now constructor.
Qed.

Lemma ends_ok_spec q : ends_ok q = negb (eqs q []) && last_char_ok q.
Proof.
  unfold ends_ok, last_char_ok. destruct q as [|c q]; [reflexivity|].
  rewrite last_char_cons. reflexivity.
Qed.

Lemma last_char_ok_sep p q : last_char_ok (p ++ SLASH :: q) = ends_ok q.
Proof.
  unfold last_char_ok, ends_ok. rewrite last_char_app, last_char_cons.
  now destruct (last_char q).
Qed.

Lemma ends_ok_join ps : ps <> [] -> ends_ok (join [SLASH] ps) = wt_tail ps.
Proof.
  induction ps as [|p ps IH]; [contradiction|]. intros _.
  destruct ps as [|p' ps]; [reflexivity|].
  change (join [SLASH] (p :: p' :: ps))
    with (p ++ SLASH :: join [SLASH] (p' :: ps)).
  change (wt_tail (p :: p' :: ps)) with (wt_tail (p' :: ps)).
  rewrite <- IH by discriminate.
  unfold ends_ok at 1. rewrite last_char_app, last_char_cons.
  unfold ends_ok. now destruct (last_char (join [SLASH] (p' :: ps))).
Qed.

Lemma startswith_slash_plain p q :
  Forall (fun x => x <> SLASH) p ->
  startswith [SLASH] (p ++ SLASH :: q) = eqs p [].
Proof.
  destruct 1 as [|c p Hc _]; [reflexivity|].
  change (startswith [SLASH] ((c :: p) ++ SLASH :: q))
    with (eqc SLASH c && true).
  apply eqc_false in Hc. rewrite eqc_sym, Hc.
  symmetry. now apply bool_decide_eq_false.
Qed.

Lemma startswith_slash_none p :
  Forall (fun x => x <> SLASH) p -> startswith [SLASH] p = false.
Proof.
  destruct 1 as [|c p Hc _]; [reflexivity|].
  change (startswith [SLASH] (c :: p)) with (eqc SLASH c && true).
  apply eqc_false in Hc. now rewrite eqc_sym, Hc.
Qed.

(** A joined path is well trimmed exactly when its first segment is not
    empty and its last one is neither empty nor ends with a blank; the
    path of one segment may be empty. *)
Lemma well_trimmed_join ps :
  Forall (Forall (fun x => x <> SLASH)) ps ->
  ps <> [] ->
  well_trimmed (join [SLASH] ps) = wt_parts ps.
Proof.
  intros H Hne. destruct H as [|p ps Hp Hps]; [contradiction|].
  unfold well_trimmed. destruct ps as [|p' ps].
  - change (join [SLASH] [p]) with p.
    now rewrite startswith_slash_none.
  - change (join [SLASH] (p :: p' :: ps))
      with (p ++ SLASH :: join [SLASH] (p' :: ps)).
    rewrite startswith_slash_plain, last_char_ok_sep, ends_ok_join
      by (assumption || discriminate).
    reflexivity.
Qed.

Lemma wt_parts_insert_0 ps g :
  g <> [] -> last_char_ok g = true ->
  wt_parts ps = true -> wt_parts (<[0%nat := g]> ps) = true.
Proof.
  intros Hg Hok. destruct ps as [|p [|p' ps]]; simpl; try easy.
  intros H. apply andb_true_iff in H as [_ ->].
  rewrite andb_true_r. apply negb_true_iff, not_true_is_false.
  now rewrite eqs_true.
Qed.

Lemma wt_parts_insert_2 ps a :
  a <> [] -> last_char_ok a = true ->
  wt_parts ps = true -> wt_parts (<[2%nat := a]> ps) = true.
Proof.
  intros Ha Hok. destruct ps as [|p0 [|p1 [|p2 [|p3 ps]]]]; simpl; try easy.
  intros H. apply andb_true_iff in H as [-> _]. simpl.
  rewrite ends_ok_spec, Hok, andb_true_r.
  apply negb_true_iff, not_true_is_false. now rewrite eqs_true.
Qed.

End SplitJoinFacts.

Section CleanFacts.
Context (modresolver : ModResolver).
Implicit Types (name p q : str) (ps : list str).

Lemma all_str_Some ps : all_str (map Some ps) = Ok ps.
Proof. induction ps as [|p ps IH]; simpl; [reflexivity | now rewrite IH]. Qed.

Lemma part_Some ps i : part (map Some ps) i = seg ps i.
Proof.
  unfold part, seg. revert i.
  induction ps as [|p ps IH]; intros [|i]; simpl; try reflexivity. apply IH.
Qed.

Lemma map_Some_insert ps i (a : str) :
  <[i := Some a]> (map Some ps) = map Some (<[i := a]> ps).
Proof.
  revert i. induction ps as [|p ps IH]; intros [|i]; simpl; try reflexivity.
  f_equal. apply IH.
Qed.

(** [clean_asset_name] is [canon] on the segments of the path. *)
Lemma clean_canon name :
  clean_asset_name modresolver name
  = do parts <- canon modresolver (split SLASH (path_of name));
    Ok (SLASH :: join [SLASH] parts).
Proof.
  unfold clean_asset_name. cbv zeta. fold (path_of name).
  generalize (split SLASH (path_of name)) as ps. intros ps.
  unfold canon, has_mod_id.
  rewrite !part_Some, length_map.
  destruct ((2 <? length ps)%nat && eqs (lower (seg ps 1)) (py "mods")
            && isnumeric (seg ps 2)) eqn:Hmod.
  - destruct (get_name_from_id modresolver (seg ps 2)) as [[a|]|e];
      [| |reflexivity].
    + cbn [bind]. rewrite map_Some_insert, part_Some.
      destruct (eqs (lower (seg _ 0)) _);
        rewrite ?map_Some_insert, all_str_Some; reflexivity.
    + destruct ps as [|p0 [|p1 [|p2 ps]]]; try discriminate Hmod.
      cbn [bind]. destruct (eqs (lower (part _ 0)) _); reflexivity.
  - cbn [bind]. rewrite part_Some.
    destruct (eqs (lower (seg _ 0)) _);
      rewrite ?map_Some_insert, all_str_Some; reflexivity.
Qed.

Lemma head_In (q : str) c : head q = Some c -> c ∈ q.
Proof.
  destruct q; [discriminate|]. intros [= ->]. apply list_elem_of_In. now left.
Qed.

Lemma last_char_In (q : str) c : last_char q = Some c -> c ∈ q.
Proof.
  intros H. apply last_char_Some in H as [q' ->].
  apply list_elem_of_In, in_or_app. right. now left.
Qed.

Lemma path_of_chars name :
  Forall (fun x => x <> DOT) (path_of name)
  /\ Forall (fun x => x <> BACKSLASH) (path_of name).
Proof.
  unfold path_of, strip_char, strip. split.
  - apply Forall_replace_char; [discriminate|].
    do 3 apply Forall_strip_by.
    destruct (contains DOT name) eqn:E;
      [apply Forall_before | now apply contains_false].
  - apply replace_char_gone. discriminate.
Qed.

(** A well-trimmed path without dots and backslashes, put behind a slash,
    is the path of the name so made. *)
Lemma path_of_canonical q :
  Forall (fun x => x <> DOT) q ->
  Forall (fun x => x <> BACKSLASH) q ->
  well_trimmed q = true ->
  path_of (SLASH :: q) = q.
Proof.
  intros Hdot Hbs Hwt. unfold well_trimmed, last_char_ok in Hwt.
  apply andb_true_iff in Hwt as [Hhd Hlast].
  apply negb_true_iff in Hhd.
  assert (Hlast' : forall c, last_char q = Some c ->
            is_space c = false /\ eqc SLASH c = false).
  { intros c Hc. rewrite Hc in Hlast.
    apply andb_true_iff in Hlast as [H1 H2].
    now apply negb_true_iff in H1, H2. }
  unfold path_of.
  rewrite Forall_contains by (constructor; [discriminate | exact Hdot]).
  assert (Hstrip : strip (SLASH :: q) = SLASH :: q).
  { apply strip_by_id.
    - now intros c [= <-].
    - intros c. rewrite last_char_cons. intros [= <-].
      destruct (last_char q) as [c|] eqn:Hc; [now apply Hlast'|reflexivity]. }
  rewrite Hstrip.
  assert (Hslash : strip_char SLASH (SLASH :: q) = q).
  { unfold strip_char, strip_by.
    change (lstrip_by (eqc SLASH) (SLASH :: q))
      with (lstrip_by (eqc SLASH) q).
    rewrite lstrip_by_id.
    - apply rstrip_by_id. intros c Hc. now apply Hlast'.
    - intros c Hc. destruct q as [|x q]; [discriminate|].
      injection Hc as ->.
      change (startswith [SLASH] (c :: q)) with (eqc SLASH c && true) in Hhd.
      now rewrite andb_true_r in Hhd. }
  rewrite Hslash.
  assert (Hback : strip_char BACKSLASH q = q).
  { unfold strip_char. rewrite Forall_forall in Hbs.
    apply strip_by_id; intros c Hc; apply eqc_false; intros <-.
    - now apply (Hbs _ (head_In _ _ Hc)).
    - now apply (Hbs _ (last_char_In _ _ Hc)). }
  rewrite Hback. now apply replace_char_id.
Qed.

Lemma seg_char_spec c :
  seg_char c = true <-> c <> DOT /\ c <> SLASH /\ c <> BACKSLASH.
Proof.
  unfold seg_char. rewrite !andb_true_iff, !negb_true_iff, !eqc_false.
  tauto.
Qed.

Lemma good_parts_chars (Q : ascii -> Prop) ps :
  (forall c, seg_char c = true -> Q c) ->
  Forall (Forall (fun c => seg_char c = true)) ps ->
  Forall (Forall Q) ps.
Proof.
  intros HQ H. eapply Forall_impl; [exact H|].
  intros p Hp. eapply Forall_impl; [exact Hp | exact HQ].
Qed.

(** A fixed point of [canon] gives a fixed point of [clean_asset_name]. *)
Lemma good_parts_clean ps :
  good_parts ps ->
  canon modresolver ps = Ok ps ->
  clean_asset_name modresolver (SLASH :: join [SLASH] ps)
  = Ok (SLASH :: join [SLASH] ps).
Proof.
  intros (Hne & Hch & Hwt) Hfix.
  assert (Hsl : Forall (Forall (fun x => x <> SLASH)) ps).
  { apply good_parts_chars; [|exact Hch].
    intros c Hc. now apply seg_char_spec in Hc. }
  rewrite clean_canon, path_of_canonical, split_join, Hfix;
    try assumption; try reflexivity.
  - apply Forall_join; [discriminate|].
    apply good_parts_chars; [|exact Hch].
    intros c Hc. now apply seg_char_spec in Hc.
  - apply Forall_join; [discriminate|].
    apply good_parts_chars; [|exact Hch].
    intros c Hc. now apply seg_char_spec in Hc.
  - now rewrite well_trimmed_join.
Qed.

Lemma seg_insert_eq ps i (a : str) :
  (i < length ps)%nat -> seg (<[i := a]> ps) i = a.
Proof. intros H. unfold seg. now rewrite list_lookup_insert_eq. Qed.

Lemma seg_insert_ne ps i j (a : str) :
  i <> j -> seg (<[i := a]> ps) j = seg ps j.
Proof. intros H. unfold seg. now rewrite list_lookup_insert_ne. Qed.

Lemma insert_seg_id ps i :
  (i < length ps)%nat -> <[i := seg ps i]> ps = ps.
Proof.
  intros H. unfold seg.
  destruct (ps !! i) as [p|] eqn:E; [now apply list_insert_id|].
  apply lookup_ge_None in E. lia.
Qed.

Lemma content_step_seg ps i : i <> 0%nat -> seg (content_step ps) i = seg ps i.
Proof.
  intros H. unfold content_step.
  destruct (eqs _ _); [apply seg_insert_ne; congruence | reflexivity].
Qed.

Lemma content_step_length ps : length (content_step ps) = length ps.
Proof. unfold content_step. destruct (eqs _ _); [apply length_insert|easy]. Qed.

Lemma content_step_idem ps : content_step (content_step ps) = content_step ps.
Proof.
  unfold content_step.
  destruct (eqs (lower (seg ps 0)) (py "content")) eqn:E.
  - destruct ps as [|p ps]; reflexivity.
  - now rewrite E.
Qed.

Lemma content_step_mod ps : has_mod_id (content_step ps) = has_mod_id ps.
Proof.
  unfold has_mod_id.
  now rewrite content_step_length, !content_step_seg by discriminate.
Qed.

Lemma good_parts_insert ps i a :
  (i = 0%nat \/ i = 2%nat) ->
  a <> [] -> Forall (fun c => seg_char c = true) a -> last_char_ok a = true ->
  good_parts ps -> good_parts (<[i := a]> ps).
Proof.
  intros Hi Ha Hch Hok (Hne & Hall & Hwt). repeat split.
  - intros E. apply (f_equal length) in E. rewrite length_insert in E.
    destruct ps; [contradiction | discriminate].
  - now apply Forall_insert.
  - destruct Hi as [-> | ->];
      [now apply wt_parts_insert_0 | now apply wt_parts_insert_2].
Qed.

Lemma good_parts_content ps : good_parts ps -> good_parts (content_step ps).
Proof.
  intros H. unfold content_step. destruct (eqs _ _); [|exact H].
  apply good_parts_insert; try easy; [now left|].
  repeat constructor.
Qed.

Lemma canon_plain ps :
  has_mod_id ps = false -> canon modresolver ps = Ok (content_step ps).
Proof. intros H. unfold canon. now rewrite H. Qed.

Lemma canon_alias ps a :
  has_mod_id ps = true ->
  get_name_from_id modresolver (seg ps 2) = Ok (Some a) ->
  canon modresolver ps = Ok (content_step (<[2%nat := a]> ps)).
Proof. intros H Ha. unfold canon. now rewrite H, Ha. Qed.

(** On good segments and with a stable alias, [canon] returns good
    segments that it leaves as they are. *)
Lemma canon_stable ps :
  good_parts ps ->
  (if has_mod_id ps
   then match get_name_from_id modresolver (seg ps 2) with
        | Ok (Some alias) => stable_alias modresolver alias
        | _ => false
        end
   else true) = true ->
  exists ps',
    canon modresolver ps = Ok ps'
    /\ good_parts ps'
    /\ canon modresolver ps' = Ok ps'.
Proof.
  intros Hgood Hmod. destruct (has_mod_id ps) eqn:Hid.
  - destruct (get_name_from_id modresolver (seg ps 2)) as [[a|]|e] eqn:Ha;
      try discriminate.
    unfold stable_alias in Hmod.
    apply andb_true_iff in Hmod as [Hmod Hnum].
    apply andb_true_iff in Hmod as [Hmod Hlast].
    apply andb_true_iff in Hmod as [Hnonempty Hchars].
    apply negb_true_iff in Hnonempty.
    assert (Hne : a <> []).
    { intros ->. unfold eqs in Hnonempty.
      now rewrite bool_decide_eq_false in Hnonempty. }
    assert (Hch : Forall (fun c => seg_char c = true) a).
    { apply Forall_forall. intros c Hc.
      rewrite forallb_forall in Hchars. now apply Hchars, list_elem_of_In. }
    assert (Hlen : (2 < length ps)%nat).
    { unfold has_mod_id in Hid.
      apply andb_true_iff in Hid as [Hid _].
      apply andb_true_iff in Hid as [Hid _]. now apply Nat.ltb_lt in Hid. }
    set (ps2 := <[2%nat := a]> ps).
    assert (Hgood2 : good_parts ps2)
      by (apply good_parts_insert; auto).
    exists (content_step ps2). split; [now apply canon_alias|].
    split; [now apply good_parts_content|].
    assert (Hseg2 : seg (content_step ps2) 2 = a).
    { rewrite content_step_seg by discriminate. now apply seg_insert_eq. }
    destruct (has_mod_id (content_step ps2)) eqn:Hid2.
    + assert (Hnumeric : isnumeric a = true).
      { unfold has_mod_id in Hid2. rewrite Hseg2 in Hid2.
        now apply andb_true_iff in Hid2 as [_ ?]. }
      rewrite Hnumeric in Hnum.
      destruct (get_name_from_id modresolver a) as [[a'|]|e] eqn:Ha';
        try discriminate.
      apply eqs_true in Hnum. subst a'.
      rewrite (canon_alias _ a Hid2) by (now rewrite Hseg2).
      rewrite <- Hseg2 at 1.
      rewrite insert_seg_id, content_step_idem; [reflexivity|].
      rewrite content_step_length. unfold ps2. now rewrite length_insert.
    + now rewrite canon_plain, content_step_idem.
  - exists (content_step ps). split; [now apply canon_plain|].
    split; [now apply good_parts_content|].
    rewrite canon_plain, content_step_idem; [reflexivity|].
    now rewrite content_step_mod.
Qed.

(** The segments of a well-trimmed path are good. *)
Lemma good_parts_split name :
  well_trimmed (path_of name) = true ->
  good_parts (split SLASH (path_of name)).
Proof.
  intros Hwt. destruct (path_of_chars name) as [Hdot Hbs].
  pose proof (Forall_split_sep SLASH (path_of name)) as Hsl.
  repeat split.
  - apply split_nonempty.
  - pose proof (Forall_split _ SLASH _ Hdot) as Hd.
    pose proof (Forall_split _ SLASH _ Hbs) as Hb.
    rewrite Forall_forall in *. intros p Hp.
    specialize (Hsl p Hp). specialize (Hd p Hp). specialize (Hb p Hp).
    rewrite Forall_forall in *. intros c Hc.
    apply seg_char_spec. auto.
  - rewrite <- well_trimmed_join, join_split;
      [exact Hwt | exact Hsl | apply split_nonempty].
Qed.

End CleanFacts.

(** C3. For every valid raw asset name, [clean_asset_name] returns a name
    that [clean_asset_name] returns as it is. *)
Theorem clean_asset_name_idempotent (modresolver : ModResolver) (n : str) :
  valid_raw_name modresolver n = true ->
  exists cleaned,
    clean_asset_name modresolver n = Ok cleaned
    /\ clean_asset_name modresolver cleaned = Ok cleaned.
Proof.
  unfold valid_raw_name. intros Hvalid.
  apply andb_true_iff in Hvalid as [Hwt Hmod].
  destruct (canon_stable modresolver _ (good_parts_split n Hwt) Hmod)
    as (ps' & Hcanon & Hgood & Hfix).
  exists (SLASH :: join [SLASH] ps'). split.
  - now rewrite clean_canon, Hcanon.
  - now apply good_parts_clean.
Qed.

(** Outside the valid names the second pass can differ from the first:
    slashes are stripped before backslashes, so a backslash in front of a
    slash leaves a slash at the start of the path. *)
Example clean_asset_name_mixed_separators :
  valid_raw_name Fixtures.primal_fear_managed (py "\/Game") = false
  /\ clean_asset_name Fixtures.primal_fear_managed (py "\/Game")
     = Ok (py "//Game")
  /\ clean_asset_name Fixtures.primal_fear_managed (py "//Game")
     = Ok (py "/Game").
Proof. repeat split; vm_compute; reflexivity. Qed.

Lemma clean_asset_name_idempotent_witness :
  clean_asset_name Fixtures.primal_fear_managed
    (py "\Content\Mods\839162288\Dinos\Dodo.Dodo_C")
  = Ok (py "/Game/Mods/PrimalFear/Dinos/Dodo")
  /\ clean_asset_name Fixtures.primal_fear_managed
       (py "/Game/Mods/PrimalFear/Dinos/Dodo")
     = Ok (py "/Game/Mods/PrimalFear/Dinos/Dodo").
Proof.
  destruct (clean_asset_name_idempotent Fixtures.primal_fear_managed
              (py "\Content\Mods\839162288\Dinos\Dodo.Dodo_C"))
    as (cleaned & H1 & H2); [vm_compute; reflexivity|].
  assert (Hc : cleaned = py "/Game/Mods/PrimalFear/Dinos/Dodo").
  { vm_compute in H1. now injection H1 as <-. }
  subst cleaned. split; [vm_compute; reflexivity | exact H2].
Defined.

(** ** The asset path *)

Example Path_normalises :
  Path [] = py "."
  /\ Path (py "a//b") = py "a/b"
  /\ Path (py "root") = py "root"
  /\ Path (py "/a/./b/") = py "/a/b"
  /\ Path (py "//a") = py "//a"
  /\ Path (py "///a") = py "/a"
  /\ Path (py "/") = py "/".
Proof. repeat split; reflexivity. Qed.

(** ** The loader: what a call leaves alone, and reloading *)

Section LoaderMore.
Context `{FMT : UAssetFormat}.
Implicit Types (s w u : AssetLoader) (a : UAsset) (k x prefix : str).

Lemma same_world_refl s : same_world s s.
Proof. now repeat split. Qed.

Lemma same_world_trans s w u :
  same_world s w -> same_world w u -> same_world s u.
Proof. intros (?&?&?) (?&?&?). repeat split; congruence. Qed.

Lemma load_raw_asset_exts_same s w k exts :
  same_world s w ->
  fst (load_raw_asset_exts s k exts) = fst (load_raw_asset_exts w k exts).
Proof.
  intros (Hm & Hp & Hf).
  induction exts as [|ext exts IH]; cbn [load_raw_asset_exts];
    [reflexivity|].
  rewrite Hm, Hp, Hf.
  destruct (convert_asset_name_to_path _ _ _ _) as [filename|e];
    [|reflexivity].
  destruct (files w filename); [reflexivity | exact IH].
Qed.

(** What a raw load returns depends on the resolver, the asset path and
    the files only. *)
Lemma load_raw_asset_same s w k :
  same_world s w -> fst (load_raw_asset s k) = fst (load_raw_asset w k).
Proof.
  intros Hw. unfold load_raw_asset.
  pose proof Hw as (Hm & _ & _). rewrite Hm.
  destruct (clean_asset_name _ _) as [k'|e]; [|reflexivity].
  pose proof (load_raw_asset_exts_same s w k' [py ".uasset"; py ".umap"] Hw)
    as Hx.
  destruct (load_raw_asset_exts s _ _) as [[[m|]|e] s1];
    destruct (load_raw_asset_exts w _ _) as [[[m'|]|e'] w1];
    simpl in *; try discriminate; congruence.
Qed.

Lemma load_raw_asset_world s k r s' :
  load_raw_asset s k = (r, s') ->
  same_world s s' /\ heap s' = heap s /\ cache s' = cache s.
Proof.
  intros H. apply load_raw_asset_state in H.
  destruct r; subst s'; repeat split.
Qed.

(** A full load that goes through, spelled out. *)
Lemma load_asset_full s k oid s' :
  _load_asset s k false = (Ok oid, s') ->
  exists mem t t',
    fst (load_raw_asset s k) = Ok mem
    /\ deserialise mem = Some t
    /\ link t = Some t'
    /\ oid = fresh (dom (heap s))
    /\ heap s' =
       <[oid := mkUAsset k (last_part k) (Some t') true
                         (head (default_exports t'))
                         (option_map export_klass_value
                                     (head (default_exports t')))]>
         (<[oid := mkUAsset k (last_part k) (Some t) false None None]>
            (<[oid := mkUAsset k (last_part k) None false None None]>
               (heap s)))
    /\ cache s' = <[k := oid]> (cache s)
    /\ reads s' = S (reads s)
    /\ same_world s s'.
Proof.
  unfold _load_asset.
  destruct (load_raw_asset s k) as [[mem|e] s1] eqn:Hraw; [|discriminate].
  pose proof (load_raw_asset_state _ _ _ _ Hraw) as Hs. simpl in Hs.
  subst s1. destruct (deserialise mem) as [t|] eqn:Hd; [|discriminate].
  destruct (link t) as [t'|] eqn:Hl; [|discriminate].
  intros [= <- <-]. exists mem, t, t'. simpl. repeat split; assumption.
Qed.

(** The same, the other way round. *)
Lemma load_asset_full_intro s k mem t t' :
  fst (load_raw_asset s k) = Ok mem ->
  deserialise mem = Some t ->
  link t = Some t' ->
  exists s',
    _load_asset s k false = (Ok (fresh (dom (heap s))), s')
    /\ heap s' !! fresh (dom (heap s))
       = Some (mkUAsset k (last_part k) (Some t') true
                        (head (default_exports t'))
                        (option_map export_klass_value
                                    (head (default_exports t'))))
    /\ (forall o, is_Some (heap s !! o) -> heap s' !! o = heap s !! o)
    /\ cache s' = <[k := fresh (dom (heap s))]> (cache s)
    /\ reads s' = S (reads s).
Proof.
  intros Hraw Hd Hl. unfold _load_asset.
  destruct (load_raw_asset s k) as [[mem'|e] s1] eqn:Hr;
    simpl in Hraw; [|discriminate].
  injection Hraw as ->.
  pose proof (load_raw_asset_state _ _ _ _ Hr) as Hs. simpl in Hs. subst s1.
  simpl. rewrite Hd, Hl. eexists. split; [reflexivity|]. simpl.
  repeat split.
  - apply lookup_insert_eq.
  - intros o Ho. rewrite !lookup_insert_ne; [reflexivity| | |];
      intros <-; rewrite fresh_oid_unused in Ho; now destruct Ho.
Qed.

End LoaderMore.

Section LoaderMore2.
Context `{FMT : UAssetFormat}.
Implicit Types (s w u : AssetLoader) (a : UAsset) (k x prefix : str).

Lemma load_asset_world s k doNotLink r s' :
  _load_asset s k doNotLink = (r, s') ->
  same_world s s' /\ (reads s <= reads s' <= S (reads s))%nat.
Proof.
  unfold _load_asset.
  destruct (load_raw_asset s k) as [[mem|e] s1] eqn:Hraw;
    apply load_raw_asset_state in Hraw; subst s1.
  - destruct (deserialise mem) as [t|];
      [destruct doNotLink; [|destruct (link t)]|];
      intros [= <- <-]; simpl; repeat split; lia.
  - intros [= <- <-]. repeat split; lia.
Qed.

Lemma serve_frame s (r : request) :
  same_world s (serve s r)
  /\ (reads s <= reads (serve s r) <= S (reads s))%nat
  /\ forall o, is_Some (heap s !! o) -> heap (serve s r) !! o = heap s !! o.
Proof.
  destruct r as [x|x|x| |prefix]; cbn [serve].
  - unfold __getitem__.
    destruct (clean_asset_name _ _) as [k|e];
      [|simpl; repeat split; lia].
    destruct (DictCacheManager.lookup _ _);
      [simpl; repeat split; lia|].
    destruct (_load_asset s k false) as [r s'] eqn:Hl. simpl.
    destruct (load_asset_world _ _ _ _ _ Hl) as [Hw Hr].
    apply load_asset_state in Hl as (_ & Hh & _). auto.
  - unfold partially_load_asset.
    destruct (_load_asset s x true) as [r s'] eqn:Hl. simpl.
    destruct (load_asset_world _ _ _ _ _ Hl) as [Hw Hr].
    apply load_asset_state in Hl as (_ & Hh & _). auto.
  - unfold __delitem__.
    destruct (clean_asset_name _ _) as [k|e];
      [|simpl; repeat split; lia].
    destruct (DictCacheManager.remove (cache s) k);
      simpl; repeat split; lia.
  - unfold wipe_cache, wipe_cache_with_prefix.
    destruct (DictCacheManager.wipe (cache s) []);
      simpl; repeat split; lia.
  - unfold wipe_cache_with_prefix.
    destruct (DictCacheManager.wipe (cache s) prefix);
      simpl; repeat split; lia.
Qed.

End LoaderMore2.

(** X1. No call on a loader changes an asset object that exists already,
    or the resolver, the asset path or the files; and a sequence of calls
    reads at most one file per call. *)
Theorem serve_all_frame `{UAssetFormat}
    (s : AssetLoader) (requests : list request) :
  same_world s (serve_all s requests)
  /\ (reads s <= reads (serve_all s requests)
      <= reads s + length requests)%nat
  /\ forall o, is_Some (heap s !! o) ->
       heap (serve_all s requests) !! o = heap s !! o.
Proof.
  unfold serve_all. revert s.
  induction requests as [|r requests IH]; intros s; simpl.
  - split; [apply same_world_refl|]. split; [lia | reflexivity].
  - destruct (serve_frame s r) as (Hw & Hr & Hh).
    destruct (IH (serve s r)) as (Hw' & Hr' & Hh').
    split; [eapply same_world_trans; eassumption|]. split; [lia|].
    intros o Ho. rewrite Hh'; [now apply Hh|]. now rewrite Hh.
Qed.

(** X2. After an asset has been loaded from its file, deleting its name
    from the cache makes the next retrieval load it again: one more file
    is read and a new object is returned, equal in content to the first,
    which is left as it was. *)
Theorem delitem_forces_reload `{UAssetFormat}
    (s : AssetLoader) (x k : str) (asset : nat) (s1 : AssetLoader) :
  clean_asset_name (modresolver s) x = Ok k ->
  DictCacheManager.lookup (cache s) k = None ->
  __getitem__ s x = (Ok asset, s1) ->
  exists s2 asset' s3,
    __delitem__ s1 x = (Ok tt, s2)
    /\ __getitem__ s2 x = (Ok asset', s3)
    /\ asset' <> asset
    /\ reads s3 = S (reads s1)
    /\ is_Some (heap s1 !! asset)
    /\ heap s3 !! asset' = heap s1 !! asset
    /\ heap s3 !! asset = heap s1 !! asset.
Proof.
  intros Hk Hmiss Hget. unfold __getitem__ in Hget.
  rewrite Hk, Hmiss in Hget.
  destruct (load_asset_full _ _ _ _ Hget)
    as (mem & t & t' & Hraw & Hd & Hl & Hoid & Hheap & Hcache & Hreads & Hw).
  assert (Hasset : heap s1 !! asset
            = Some (mkUAsset k (last_part k) (Some t') true
                      (head (default_exports t'))
                      (option_map export_klass_value
                                  (head (default_exports t'))))).
  { rewrite Hheap. apply lookup_insert_eq. }
  set (s2 := set_cache (delete k (cache s1)) s1).
  assert (Hw2 : same_world s s2) by exact Hw.
  assert (Hraw2 : fst (load_raw_asset s2 k) = Ok mem).
  { rewrite <- Hraw. symmetry. now apply load_raw_asset_same. }
  destruct (load_asset_full_intro s2 k mem t t' Hraw2 Hd Hl)
    as (s3 & Hload & Hnew & Hold & _ & Hreads3).
  exists s2, (fresh (dom (heap s2))), s3.
  destruct Hw as (Hm & _ & _).
  repeat split.
  - unfold __delitem__, DictCacheManager.remove,
      DictCacheManager.dict_delitem.
    rewrite <- Hm, Hk.
    destruct (cache s1 !! k) eqn:E; [reflexivity|].
    rewrite Hcache, lookup_insert_eq in E. discriminate.
  - unfold __getitem__, DictCacheManager.lookup.
    change (modresolver s2) with (modresolver s1). rewrite <- Hm, Hk.
    change (cache s2) with (delete k (cache s1)).
    rewrite lookup_delete_eq. exact Hload.
  - intros E. change (heap s2) with (heap s1) in E.
    pose proof (fresh_oid_unused (heap s1)) as Hf.
    rewrite E, Hasset in Hf. discriminate.
  - exact Hreads3.
  - now rewrite Hasset.
  - now rewrite Hnew, Hasset.
  - apply Hold. change (heap s2) with (heap s1). now rewrite Hasset.
Qed.

(** X3. A shallow load that goes through has read a file and returns an
    object that did not exist before, deserialised but not linked and
    with no default export, whether or not the name is cached; the cache
    is left as it was and, in a loader whose cache is sound, the object is
    none of the cached ones. *)
Theorem partially_load_asset_fresh `{UAssetFormat}
    (s : AssetLoader) (x : str) (asset : nat) (s' : AssetLoader) :
  partially_load_asset s x = (Ok asset, s') ->
  heap s !! asset = None
  /\ (exists a,
        heap s' !! asset = Some a
        /\ assetname a = x /\ is_Some (tables a)
        /\ linked a = false /\ default_export a = None)
  /\ reads s' = S (reads s)
  /\ cache s' = cache s
  /\ (cache_ok s ->
      forall k, DictCacheManager.lookup (cache s') k <> Some asset).
Proof.
  unfold partially_load_asset, _load_asset.
  destruct (load_raw_asset s x) as [[mem|e] s1] eqn:Hraw; [|discriminate].
  apply load_raw_asset_state in Hraw. subst s1.
  destruct (deserialise mem) as [t|]; [|discriminate].
  intros [= <- <-]. simpl.
  split; [apply fresh_oid_unused|].
  split; [eexists; split; [apply lookup_insert_eq | now repeat split]|].
  repeat split.
  intros Hok k Hk. destruct (Hok k _ Hk) as (a & Ha & _).
  now rewrite fresh_oid_unused in Ha.
Qed.

(** X4. Wiping a prefix keeps the other names served from the cache: a
    cached name that does not start with the prefix is returned
    afterwards as the same object, with no file read. A cached name that
    starts with it is loaded again when asked for: one more file is read
    and the object returned is a new one. *)
Theorem wipe_prefix_then_getitem `{UAssetFormat}
    (s : AssetLoader) (prefix x k : str) (asset : nat) :
  clean_asset_name (modresolver s) x = Ok k ->
  DictCacheManager.lookup (cache s) k = Some asset ->
  exists s',
    wipe_cache_with_prefix s prefix = (Ok tt, s')
    /\ reads s' = reads s
    /\ (startswith prefix k = false -> __getitem__ s' x = (Ok asset, s'))
    /\ (startswith prefix k = true ->
        is_Some (heap s !! asset) ->
        forall asset' s'',
          __getitem__ s' x = (Ok asset', s'') ->
          asset' <> asset /\ reads s'' = S (reads s)).
Proof.
  intros Hk Hc. unfold wipe_cache_with_prefix.
  destruct (wipe_lookup (cache s) prefix) as (c & -> & Hl).
  eexists. split; [reflexivity|]. split; [reflexivity|].
  unfold __getitem__, DictCacheManager.lookup in *. simpl.
  rewrite Hk, Hl. split; intros ->; [now rewrite Hc|].
  intros Hsome asset' s'' Hload.
  destruct (load_asset_full _ _ _ _ Hload)
    as (_ & _ & _ & _ & _ & _ & Hoid & _ & _ & Hreads & _).
  simpl in Hoid, Hreads. split; [|exact Hreads].
  intros ->. rewrite Hoid, fresh_oid_unused in Hsome. now destruct Hsome.
Qed.

(** X5. When the canonical name has no file under either extension, a
    retrieval raises [AssetNotFound] with that name and leaves the loader
    as it was: nothing is read, made or cached. *)
Theorem getitem_missing_file `{UAssetFormat}
    (s : AssetLoader) (x k uasset umap : str) :
  clean_asset_name (modresolver s) x = Ok k ->
  clean_asset_name (modresolver s) k = Ok k ->
  DictCacheManager.lookup (cache s) k = None ->
  convert_asset_name_to_path (modresolver s) (asset_path s) k (py ".uasset")
  = Ok uasset ->
  convert_asset_name_to_path (modresolver s) (asset_path s) k (py ".umap")
  = Ok umap ->
  files s uasset = None ->
  files s umap = None ->
  __getitem__ s x = (Raise (AssetNotFound k), s).
Proof.
  intros Hx Hk Hc Hp1 Hp2 Hf1 Hf2.
  unfold __getitem__, _load_asset, load_raw_asset. rewrite Hx, Hc, Hk.
  cbn [load_raw_asset_exts]. now rewrite Hp1, Hf1, Hp2, Hf2.
Qed.

Lemma serve_all_frame_witness :
  let s := Fixtures.toy_loader in
  let requests := [Retrieve (py "/Game/Dodo"); Retrieve (py "/Game/Empty");
                   Retrieve (py "/Game/Dodo"); Wipe] in
  (reads (serve_all s requests) <= 4)%nat
  /\ heap (serve_all s (Retrieve (py "/Game/Dodo") :: requests)) !! 0%nat
     = heap (serve_all s [Retrieve (py "/Game/Dodo")]) !! 0%nat.
Proof.
  intros s requests. split.
  - apply (proj1 (proj2 (serve_all_frame s requests))).
  - apply (proj2 (proj2 (serve_all_frame
                           (serve_all s [Retrieve (py "/Game/Dodo")])
                           requests))).
    vm_compute. eauto.
Defined.

Lemma delitem_forces_reload_witness :
  let x := py "Content\Dodo.Dodo_C" in
  let s1 := snd (__getitem__ Fixtures.toy_loader x) in
  exists s2 s3,
    __delitem__ s1 x = (Ok tt, s2)
    /\ __getitem__ s2 x = (Ok 1%nat, s3)
    /\ reads s3 = 2%nat.
Proof.
  intros x s1.
  destruct (delitem_forces_reload Fixtures.toy_loader x (py "/Game/Dodo")
              0%nat s1)
    as (s2 & asset' & s3 & Hd & Hg & _ & Hr & _);
    try (vm_compute; reflexivity).
  exists s2, s3. split; [exact Hd|].
  assert (Hs2 : s2 = snd (__delitem__ s1 x)) by now rewrite Hd.
  assert (Ha : asset' = 1%nat).
  { assert (E : fst (__getitem__ s2 x) = Ok asset') by now rewrite Hg.
    rewrite Hs2 in E. vm_compute in E. now injection E. }
  subst asset'. split; [exact Hg | exact Hr].
Defined.

Lemma partially_load_asset_fresh_witness :
  let s1 := snd (__getitem__ Fixtures.toy_loader (py "/Game/Dodo")) in
  reads (snd (partially_load_asset s1 (py "/Game/Dodo"))) = 2%nat
  /\ cache (snd (partially_load_asset s1 (py "/Game/Dodo"))) = cache s1.
Proof.
  intros s1.
  destruct (partially_load_asset_fresh s1 (py "/Game/Dodo") 1%nat
              (snd (partially_load_asset s1 (py "/Game/Dodo"))))
    as (_ & _ & Hr & Hc & _); [vm_compute; reflexivity|].
  split; [exact Hr | exact Hc].
Defined.

Lemma wipe_prefix_then_getitem_witness :
  let s1 := snd (__getitem__ Fixtures.toy_loader (py "/Game/Dodo")) in
  exists s',
    wipe_cache_with_prefix s1 (py "/Game/Mods/") = (Ok tt, s')
    /\ __getitem__ s' (py "/Game/Dodo") = (Ok 0%nat, s').
Proof.
  intros s1.
  destruct (wipe_prefix_then_getitem s1 (py "/Game/Mods/") (py "/Game/Dodo")
              (py "/Game/Dodo") 0%nat)
    as (s' & Hw & _ & Hkeep & _); try (vm_compute; reflexivity).
  exists s'. split; [exact Hw|]. apply Hkeep. reflexivity.
Defined.

Lemma getitem_missing_file_witness :
  __getitem__ Fixtures.toy_loader (py "Content/Rex.Rex_C")
  = (Raise (AssetNotFound (py "/Game/Rex")), Fixtures.toy_loader).
Proof.
  apply (getitem_missing_file Fixtures.toy_loader (py "Content/Rex.Rex_C")
           (py "/Game/Rex") (py "root/Content/Rex.uasset")
           (py "root/Content/Rex.umap"));
    vm_compute; reflexivity.
Defined.

(** ** The resolvers: registered pairs *)

Section DictFacts.
Context {V : Type}.
Implicit Types (l : list (str * V)) (k : str) (v : V).

Lemma dict_of_pairs_snoc l k v :
  dict_of_pairs (l ++ [(k, v)]) = <[k := v]> (dict_of_pairs l).
Proof. unfold dict_of_pairs. now rewrite foldl_app. Qed.

(** What [dict(pairs)] holds under a key is the value of a pair. *)
Lemma dict_of_pairs_Some l k v :
  dict_of_pairs l !! k = Some v -> (k, v) ∈ l.
Proof.
  induction l as [|[k' v'] l IH] using rev_ind.
  - unfold dict_of_pairs. simpl. now rewrite lookup_empty.
  - rewrite dict_of_pairs_snoc, elem_of_app, list_elem_of_singleton.
    destruct (decide (k' = k)) as [->|Hne].
    + rewrite lookup_insert_eq. intros [= ->]. now right.
    + rewrite lookup_insert_ne by exact Hne. auto.
Qed.

Lemma dict_of_pairs_None l k :
  dict_of_pairs l !! k = None <-> k ∉ map fst l.
Proof.
  induction l as [|[k' v'] l IH] using rev_ind.
  - unfold dict_of_pairs. simpl. rewrite lookup_empty.
    split; [intros _ H; inversion H | reflexivity].
  - rewrite dict_of_pairs_snoc, map_app. simpl.
    rewrite elem_of_app, list_elem_of_singleton.
    destruct (decide (k' = k)) as [->|Hne].
    + rewrite lookup_insert_eq. split; [discriminate | tauto].
    + rewrite lookup_insert_ne by exact Hne. rewrite IH.
      split; [intros H [?|?]; [tauto | congruence] | tauto].
Qed.

(** With keys that are all different, every pair is found. *)
Lemma dict_of_pairs_NoDup l k v :
  NoDup (map fst l) -> (k, v) ∈ l -> dict_of_pairs l !! k = Some v.
Proof.
  induction l as [|[k' v'] l IH] using rev_ind; [intros _ H; inversion H|].
  rewrite map_app, dict_of_pairs_snoc, elem_of_app, list_elem_of_singleton.
  simpl. intros Hnd. apply NoDup_app in Hnd as (Hl & Hk' & _).
  intros [Hin | [= -> ->]]; [|apply lookup_insert_eq].
  rewrite lookup_insert_ne; [now apply IH|].
  intros ->. apply (Hk' k); [|now left].
  change (map fst l) with (fst <$> l).
  apply list_elem_of_fmap. now exists (k, v).
Qed.

End DictFacts.

(** X6. The resolver over a fixed map: an id that has a name is the id
    of that name; and with ids that are all different, every pair of the
    map resolves both ways. *)
Theorem FixedModResolver_round_trip (items : list (str * str)) :
  NoDup (map fst items) ->
  (forall modid name,
     get_name_from_id (FixedModResolver_init items) modid = Ok (Some name) ->
     get_id_from_name (FixedModResolver_init items) name = Ok (Some modid))
  /\ (NoDup (map snd items) ->
      forall name modid,
        (name, modid) ∈ items ->
        get_id_from_name (FixedModResolver_init items) name = Ok (Some modid)
        /\ get_name_from_id (FixedModResolver_init items) modid
           = Ok (Some name)).
Proof.
  intros Hnames. unfold FixedModResolver_init. simpl.
  assert (Hswap : forall name modid,
            (modid, name) ∈ map (fun kv => (snd kv, fst kv)) items
            <-> (name, modid) ∈ items).
  { intros name modid.
    change (map (fun kv => (snd kv, fst kv)) items)
      with ((fun kv : str * str => (snd kv, fst kv)) <$> items).
    rewrite list_elem_of_fmap. split.
    - intros [[n i] [[= -> ->] Hin]]. exact Hin.
    - intros Hin. now exists (name, modid). }
  split.
  - intros modid name.
    destruct (dict_of_pairs (map _ items) !! modid) as [n|] eqn:E;
      [|discriminate].
    intros [= ->]. apply dict_of_pairs_Some, Hswap in E.
    now rewrite (dict_of_pairs_NoDup _ _ _ Hnames E).
  - intros Hids name modid Hin.
    rewrite (dict_of_pairs_NoDup _ _ _ Hnames Hin).
    rewrite (dict_of_pairs_NoDup _ modid name); [now split| |now apply Hswap].
    now rewrite map_map.
Qed.

(** X7. The resolver read from [mods.ini]: with ids that are all different
    and names that are all different whatever their case, every
    registered id gives its name, and the name, in any case, gives the
    id. *)
Theorem IniModResolver_round_trip (ids : list (str * str)) :
  NoDup (map fst ids) ->
  NoDup (map (fun kv => lower (snd kv)) ids) ->
  forall modid name,
    (modid, name) ∈ ids ->
    get_name_from_id (IniModResolver_initialise ids) modid = Ok (Some name)
    /\ forall spelled,
         lower spelled = lower name ->
         get_id_from_name (IniModResolver_initialise ids) spelled
         = Ok (Some modid).
Proof.
  intros Hids Hnames modid name Hin. unfold IniModResolver_initialise. simpl.
  split; [now rewrite (dict_of_pairs_NoDup _ _ _ Hids Hin)|].
  intros spelled ->.
  rewrite (dict_of_pairs_NoDup _ (lower name) modid); [reflexivity| |].
  - now rewrite map_map.
  - change (map (fun kv => (lower (snd kv), fst kv)) ids)
      with ((fun kv : str * str => (lower (snd kv), fst kv)) <$> ids).
    apply list_elem_of_fmap. now exists (modid, name).
Qed.

(** The registrations of a managed resolver: the installed mods, then the
    official ones. *)
Lemma ManagedModResolver_tables installed official :
  ManagedModResolver_initialise installed official
  = ManagedModResolver
      (dict_of_pairs (managed_data installed official))
      (dict_of_pairs (map (fun kv => (lower (md_name (snd kv)),
                                      md_id (snd kv)))
                          (managed_data installed official))).
Proof.
  unfold ManagedModResolver_initialise, managed_data.
  rewrite map_app, map_map. unfold dict_of_pairs at 3 4.
  rewrite !foldl_app. fold (dict_of_pairs installed).
  fold (dict_of_pairs
          (map (fun kv => (lower (md_name (snd kv)), md_id (snd kv)))
               installed)).
  generalize (dict_of_pairs installed) as dc.
  generalize (dict_of_pairs
                (map (fun kv : str * ModData =>
                        (lower (md_name (snd kv)), md_id (snd kv)))
                     installed)) as n2i.
  induction official as [|[modid tag] official IH]; intros n2i dc;
    [reflexivity|].
  simpl. apply IH.
Qed.

(** X8. The managed resolver: when the ids of the installed and the
    official mods are all different and not empty, their names all
    different whatever their case, and every installed mod is recorded
    under its own id, every registered id gives its name, and the name, in
    any case, gives the id. *)
Theorem ManagedModResolver_round_trip
    (installed : list (str * ModData)) (official : list (str * str)) :
  let data := managed_data installed official in
  NoDup (map fst data) ->
  NoDup (map (fun kv => lower (md_name (snd kv))) data) ->
  Forall (fun kv => md_id (snd kv) = fst kv /\ fst kv <> []) installed ->
  Forall (fun kv => fst kv <> []) official ->
  forall modid d,
    (modid, d) ∈ data ->
    get_name_from_id (ManagedModResolver_initialise installed official) modid
    = Ok (Some (md_name d))
    /\ forall spelled,
         lower spelled = lower (md_name d) ->
         get_id_from_name (ManagedModResolver_initialise installed official)
                          spelled
         = Ok (Some modid).
Proof.
  intros data Hids Hnames Hinst Hoff modid d Hin.
  rewrite ManagedModResolver_tables. fold data. simpl.
  rewrite (dict_of_pairs_NoDup _ _ _ Hids Hin).
  split; [reflexivity|]. intros spelled ->.
  assert (Hid : md_id d = modid /\ modid <> []).
  { unfold data, managed_data in Hin. apply elem_of_app in Hin as [Hin|Hin].
    - rewrite Forall_forall in Hinst. apply (Hinst _ Hin).
    - change (map ?f official) with (f <$> official) in Hin.
      apply list_elem_of_fmap in Hin as [[i t] [[= -> ->] Hin]].
      rewrite Forall_forall in Hoff. split; [reflexivity|].
      apply (Hoff _ Hin). }
  destruct Hid as [Hid Hne].
  rewrite (dict_of_pairs_NoDup _ (lower (md_name d)) modid).
  - destruct modid; [contradiction | reflexivity].
  - now rewrite map_map.
  - change (map ?f data) with (f <$> data).
    apply list_elem_of_fmap. exists (modid, d). simpl. now rewrite Hid.
Qed.

Lemma FixedModResolver_round_trip_witness :
  get_id_from_name Fixtures.primal_fear_fixed (py "PrimalFear")
  = Ok (Some (py "839162288"))
  /\ get_name_from_id Fixtures.primal_fear_fixed (py "839162288")
     = Ok (Some (py "PrimalFear")).
Proof.
  refine (proj2 (FixedModResolver_round_trip
                   [(py "PrimalFear", py "839162288")] _) _ _ _ _).
  - repeat constructor. intros H. inversion H.
  - repeat constructor. intros H. inversion H.
  - left.
Defined.

Lemma IniModResolver_round_trip_witness :
  get_name_from_id Fixtures.primal_fear_ini (py "839162288")
  = Ok (Some (py "PrimalFear"))
  /\ get_id_from_name Fixtures.primal_fear_ini (py "PRIMALFEAR")
     = Ok (Some (py "839162288")).
Proof.
  destruct (IniModResolver_round_trip [(py "839162288", py "PrimalFear")])
    with (modid := py "839162288") (name := py "PrimalFear") as [H1 H2].
  - repeat constructor. intros H. inversion H.
  - repeat constructor. intros H. inversion H.
  - left.
  - split; [exact H1 | apply H2; reflexivity].
Defined.

Lemma ManagedModResolver_round_trip_witness :
  let R := ManagedModResolver_initialise Fixtures.two_mods
                                         Fixtures.one_official in
  get_name_from_id R (py "893735676") = Ok (Some (py "AE"))
  /\ get_id_from_name R (py "ae") = Ok (Some (py "893735676"))
  /\ get_id_from_name R (py "RAGNAROK") = Ok (Some (py "111111111")).
Proof.
  intros R.
  assert (Hids : NoDup (map fst (managed_data Fixtures.two_mods
                                              Fixtures.one_official))).
  { apply NoDup_ListNoDup. vm_compute.
    repeat (constructor; [simpl; intuition discriminate|]). constructor. }
  assert (Hnames : NoDup (map (fun kv => lower (md_name (snd kv)))
                              (managed_data Fixtures.two_mods
                                            Fixtures.one_official))).
  { apply NoDup_ListNoDup. vm_compute.
    repeat (constructor; [simpl; intuition discriminate|]). constructor. }
  assert (Hinst : Forall (fun kv => md_id (snd kv) = fst kv /\ fst kv <> [])
                         Fixtures.two_mods).
  { repeat constructor; discriminate. }
  assert (Hoff : Forall (fun kv : str * str => fst kv <> [])
                        Fixtures.one_official).
  { repeat constructor; discriminate. }
  pose proof (ManagedModResolver_round_trip Fixtures.two_mods
                Fixtures.one_official Hids Hnames Hinst Hoff) as Hrt.
  destruct (Hrt (py "893735676")
                (mkModData (py "893735676") (py "AE") false)) as [H1 H2].
  { apply list_elem_of_In. right. left. reflexivity. }
  destruct (Hrt (py "111111111")
                (mkModData (py "111111111") (py "Ragnarok") true))
    as [_ H3].
  { apply list_elem_of_In. right. right. left. reflexivity. }
  split; [exact H1|].
  split; [apply H2 | apply H3]; reflexivity.
Defined.

(** ** Canonical names, mod segments and paths *)

Section CleanMore.
Context (modresolver : ModResolver).
Implicit Types (name p q : str) (ps rest : list str).

Lemma strip_slash_canonical q :
  well_trimmed q = true -> strip_char SLASH (SLASH :: q) = q.
Proof.
  intros Hwt. unfold well_trimmed, last_char_ok in Hwt.
  apply andb_true_iff in Hwt as [Hhd Hlast].
  apply negb_true_iff in Hhd.
  unfold strip_char, strip_by.
  change (lstrip_by (eqc SLASH) (SLASH :: q)) with (lstrip_by (eqc SLASH) q).
  rewrite lstrip_by_id.
  - apply rstrip_by_id. intros c Hc. rewrite Hc in Hlast.
    apply andb_true_iff in Hlast as [_ H2]. now apply negb_true_iff in H2.
  - intros c Hc. destruct q as [|x q]; [discriminate|].
    injection Hc as ->.
    change (startswith [SLASH] (c :: q)) with (eqc SLASH c && true) in Hhd.
    now rewrite andb_true_r in Hhd.
Qed.

Lemma good_parts_join ps :
  good_parts ps ->
  Forall (fun x => x <> DOT) (join [SLASH] ps)
  /\ Forall (fun x => x <> BACKSLASH) (join [SLASH] ps)
  /\ Forall (Forall (fun x => x <> SLASH)) ps
  /\ well_trimmed (join [SLASH] ps) = true.
Proof.
  intros (Hne & Hch & Hwt).
  assert (Hsl : Forall (Forall (fun x => x <> SLASH)) ps).
  { apply good_parts_chars; [|exact Hch].
    intros c Hc. now apply seg_char_spec in Hc. }
  repeat split; [| |exact Hsl|now rewrite well_trimmed_join].
  - apply Forall_join; [discriminate|].
    apply good_parts_chars; [|exact Hch].
    intros c Hc. now apply seg_char_spec in Hc.
  - apply Forall_join; [discriminate|].
    apply good_parts_chars; [|exact Hch].
    intros c Hc. now apply seg_char_spec in Hc.
Qed.

(** Cleaning the name made of good segments is [canon] on them. *)
Lemma clean_good_parts ps :
  good_parts ps ->
  clean_asset_name modresolver (SLASH :: join [SLASH] ps)
  = do ps' <- canon modresolver ps; Ok (SLASH :: join [SLASH] ps').
Proof.
  intros Hgood. destruct (good_parts_join ps Hgood) as (Hd & Hb & Hs & Hw).
  destruct Hgood as (Hne & _ & _).
  now rewrite clean_canon, path_of_canonical, split_join.
Qed.

(** The segments of the name made of good segments. *)
Lemma parts_of_good ps :
  good_parts ps ->
  split SLASH (strip_char SLASH (SLASH :: join [SLASH] ps)) = ps.
Proof.
  intros Hgood. destruct (good_parts_join ps Hgood) as (_ & _ & Hs & Hw).
  destruct Hgood as (Hne & _ & _).
  now rewrite strip_slash_canonical, split_join.
Qed.

Lemma content_step_cons root rest :
  content_step (root :: rest) = game_for_content root :: rest.
Proof.
  unfold content_step, game_for_content.
  change (seg (root :: rest) 0) with root. now destruct (eqs _ _).
Qed.

Lemma stable_alias_parts alias :
  stable_alias modresolver alias = true ->
  alias <> []
  /\ Forall (fun c => seg_char c = true) alias
  /\ last_char_ok alias = true
  /\ (isnumeric alias = true ->
      get_name_from_id modresolver alias = Ok (Some alias)).
Proof.
  unfold stable_alias. intros H.
  apply andb_true_iff in H as [H Hnum].
  apply andb_true_iff in H as [H Hlast].
  apply andb_true_iff in H as [Hne Hch].
  apply negb_true_iff in Hne. repeat split.
  - intros ->. unfold eqs in Hne.
    now rewrite bool_decide_eq_false in Hne.
  - apply Forall_forall. intros c Hc.
    rewrite forallb_forall in Hch. now apply Hch, list_elem_of_In.
  - exact Hlast.
  - intros Hn. rewrite Hn in Hnum.
    destruct (get_name_from_id modresolver alias) as [[a|]|e];
      try discriminate.
    apply eqs_true in Hnum. now subst a.
Qed.

(** [canon] on a mod path written with the id, and with the alias. *)
Lemma canon_mod_path root mods modid alias rest :
  lower mods = py "mods" ->
  isnumeric modid = true ->
  get_name_from_id modresolver modid = Ok (Some alias) ->
  stable_alias modresolver alias = true ->
  canon modresolver (root :: mods :: modid :: rest)
  = Ok (game_for_content root :: mods :: alias :: rest)
  /\ canon modresolver (root :: mods :: alias :: rest)
     = Ok (game_for_content root :: mods :: alias :: rest).
Proof.
  intros Hmods Hnum Halias Hstable.
  destruct (stable_alias_parts alias Hstable) as (_ & _ & _ & Hfix).
  assert (Hid : forall m, has_mod_id (root :: mods :: m :: rest)
                          = isnumeric m).
  { intros m. unfold has_mod_id.
    change (seg (root :: mods :: m :: rest) 1) with mods.
    change (seg (root :: mods :: m :: rest) 2) with m.
    rewrite Hmods. destruct (isnumeric m); reflexivity. }
  split.
  - rewrite (canon_alias _ _ alias); [|now rewrite Hid|exact Halias].
    change (<[2%nat := alias]> (root :: mods :: modid :: rest))
      with (root :: mods :: alias :: rest).
    now rewrite content_step_cons.
  - destruct (isnumeric alias) eqn:Hn.
    + rewrite (canon_alias _ _ alias);
        [|now rewrite Hid|now apply Hfix].
      change (<[2%nat := alias]> (root :: mods :: alias :: rest))
        with (root :: mods :: alias :: rest).
      now rewrite content_step_cons.
    + rewrite canon_plain by (now rewrite Hid).
      now rewrite content_step_cons.
Qed.

Lemma good_parts_alias root mods modid alias rest :
  good_parts (root :: mods :: modid :: rest) ->
  stable_alias modresolver alias = true ->
  good_parts (root :: mods :: alias :: rest).
Proof.
  intros Hgood Hstable.
  destruct (stable_alias_parts alias Hstable) as (Hne & Hch & Hlast & _).
  change (root :: mods :: alias :: rest)
    with (<[2%nat := alias]> (root :: mods :: modid :: rest)).
  apply good_parts_insert; auto.
Qed.

End CleanMore.

(** X9. A mod path written with the id of a mod and the same path written
    with the alias of that id clean to the same canonical name, the one
    with the alias, and so name the same file. *)
Theorem clean_id_or_alias (modresolver : ModResolver)
    (root mods modid alias : str) (rest : list str) :
  good_parts (root :: mods :: modid :: rest) ->
  lower mods = py "mods" ->
  isnumeric modid = true ->
  get_name_from_id modresolver modid = Ok (Some alias) ->
  stable_alias modresolver alias = true ->
  let by_id := SLASH :: join [SLASH] (root :: mods :: modid :: rest) in
  let by_alias := SLASH :: join [SLASH] (root :: mods :: alias :: rest) in
  clean_asset_name modresolver by_id
  = Ok (SLASH :: join [SLASH]
                   (game_for_content root :: mods :: alias :: rest))
  /\ clean_asset_name modresolver by_alias
     = clean_asset_name modresolver by_id
  /\ forall asset_path ext,
       convert_asset_name_to_path modresolver asset_path by_alias ext
       = convert_asset_name_to_path modresolver asset_path by_id ext.
Proof.
  intros Hgood Hmods Hnum Halias Hstable by_id by_alias.
  destruct (canon_mod_path modresolver root mods modid alias rest
              Hmods Hnum Halias Hstable) as [Hc1 Hc2].
  assert (H1 : clean_asset_name modresolver by_id
               = Ok (SLASH :: join [SLASH]
                       (game_for_content root :: mods :: alias :: rest))).
  { unfold by_id. now rewrite clean_good_parts, Hc1. }
  assert (H2 : clean_asset_name modresolver by_alias
               = clean_asset_name modresolver by_id).
  { rewrite H1. unfold by_alias.
    rewrite clean_good_parts, Hc2; [reflexivity|].
    now apply (good_parts_alias modresolver root mods modid). }
  split; [exact H1|]. split; [exact H2|].
  intros asset_path ext. unfold convert_asset_name_to_path. now rewrite H2.
Qed.

Section ModSegment.
Context (modresolver : ModResolver).
Implicit Types (name p q : str) (ps rest : list str).

Lemma mod_parts_of root mods alias rest :
  good_parts (root :: mods :: alias :: rest) ->
  split SLASH
    (strip_char SLASH
       (SLASH :: join [SLASH]
                   (game_for_content root :: mods :: alias :: rest)))
  = game_for_content root :: mods :: alias :: rest.
Proof.
  intros Hgood. apply parts_of_good.
  rewrite <- content_step_cons. now apply good_parts_content.
Qed.

End ModSegment.

(** X10. For a path under [Game/Mods] (or [Content/Mods]) written with the
    id of a mod or with the alias of that id, [get_mod_name] returns the
    alias, and [get_mod_id] returns the alias itself when it is numeric
    and what [get_id_from_name] makes of it otherwise. *)
Theorem get_mod_of_mod_path (modresolver : ModResolver)
    (root mods modid alias : str) (rest : list str) :
  good_parts (root :: mods :: modid :: rest) ->
  lower (game_for_content root) = py "game" ->
  lower mods = py "mods" ->
  isnumeric modid = true ->
  get_name_from_id modresolver modid = Ok (Some alias) ->
  stable_alias modresolver alias = true ->
  let by_id := SLASH :: join [SLASH] (root :: mods :: modid :: rest) in
  let by_alias := SLASH :: join [SLASH] (root :: mods :: alias :: rest) in
  get_mod_name modresolver by_id = Ok (Some alias)
  /\ get_mod_name modresolver by_alias = Ok (Some alias)
  /\ get_mod_id modresolver by_id
     = (if isnumeric alias then Ok (Some alias)
        else get_id_from_name modresolver alias)
  /\ get_mod_id modresolver by_alias = get_mod_id modresolver by_id.
Proof.
  intros Hgood Hroot Hmods Hnum Halias Hstable by_id by_alias.
  destruct (clean_id_or_alias modresolver root mods modid alias rest
              Hgood Hmods Hnum Halias Hstable) as (H1 & H2 & _).
  fold by_id in H1, H2. fold by_alias in H2.
  pose proof (good_parts_alias modresolver root mods modid alias rest
                Hgood Hstable) as Hgood'.
  pose proof (mod_parts_of root mods alias rest Hgood') as Hparts.
  destruct (stable_alias_parts modresolver alias Hstable)
    as (_ & _ & _ & Hfix).
  assert (Hname : get_mod_name modresolver by_id = Ok (Some alias)).
  { unfold get_mod_name. rewrite H1. cbn [bind]. rewrite Hparts.
    change (seg (_ :: mods :: alias :: rest) 0) with (game_for_content root).
    change (seg (game_for_content root :: mods :: alias :: rest) 1)
      with mods.
    change (seg (game_for_content root :: mods :: alias :: rest) 2)
      with alias.
    rewrite Hroot, Hmods.
    destruct (isnumeric alias) eqn:Hn; [now apply Hfix | reflexivity]. }
  assert (Hid : get_mod_id modresolver by_id
                = (if isnumeric alias then Ok (Some alias)
                   else get_id_from_name modresolver alias)).
  { unfold get_mod_id. rewrite H1. cbn [bind]. rewrite Hparts.
    change (seg (_ :: mods :: alias :: rest) 0) with (game_for_content root).
    change (seg (game_for_content root :: mods :: alias :: rest) 1)
      with mods.
    change (seg (game_for_content root :: mods :: alias :: rest) 2)
      with alias.
    rewrite Hroot, Hmods. now destruct (isnumeric alias). }
  split; [exact Hname|]. split; [|split; [exact Hid|]].
  - unfold get_mod_name in *. now rewrite H2.
  - unfold get_mod_id in *. now rewrite H2.
Qed.

(** X11. For a canonical name that is not under [Game/Mods], with fewer than
    three segments or other first two segments, [get_mod_name] and
    [get_mod_id] return [None]. *)
Theorem get_mod_of_core_path (modresolver : ModResolver) (ps : list str) :
  good_parts ps ->
  canon modresolver ps = Ok ps ->
  (length ps < 3)%nat
  \/ lower (seg ps 0) <> py "game" \/ lower (seg ps 1) <> py "mods" ->
  get_mod_name modresolver (SLASH :: join [SLASH] ps) = Ok None
  /\ get_mod_id modresolver (SLASH :: join [SLASH] ps) = Ok None.
Proof.
  intros Hgood Hcanon Hcore.
  assert (Htest : (length ps <? 3)%nat
                  || (negb (eqs (lower (seg ps 0)) (py "game"))
                      || negb (eqs (lower (seg ps 1)) (py "mods"))) = true).
  { destruct Hcore as [Hlen | [Hg | Hm]].
    - apply Nat.ltb_lt in Hlen. now rewrite Hlen.
    - apply orb_true_iff. right. apply orb_true_iff. left.
      apply negb_true_iff, not_true_is_false. now rewrite eqs_true.
    - apply orb_true_iff. right. apply orb_true_iff. right.
      apply negb_true_iff, not_true_is_false. now rewrite eqs_true. }
  unfold get_mod_name, get_mod_id.
  rewrite clean_good_parts, Hcanon by exact Hgood. cbn [bind].
  rewrite parts_of_good by exact Hgood.
  destruct (length ps <? 3)%nat; [now split|].
  rewrite orb_false_l in Htest. now rewrite Htest.
Qed.

(** ** Names and paths *)

Section PathFacts.
Implicit Types (root p q : str) (ps rest : list str).

Lemma endswith_char_last c q :
  endswith_char c q = match last_char q with
                      | Some x => eqc x c
                      | None => false
                      end.
Proof.
  unfold endswith_char. destruct (last_char q) as [x|] eqn:Hl.
  - apply last_char_Some in Hl as [q' ->].
    now rewrite rev_app_distr.
  - destruct q; [reflexivity|]. now rewrite last_char_cons in Hl.
Qed.

Lemma with_sep_app root p :
  p <> [] -> Forall (fun x => x <> SLASH) p ->
  with_sep (root ++ p) = root ++ p ++ [SLASH].
Proof.
  intros Hne Hp. unfold with_sep.
  replace (eqs (root ++ p) []) with false.
  - rewrite endswith_char_last, last_char_app.
    destruct (last_char p) as [x|] eqn:Hl.
    + rewrite Forall_forall in Hp.
      pose proof (Hp x (last_char_In _ _ Hl)) as Hx.
      apply eqc_false in Hx. rewrite Hx. simpl. now rewrite app_assoc.
    + destruct p; [contradiction|]. now rewrite last_char_cons in Hl.
  - symmetry. apply bool_decide_eq_false.
    intros E. apply app_eq_nil in E as [_ E]. contradiction.
Qed.

(** [posixpath.join] on segments that are not empty and hold no slash. *)
Lemma os_path_join_plain ps : forall root,
  ps <> [] ->
  Forall (fun p => p <> [] /\ Forall (fun x => x <> SLASH) p) ps ->
  os_path_join root ps = with_sep root ++ join [SLASH] ps.
Proof.
  unfold os_path_join.
  induction ps as [|p ps IH]; intros root Hne Hall; [contradiction|].
  apply Forall_cons in Hall as [[Hp Hsl] Hall].
  cbn [foldl]. rewrite startswith_slash_none by exact Hsl.
  assert (Hstep : (if eqs root [] || endswith_char SLASH root
                   then root ++ p else root ++ [SLASH] ++ p)
                  = with_sep root ++ p).
  { unfold with_sep. destruct (_ || _); [reflexivity|].
    now rewrite <- app_assoc. }
  rewrite Hstep. destruct ps as [|p' ps]; [reflexivity|].
  rewrite IH by (discriminate || assumption).
  rewrite with_sep_app by assumption.
  change (join [SLASH] (p :: p' :: ps))
    with (p ++ [SLASH] ++ join [SLASH] (p' :: ps)).
  now rewrite <- !app_assoc.
Qed.

(** A trimmed path without dots and backslashes is its own path. *)
Lemma path_of_trimmed q :
  Forall (fun x => x <> DOT) q ->
  Forall (fun x => x <> BACKSLASH) q ->
  well_trimmed q = true ->
  (forall c, head q = Some c -> is_space c = false) ->
  path_of q = q.
Proof.
  intros Hdot Hbs Hwt Hhead. unfold well_trimmed, last_char_ok in Hwt.
  apply andb_true_iff in Hwt as [Hhd Hlast].
  apply negb_true_iff in Hhd.
  assert (Hlast' : forall c, last_char q = Some c ->
            is_space c = false /\ eqc SLASH c = false).
  { intros c Hc. rewrite Hc in Hlast.
    apply andb_true_iff in Hlast as [H1 H2].
    now apply negb_true_iff in H1, H2. }
  unfold path_of. rewrite Forall_contains by exact Hdot.
  assert (Hstrip : strip q = q).
  { apply strip_by_id; [exact Hhead|]. intros c Hc. now apply Hlast'. }
  rewrite Hstrip.
  assert (Hslash : strip_char SLASH q = q).
  { apply strip_by_id.
    - intros c Hc. destruct q as [|x q]; [discriminate|]. injection Hc as ->.
      change (startswith [SLASH] (c :: q)) with (eqc SLASH c && true) in Hhd.
      now rewrite andb_true_r in Hhd.
    - intros c Hc. now apply Hlast'. }
  rewrite Hslash.
  assert (Hback : strip_char BACKSLASH q = q).
  { unfold strip_char. rewrite Forall_forall in Hbs.
    apply strip_by_id; intros c Hc; apply eqc_false; intros <-.
    - now apply (Hbs _ (head_In _ _ Hc)).
    - now apply (Hbs _ (last_char_In _ _ Hc)). }
  rewrite Hback. now apply replace_char_id.
Qed.

End PathFacts.

(** X12. For a canonical name under [Game] that is no mod path and has no
    empty segment, the file path is the asset path followed by [Content],
    the other segments and the extension; and the path below the asset
    path, cleaned, is the name again. *)
Theorem convert_then_clean (modresolver : ModResolver)
    (asset_path ext : str) (rest : list str) :
  good_parts (py "Game" :: rest) ->
  Forall (fun p => p <> []) rest ->
  lower (seg (py "Game" :: rest) 1) <> py "mods" ->
  convert_asset_name_to_path modresolver asset_path
    (SLASH :: join [SLASH] (py "Game" :: rest)) ext
  = Ok (with_sep asset_path ++ join [SLASH] (py "Content" :: rest) ++ ext)
  /\ clean_asset_name modresolver (join [SLASH] (py "Content" :: rest))
     = Ok (SLASH :: join [SLASH] (py "Game" :: rest)).
Proof.
  intros Hgood Hrest Hmods.
  assert (Hnomod : forall g, has_mod_id (g :: rest) = false).
  { intros g. unfold has_mod_id.
    change (seg (g :: rest) 1) with (seg (py "Game" :: rest) 1).
    replace (eqs (lower (seg (py "Game" :: rest) 1)) (py "mods"))
      with false; [now rewrite andb_false_r|].
    symmetry. apply not_true_is_false. now rewrite eqs_true. }
  assert (Hcanon : canon modresolver (py "Game" :: rest)
                   = Ok (py "Game" :: rest)).
  { now rewrite canon_plain, content_step_cons by apply Hnomod. }
  assert (Hgood' : good_parts (py "Content" :: rest)).
  { change (py "Content" :: rest)
      with (<[0%nat := py "Content"]> (py "Game" :: rest)).
    apply good_parts_insert; try easy; [now left|]. repeat constructor. }
  split.
  - unfold convert_asset_name_to_path.
    rewrite clean_good_parts, Hcanon by exact Hgood. cbn [bind].
    rewrite parts_of_good by exact Hgood.
    rewrite !part_Some, length_map.
    fold (has_mod_id (py "Game" :: rest)) in |- *.
    replace ((2 <? length (py "Game" :: rest))%nat
             && eqs (lower (seg (py "Game" :: rest) 1)) (py "mods")
             && negb (isnumeric (seg (py "Game" :: rest) 2)))
      with false.
    + cbn [bind]. rewrite part_Some.
      change (eqs (lower (seg (py "Game" :: rest) 0)) (py "game")) with true.
      cbv iota.
      change (<[0%nat := Some (py "Content")]> (map Some (py "Game" :: rest)))
        with (map Some (py "Content" :: rest)).
      rewrite all_str_Some. cbn [bind].
      rewrite os_path_join_plain; [now rewrite <- app_assoc|discriminate|].
      destruct (good_parts_join _ Hgood') as (_ & _ & Hs & _).
      apply Forall_cons in Hs as [Hc Hs]. constructor; [now split|].
      rewrite Forall_forall in *. intros p Hp. split; auto.
    + symmetry.
      replace (eqs (lower (seg (py "Game" :: rest) 1)) (py "mods"))
        with false; [now rewrite andb_false_r|].
      symmetry. apply not_true_is_false. now rewrite eqs_true.
  - destruct (good_parts_join _ Hgood') as (Hd & Hb & Hs & Hw).
    rewrite clean_canon, path_of_trimmed, split_join; try assumption.
    + now rewrite canon_plain, content_step_cons by apply Hnomod.
    + discriminate.
    + destruct rest as [|p rest']; intros c; [now intros [= <-]|].
      now intros [= <-].
Qed.

Ltac solve_good_parts :=
  split; [discriminate | split; [repeat constructor | reflexivity]].

Lemma clean_id_or_alias_witness :
  clean_asset_name Fixtures.primal_fear_managed
    (py "/Game/Mods/839162288/Dinos/Dodo")
  = clean_asset_name Fixtures.primal_fear_managed
      (py "/Game/Mods/PrimalFear/Dinos/Dodo").
Proof.
  symmetry.
  refine (proj1 (proj2 (clean_id_or_alias Fixtures.primal_fear_managed
                          (py "Game") (py "Mods") (py "839162288")
                          (py "PrimalFear") [py "Dinos"; py "Dodo"]
                          _ _ _ _ _)));
    try (vm_compute; reflexivity).
  solve_good_parts.
Defined.

Lemma get_mod_of_mod_path_witness :
  get_mod_name Fixtures.primal_fear_managed
    (py "/Content/Mods/839162288/Dinos/Dodo")
  = Ok (Some (py "PrimalFear"))
  /\ get_mod_id Fixtures.primal_fear_managed
       (py "/Content/Mods/839162288/Dinos/Dodo")
     = Ok (Some (py "839162288")).
Proof.
  destruct (get_mod_of_mod_path Fixtures.primal_fear_managed
              (py "Content") (py "Mods") (py "839162288")
              (py "PrimalFear") [py "Dinos"; py "Dodo"])
    as (Hname & _ & Hid & _);
    try (vm_compute; reflexivity); [solve_good_parts|].
  split; [exact Hname|].
  etransitivity; [exact Hid | vm_compute; reflexivity].
Defined.

Lemma get_mod_of_core_path_witness :
  get_mod_id Fixtures.primal_fear_managed (py "/Game/PrimalEarth/Foo")
  = Ok None.
Proof.
  refine (proj2 (get_mod_of_core_path Fixtures.primal_fear_managed
                   [py "Game"; py "PrimalEarth"; py "Foo"] _ _ _)).
  - solve_good_parts.
  - vm_compute. reflexivity.
  - right. right. discriminate.
Defined.

Lemma convert_then_clean_witness :
  convert_asset_name_to_path Fixtures.primal_fear_managed (py "root")
    (py "/Game/PrimalEarth/Dodo") (py ".uasset")
  = Ok (py "root/Content/PrimalEarth/Dodo.uasset")
  /\ clean_asset_name Fixtures.primal_fear_managed
       (py "Content/PrimalEarth/Dodo")
     = Ok (py "/Game/PrimalEarth/Dodo").
Proof.
  refine (convert_then_clean Fixtures.primal_fear_managed (py "root")
            (py ".uasset") [py "PrimalEarth"; py "Dodo"] _ _ _).
  - solve_good_parts.
  - repeat constructor; discriminate.
  - discriminate.
Defined.

(** ** Reading from a stream *)

Section StreamFacts.
Implicit Types (f : MemoryStream) (l before after data : list byte).

Lemma take_bytes_exact data after n :
  n = Z.of_nat (length data) -> take_bytes (data ++ after) n = data.
Proof.
  revert n. induction data as [|b data IH]; intros n Hn.
  - subst n. now destruct after.
  - cbn [app take_bytes]. cbn [length] in Hn.
    destruct (n <=? 0) eqn:E; [apply Z.leb_le in E; lia|].
    f_equal. apply IH. lia.
Qed.

Lemma take_bytes_app data after :
  take_bytes (data ++ after) (Z.of_nat (length data)) = data.
Proof. now apply take_bytes_exact. Qed.

Lemma drop_bytes_exact before after n :
  n = Z.of_nat (length before) -> drop_bytes (before ++ after) n = after.
Proof.
  revert n. induction before as [|b before IH]; intros n Hn.
  - subst n. now destruct after.
  - cbn [app drop_bytes]. cbn [length] in Hn.
    destruct (n <=? 0) eqn:E; [apply Z.leb_le in E; lia|].
    apply IH. lia.
Qed.

Lemma drop_bytes_app before after :
  drop_bytes (before ++ after) (Z.of_nat (length before)) = after.
Proof. now apply drop_bytes_exact. Qed.

Lemma slice_at f before data after :
  stream_at f before (data ++ after) ->
  slice (mem f) (offset f) (Z.of_nat (length data)) = data.
Proof.
  intros [-> ->]. unfold slice.
  now rewrite drop_bytes_app, take_bytes_app.
Qed.

Lemma stream_at_advance f before data after :
  stream_at f before (data ++ after) ->
  stream_at (mkStream (mem f) (offset f + Z.of_nat (length data)))
            (before ++ data) after.
Proof.
  intros [Hm Ho]. split; simpl.
  - now rewrite Hm, app_assoc.
  - rewrite Ho, length_app. lia.
Qed.

Lemma stream_at_start data : stream_at (loadFileAsStream data) [] data.
Proof. now split. Qed.

(** [readBytes] over bytes that are there. *)
Lemma readBytes_at f before data after :
  stream_at f before (data ++ after) ->
  exists f',
    readBytes f (Z.of_nat (length data)) = (data, f')
    /\ stream_at f' (before ++ data) after.
Proof.
  intros H. eexists. split; [|exact (stream_at_advance _ _ _ _ H)].
  unfold readBytes. now rewrite (slice_at _ _ _ _ H).
Qed.

Lemma byte_of_value n : Z.of_N (Byte.to_N (Fixtures.byte_of n)) = n mod 256.
Proof.
  unfold Fixtures.byte_of.
  assert (Hr : 0 <= n mod 256 < 256) by (apply Z.mod_pos_bound; lia).
  destruct (Byte.of_N (Z.to_N (n mod 256))) as [b|] eqn:E.
  - apply Byte.to_of_N in E. rewrite E. lia.
  - apply Byte.of_N_None_iff in E. lia.
Qed.

Lemma le_bytes_length width n : length (Fixtures.le_bytes width n) = width.
Proof.
  revert n. induction width as [|w IH]; intros n; simpl; [reflexivity|].
  now rewrite IH.
Qed.

(** Little-endian bytes read back give the number. *)
Lemma le_value_bytes width n :
  0 <= n < 256 ^ Z.of_nat width ->
  le_value (Fixtures.le_bytes width n) = n.
Proof.
  revert n. induction width as [|w IH]; intros n Hn.
  - simpl in *. lia.
  - cbn [Fixtures.le_bytes le_value foldr].
    fold (le_value (Fixtures.le_bytes w (n / 256))).
    rewrite byte_of_value, IH.
    + pose proof (Z.div_mod n 256). lia.
    + rewrite Nat2Z.inj_succ, Z.pow_succ_r in Hn by lia.
      split; [apply Z.div_pos; lia|].
      apply Z.div_lt_upper_bound; lia.
Qed.

(** A fixed-width reader over the bytes of a number. *)
Lemma read_uint_at width f before n after :
  0 <= n < 256 ^ Z.of_nat width ->
  stream_at f before (Fixtures.le_bytes width n ++ after) ->
  exists f',
    read_uint (Z.of_nat width) f = Ok (n, f')
    /\ stream_at f' (before ++ Fixtures.le_bytes width n) after.
Proof.
  intros Hn H.
  pose proof (slice_at _ _ _ _ H) as Hs.
  pose proof (stream_at_advance _ _ _ _ H) as Ha.
  rewrite le_bytes_length in Hs, Ha.
  eexists. split; [|exact Ha].
  unfold read_uint. rewrite Hs, le_bytes_length, Z.eqb_refl.
  now rewrite le_value_bytes.
Qed.

Lemma readUInt32_at f before n after :
  0 <= n < 2 ^ 32 ->
  stream_at f before (Fixtures.u32 n ++ after) ->
  exists f',
    readUInt32 f = Ok (n, f')
    /\ stream_at f' (before ++ Fixtures.u32 n) after.
Proof. intros Hn. apply (read_uint_at 4); simpl; lia. Qed.

Lemma readUInt64_at f before n after :
  0 <= n < 2 ^ 64 ->
  stream_at f before (Fixtures.u64 n ++ after) ->
  exists f',
    readUInt64 f = Ok (n, f')
    /\ stream_at f' (before ++ Fixtures.u64 n) after.
Proof. intros Hn. apply (read_uint_at 8); simpl; lia. Qed.

(** A fixed-width reader at the end of a stream, or too near it. *)
Lemma read_uint_short width f before after :
  stream_at f before after ->
  Z.of_nat (length after) < width ->
  read_uint width f = Raise StructError.
Proof.
  intros [Hm Ho] Hshort. unfold read_uint, slice.
  rewrite Hm, Ho, drop_bytes_app.
  assert (Hlen : forall l n, Z.of_nat (length (take_bytes l n))
                             <= Z.of_nat (length l)).
  { induction l as [|b l IH]; intros n; simpl; [lia|].
    destruct (n <=? 0); simpl; [lia|]. specialize (IH (n - 1)). lia. }
  specialize (Hlen after width).
  destruct (_ =? _) eqn:E; [apply Z.eqb_eq in E; lia | reflexivity].
Qed.

End StreamFacts.

(** ** The strings of [mod.info] and [modmeta.info] *)

Section FieldFacts.
Context `{CODEC : Utf8Codec}.
Implicit Types (f : MemoryStream) (t : text_field)
  (before after : list byte).

(** [readUnrealString] over a field. *)
Lemma readUnrealString_at f before t after :
  field_ok t ->
  stream_at f before (field_bytes t ++ after) ->
  exists f',
    readUnrealString f = (Ok (field_value t), f')
    /\ stream_at f' (before ++ field_bytes t) after.
Proof.
  intros Hok Hat. unfold readUnrealString. destruct t as [|data].
  - destruct (readUInt32_at f before 0 after) as (f' & -> & Hat');
      [lia | exact Hat|]. now exists f'.
  - destruct Hok as (Hne & Hlen & [string Hdec]).
    cbn [field_bytes] in Hat. rewrite <- app_assoc in Hat.
    destruct (readUInt32_at f before _ _ (conj (Nat2Z.is_nonneg _) Hlen) Hat)
      as (f1 & -> & Hat1).
    assert (Hpos : 0 < Z.of_nat (length data)).
    { destruct data; [contradiction | simpl; lia]. }
    replace (Z.of_nat (length data) <? 0) with false
      by (symmetry; apply Z.ltb_ge; lia).
    replace (Z.of_nat (length data) =? 0) with false
      by (symmetry; apply Z.eqb_neq; lia).
    destruct (readBytes_at f1 _ data after Hat1) as (f2 & -> & Hat2).
    cbn [field_value]. rewrite Hdec. exists f2. split; [reflexivity|].
    cbn [field_bytes]. now rewrite app_assoc.
Qed.

Lemma read_strings_at fields : forall f before after,
  Forall field_ok fields ->
  stream_at f before (concat (map field_bytes fields) ++ after) ->
  exists f',
    read_strings (length fields) f = (Ok (map field_value fields), f')
    /\ stream_at f' (before ++ concat (map field_bytes fields)) after.
Proof.
  induction fields as [|t fields IH]; intros f before after Hok Hat.
  - exists f. simpl in *. now rewrite app_nil_r.
  - apply Forall_cons in Hok as [Ht Hok].
    cbn [map concat] in Hat. rewrite <- app_assoc in Hat.
    destruct (readUnrealString_at f before t _ Ht Hat) as (f1 & Hr & Hat1).
    destruct (IH f1 _ after Hok Hat1) as (f2 & Hrs & Hat2).
    exists f2. cbn [length read_strings map]. rewrite Hr, Hrs.
    split; [reflexivity|]. cbn [concat]. now rewrite app_assoc.
Qed.

Lemma read_entries_at entries : forall f before after,
  Forall (fun kv => field_ok (fst kv) /\ field_ok (snd kv)) entries ->
  stream_at f before
    (concat (map (fun kv => field_bytes (fst kv) ++ field_bytes (snd kv))
                 entries) ++ after) ->
  exists f',
    read_entries (length entries) f
    = (Ok (map (fun kv => (field_value (fst kv), field_value (snd kv)))
               entries), f')
    /\ stream_at f'
         (before
          ++ concat (map (fun kv => field_bytes (fst kv)
                                    ++ field_bytes (snd kv)) entries))
         after.
Proof.
  induction entries as [|[k v] entries IH]; intros f before after Hok Hat.
  - exists f. simpl in *. now rewrite app_nil_r.
  - apply Forall_cons in Hok as [[Hk Hv] Hok].
    cbn [map concat fst snd] in Hat. rewrite <- !app_assoc in Hat.
    destruct (readUnrealString_at f before k _ Hk Hat) as (f1 & Hr1 & Hat1).
    destruct (readUnrealString_at f1 _ v _ Hv Hat1) as (f2 & Hr2 & Hat2).
    destruct (IH f2 _ after Hok Hat2) as (f3 & Hrs & Hat3).
    exists f3. cbn [length read_entries map fst snd].
    rewrite Hr1, Hr2, Hrs. split; [reflexivity|].
    cbn [concat]. now rewrite <- !app_assoc in *.
Qed.

End FieldFacts.

(** X13. [readUnrealString] over a length and that many bytes, the length
    not zero and below [2^32] and the bytes decodable, returns the decoded
    text without its last character and leaves the stream behind the
    bytes; over a zero length it returns [None] and leaves the stream
    behind the length; with fewer than four bytes left it raises and
    leaves the stream where it was. *)
Theorem readUnrealString_layout `{Utf8Codec}
    (f : MemoryStream) (before after : list byte) :
  (forall t,
     field_ok t ->
     stream_at f before (field_bytes t ++ after) ->
     exists f',
       readUnrealString f = (Ok (field_value t), f')
       /\ stream_at f' (before ++ field_bytes t) after)
  /\ (stream_at f before after ->
      (length after < 4)%nat ->
      readUnrealString f = (Raise StructError, f)).
Proof.
  split; [intros t; apply readUnrealString_at|].
  intros Hat Hshort. unfold readUnrealString, readUInt32.
  rewrite (read_uint_short 4 f before after Hat); [reflexivity | lia].
Qed.

(** X14. [readModInfo] over the name of the mod, the number of its maps and
    the names of the maps, one field after the other, returns the name and
    the names of the maps in their order, and leaves the stream behind
    them. *)
Theorem readModInfo_layout `{Utf8Codec}
    (f : MemoryStream) (before after : list byte)
    (name : text_field) (map_names : list text_field) :
  field_ok name ->
  Forall field_ok map_names ->
  Z.of_nat (length map_names) < 2 ^ 32 ->
  let record :=
    field_bytes name ++ Fixtures.u32 (Z.of_nat (length map_names))
    ++ concat (map field_bytes map_names) in
  stream_at f before (record ++ after) ->
  exists f',
    readModInfo f
    = (Ok (mkModInfo (field_value name) (map field_value map_names)), f')
    /\ stream_at f' (before ++ record) after.
Proof.
  intros Hname Hmaps Hcount record Hat. unfold record in *.
  rewrite <- !app_assoc in Hat.
  destruct (readUnrealString_at f before name _ Hname Hat)
    as (f1 & Hr1 & Hat1).
  destruct (readUInt32_at f1 _ _ _ (conj (Nat2Z.is_nonneg _) Hcount) Hat1)
    as (f2 & Hr2 & Hat2).
  destruct (read_strings_at map_names f2 _ after Hmaps Hat2)
    as (f3 & Hr3 & Hat3).
  exists f3. unfold readModInfo. rewrite Hr1, Hr2, Nat2Z.id, Hr3.
  split; [reflexivity|]. now rewrite <- !app_assoc in *.
Qed.

(** X15. [readModMetaInfo] over the number of entries and the entries, each
    a key field and a value field, returns a mapping whose keys are the
    keys of the entries and in which the key of the last entry has the
    value of the last entry, and leaves the stream behind the entries. *)
Theorem readModMetaInfo_layout `{Utf8Codec}
    (f : MemoryStream) (before after : list byte)
    (entries : list (text_field * text_field)) :
  Forall (fun kv => field_ok (fst kv) /\ field_ok (snd kv)) entries ->
  Z.of_nat (length entries) < 2 ^ 32 ->
  let record :=
    Fixtures.u32 (Z.of_nat (length entries))
    ++ concat (map (fun kv => field_bytes (fst kv) ++ field_bytes (snd kv))
                   entries) in
  stream_at f before (record ++ after) ->
  exists f' meta,
    readModMetaInfo f = (Ok meta, f')
    /\ stream_at f' (before ++ record) after
    /\ (forall key, is_Some (meta !! key)
                    <-> key ∈ map (fun kv => field_value (fst kv)) entries)
    /\ (forall earlier k v,
          entries = earlier ++ [(k, v)] ->
          meta !! field_value k = Some (field_value v)).
Proof.
  intros Hok Hcount record Hat. unfold record in *.
  rewrite <- !app_assoc in Hat.
  destruct (readUInt32_at f _ _ _ (conj (Nat2Z.is_nonneg _) Hcount) Hat)
    as (f1 & Hr1 & Hat1).
  destruct (read_entries_at entries f1 _ after Hok Hat1)
    as (f2 & Hr2 & Hat2).
  eexists f2, _. unfold readModMetaInfo. rewrite Hr1, Nat2Z.id, Hr2.
  split; [reflexivity|]. split; [now rewrite <- !app_assoc in *|].
  clear. split.
  - intros key. unfold dict_of_entries.
    induction entries as [|[k v] entries IH] using rev_ind.
    + simpl. rewrite lookup_empty. split; [intros [? ?]; discriminate|].
      intros Hin. inversion Hin.
    + rewrite !map_app, foldl_app. cbn [map foldl fst snd].
      rewrite elem_of_app, list_elem_of_singleton, <- IH.
      destruct (decide (field_value k = key)) as [->|Hne].
      * rewrite lookup_insert_eq. split; [now right | now eexists].
      * rewrite lookup_insert_ne by exact Hne.
        split; [now left | intros [?|?]; [assumption | congruence]].
  - intros earlier k v ->. unfold dict_of_entries.
    rewrite map_app, foldl_app. cbn [map foldl fst snd].
    apply lookup_insert_eq.
Qed.

(** ** Unpacking a mod package *)

(** The loop over the descriptors, one round unfolded. *)
Lemma read_descriptors_round f sizeUnpacked sizeFound chunkSizes :
  read_descriptors f sizeUnpacked sizeFound chunkSizes
  = if sizeFound <? sizeUnpacked then
      match readUInt64 f with
      | Raise e => (Raise e, f)
      | Ok (chunkSizeCompressed, f1) =>
          match readUInt64 f1 with
          | Raise e => (Raise e, f1)
          | Ok (chunkSizeUnompressed, f2) =>
              read_descriptors f2 sizeUnpacked
                (sizeFound + chunkSizeUnompressed)
                (chunkSizes
                 ++ [(chunkSizeCompressed, chunkSizeUnompressed)])
          end
      end
    else (Ok (chunkSizes, sizeFound), f).
Proof.
  funelim (read_descriptors f sizeUnpacked sizeFound chunkSizes);
    rewrite Heq;
    repeat match goal with
           | H : readUInt64 _ = _ |- _ => rewrite H
           end;
    reflexivity.
Qed.

Section PackageFacts.
Context `{ZLIB : Zlib}.
Implicit Types (f : MemoryStream) (before after out : list byte)
  (chunks : list (list byte * list byte)).

Lemma unpacked_size_cons chunk chunks :
  unpacked_size (chunk :: chunks)
  = Z.of_nat (length (snd chunk)) + unpacked_size chunks.
Proof. unfold unpacked_size. cbn [map concat]. rewrite length_app. lia. Qed.

Lemma unpacked_size_nonneg chunks : 0 <= unpacked_size chunks.
Proof. unfold unpacked_size. lia. Qed.

(** The descriptor loop over the table of a package. *)
Lemma read_descriptors_at chunks : forall f before after sizeFound acc,
  Forall chunk_ok chunks ->
  stream_at f before (concat (map descriptor chunks) ++ after) ->
  exists f',
    read_descriptors f (sizeFound + unpacked_size chunks) sizeFound acc
    = (Ok (acc ++ map chunk_sizes chunks,
           sizeFound + unpacked_size chunks), f')
    /\ stream_at f' (before ++ concat (map descriptor chunks)) after.
Proof.
  induction chunks as [|chunk chunks IH];
    intros f before after sizeFound acc Hok Hat.
  - exists f. rewrite read_descriptors_round.
    unfold unpacked_size. simpl. rewrite Z.add_0_r, Z.ltb_irrefl.
    simpl in Hat. now rewrite !app_nil_r.
  - apply Forall_cons in Hok as [(Hne & Hc & Hu & _) Hok].
    cbn [map concat] in Hat. unfold descriptor at 1 in Hat.
    rewrite <- !app_assoc in Hat.
    destruct (readUInt64_at f before _ _ (conj (Nat2Z.is_nonneg _) Hc) Hat)
      as (f1 & Hr1 & Hat1).
    destruct (readUInt64_at f1 _ _ _ (conj (Nat2Z.is_nonneg _) Hu) Hat1)
      as (f2 & Hr2 & Hat2).
    rewrite read_descriptors_round, unpacked_size_cons.
    assert (Hpos : 0 < Z.of_nat (length (snd chunk))).
    { destruct (snd chunk); [contradiction | simpl; lia]. }
    pose proof (unpacked_size_nonneg chunks) as Hnn.
    replace (sizeFound <? _) with true by (symmetry; apply Z.ltb_lt; lia).
    rewrite Hr1, Hr2.
    destruct (IH f2 _ after (sizeFound + Z.of_nat (length (snd chunk)))
                 (acc ++ [chunk_sizes chunk]) Hok Hat2) as (f3 & Hr3 & Hat3).
    exists f3. rewrite Z.add_assoc. unfold chunk_sizes at 1 in Hr3.
    rewrite Hr3. split.
    + cbn [map]. now rewrite <- app_assoc.
    + cbn [map concat]. unfold descriptor at 2.
      now rewrite <- !app_assoc in *.
Qed.

(** The chunk loop over the payloads of a package. *)
Lemma write_chunks_at sizeUnpackedChunk chunks :
  forall f before after count i out,
    Forall chunk_ok chunks ->
    nominal_sizes sizeUnpackedChunk chunks ->
    count = (i + length chunks)%nat ->
    stream_at f before (concat (map fst chunks) ++ after) ->
    exists f',
      write_chunks sizeUnpackedChunk count i (map chunk_sizes chunks) f out
      = (Ok tt, f', out ++ concat (map snd chunks))
      /\ stream_at f' (before ++ concat (map fst chunks)) after.
Proof.
  induction chunks as [|chunk chunks IH];
    intros f before after count i out Hok Hnom Hcount Hat.
  - exists f. simpl in *. now rewrite !app_nil_r.
  - apply Forall_cons in Hok as [(_ & _ & _ & Hz) Hok].
    cbn [map concat] in Hat. rewrite <- app_assoc in Hat.
    destruct (readBytes_at f before _ _ Hat) as (f1 & Hr & Hat1).
    cbn [map write_chunks]. unfold chunk_sizes at 1. rewrite Hr, Hz.
    rewrite Z.eqb_refl. cbn [negb].
    assert (Hsize : (Z.of_nat (length (snd chunk)) =? sizeUnpackedChunk)
                    || Nat.eqb (i + 1) count = true).
    { destruct chunks as [|c' chunks'].
      - apply orb_true_iff. right. apply Nat.eqb_eq. simpl in Hcount. lia.
      - destruct Hnom as [Hn _]. apply orb_true_iff. left.
        now apply Z.eqb_eq. }
    rewrite Hsize. cbn [negb].
    assert (Hnom' : nominal_sizes sizeUnpackedChunk chunks).
    { destruct chunks as [|c' chunks']; [exact I | apply Hnom]. }
    destruct (IH f1 (before ++ fst chunk) after count (S i)
                 (out ++ snd chunk) Hok Hnom')
      as (f2 & Hw & Hat2); [simpl in Hcount; lia | exact Hat1 |].
    exists f2. rewrite Hw. split.
    + cbn [concat]. now rewrite <- app_assoc.
    + cbn [concat]. now rewrite <- app_assoc in *.
Qed.

(** What the chunk loop has written when it goes through. *)
Lemma write_chunks_length sizeUnpackedChunk count chunkSizes :
  forall i f out f' out',
    write_chunks sizeUnpackedChunk count i chunkSizes f out
    = (Ok tt, f', out') ->
    Z.of_nat (length out')
    = Z.of_nat (length out) + total_uncompressed chunkSizes.
Proof.
  induction chunkSizes as [|[cs us] chunkSizes IH]; intros i f out f' out'.
  - intros [= <- <-]. unfold total_uncompressed. simpl. lia.
  - cbn [write_chunks].
    destruct (readBytes f cs) as [data f1].
    destruct (zlib_decompress data) as [raw|]; [|discriminate].
    destruct (Z.of_nat (length raw) =? us) eqn:Hus; [|discriminate].
    cbn [negb]. destruct (negb _); [discriminate|].
    intros Hw. apply IH in Hw. rewrite length_app in Hw.
    apply Z.eqb_eq in Hus. unfold total_uncompressed in *. simpl. lia.
Qed.

End PackageFacts.

(** X16. Unpacking the package made of a header with the right token, the
    table of the chunks and their payloads goes through: all of the
    package is read and the file written holds the uncompressed bytes of
    the chunks in their order, whatever was there before. *)
Theorem unpackModFile_round_trip `{Zlib}
    (sizeUnpackedChunk sizePacked : Z)
    (chunks : list (list byte * list byte)) (dst : option (list byte)) :
  0 <= sizeUnpackedChunk < 2 ^ 64 ->
  0 <= sizePacked < 2 ^ 64 ->
  unpacked_size chunks < 2 ^ 64 ->
  Forall chunk_ok chunks ->
  nominal_sizes sizeUnpackedChunk chunks ->
  let data := package sizeUnpackedChunk sizePacked chunks in
  unpackModFile (loadFileAsStream data) dst
  = (Ok tt, mkStream data (Z.of_nat (length data)),
     Some (concat (map snd chunks))).
Proof.
  intros Hnominal Hpacked Htotal Hok Hsizes data.
  subst data. unfold package.
  pose proof (stream_at_start
                (package sizeUnpackedChunk sizePacked chunks)) as Hat.
  unfold package in Hat.
  pose proof (unpacked_size_nonneg chunks) as Hnn.
  destruct (readUInt64_at _ _ MAGIC _ ltac:(unfold MAGIC; lia) Hat)
    as (f1 & Hr1 & Hat1).
  destruct (readUInt64_at _ _ _ _ Hnominal Hat1) as (f2 & Hr2 & Hat2).
  destruct (readUInt64_at _ _ _ _ Hpacked Hat2) as (f3 & Hr3 & Hat3).
  destruct (readUInt64_at _ _ _ _ (conj Hnn Htotal) Hat3)
    as (f4 & Hr4 & Hat4).
  destruct (read_descriptors_at chunks f4 _ _ 0 [] Hok Hat4)
    as (f5 & Hr5 & Hat5).
  rewrite <- (app_nil_r (concat (map fst chunks))) in Hat5.
  destruct (write_chunks_at sizeUnpackedChunk chunks f5 _ [] (length chunks)
              0%nat [] Hok Hsizes eq_refl Hat5) as (f6 & Hr6 & Hat6).
  unfold unpackModFile, read_header.
  rewrite Hr1, Hr2, Hr3, Hr4, Z.eqb_refl. cbn [negb].
  rewrite Z.add_0_l in Hr5. rewrite Hr5, Z.eqb_refl. cbn [negb app].
  rewrite length_map, Hr6. cbn [app]. f_equal. f_equal.
  destruct Hat6 as [Hm Ho]. destruct f6 as [m o]. simpl in *. subst m o.
  rewrite <- !app_assoc, !app_nil_r. reflexivity.
Qed.

(** X17. When [unpackModFile] returns, the token of the header was the
    right one and the file written is as long as the header says the
    unpacked mod is. *)
Theorem unpackModFile_success `{Zlib}
    (f f' : MemoryStream) (dst dst' : option (list byte)) :
  unpackModFile f dst = (Ok tt, f', dst') ->
  exists sizeUnpackedChunk sizeUnpacked f1 out,
    read_header f = (Ok (MAGIC, sizeUnpackedChunk, sizeUnpacked), f1)
    /\ dst' = Some out
    /\ Z.of_nat (length out) = sizeUnpacked.
Proof.
  unfold unpackModFile.
  destruct (read_header f) as [[[[token nominal] total]|e] f1];
    [|discriminate].
  destruct (token =? MAGIC) eqn:Htok; [|discriminate].
  apply Z.eqb_eq in Htok. subst token. cbn [negb].
  destruct (read_descriptors f1 total 0 []) as [[[table found]|e] f2] eqn:Hd;
    [|discriminate].
  destruct (found =? total) eqn:Hsum; [|discriminate].
  apply Z.eqb_eq in Hsum. cbn [negb].
  destruct (write_chunks nominal (length table) 0 table f2 [])
    as [[r f3] out] eqn:Hw.
  intros [= -> <- <-]. exists nominal, total, f1, out.
  split; [reflexivity|]. split; [reflexivity|].
  apply write_chunks_length in Hw.
  destruct (read_descriptors_sum _ _ _ _ _ _ _ Hd) as (added & Ht & Hs & _).
  simpl in Ht. subst added. simpl in Hw. lia.
Qed.

Lemma readUnrealString_layout_witness :
  fst (@readUnrealString Fixtures.ascii_codec
         (loadFileAsStream
            (Fixtures.u32 4 ++ Fixtures.text "Map" ++ ["000"%byte])))
  = Ok (Some (py "Map")).
Proof.
  destruct (proj1 (@readUnrealString_layout Fixtures.ascii_codec
                     (loadFileAsStream
                        (Fixtures.u32 4 ++ Fixtures.text "Map"
                         ++ ["000"%byte])) [] [])
                  (Text (Fixtures.text "Map" ++ ["000"%byte])))
    as (f' & Hr & _).
  - split; [discriminate|]. split; [reflexivity|]. vm_compute. eauto.
  - split; reflexivity.
  - rewrite Hr. reflexivity.
Defined.

Lemma readModInfo_layout_witness :
  fst (@readModInfo Fixtures.ascii_codec
         (loadFileAsStream
            (Fixtures.u32 4 ++ Fixtures.text "Mod" ++ ["000"%byte]
             ++ Fixtures.u32 2
             ++ Fixtures.u32 4 ++ Fixtures.text "Map" ++ ["000"%byte]
             ++ Fixtures.u32 0)))
  = Ok (mkModInfo (Some (py "Mod")) [Some (py "Map"); None]).
Proof.
  destruct (@readModInfo_layout Fixtures.ascii_codec
              (loadFileAsStream
                 (Fixtures.u32 4 ++ Fixtures.text "Mod" ++ ["000"%byte]
                  ++ Fixtures.u32 2
                  ++ Fixtures.u32 4 ++ Fixtures.text "Map" ++ ["000"%byte]
                  ++ Fixtures.u32 0)) [] []
              (Text (Fixtures.text "Mod" ++ ["000"%byte]))
              [Text (Fixtures.text "Map" ++ ["000"%byte]); Absent])
    as (f' & Hr & _).
  - split; [discriminate|]. split; [reflexivity|]. vm_compute. eauto.
  - repeat constructor; try discriminate. vm_compute. eauto.
  - reflexivity.
  - split; reflexivity.
  - rewrite Hr. reflexivity.
Defined.

Lemma readModMetaInfo_layout_witness :
  exists meta,
    fst (@readModMetaInfo Fixtures.ascii_codec
           (loadFileAsStream
              (Fixtures.u32 1
               ++ Fixtures.u32 5 ++ Fixtures.text "GUID" ++ ["000"%byte]
               ++ Fixtures.u32 3 ++ Fixtures.text "4A" ++ ["000"%byte])))
    = Ok meta
    /\ meta !! Some (py "GUID") = Some (Some (py "4A")).
Proof.
  destruct (@readModMetaInfo_layout Fixtures.ascii_codec
              (loadFileAsStream
                 (Fixtures.u32 1
                  ++ Fixtures.u32 5 ++ Fixtures.text "GUID" ++ ["000"%byte]
                  ++ Fixtures.u32 3 ++ Fixtures.text "4A" ++ ["000"%byte]))
              [] []
              [(Text (Fixtures.text "GUID" ++ ["000"%byte]),
                Text (Fixtures.text "4A" ++ ["000"%byte]))])
    as (f' & meta & Hr & _ & _ & Hlast).
  - repeat constructor; try discriminate; vm_compute; eauto.
  - reflexivity.
  - split; reflexivity.
  - exists meta. rewrite Hr. split; [reflexivity|].
    apply (Hlast [] _ _ eq_refl).
Defined.

Lemma unpackModFile_round_trip_witness :
  let chunks := [(Fixtures.text "abcd", Fixtures.text "abcd");
                 (Fixtures.text "xy", Fixtures.text "xy")] in
  let data := package 4 0 chunks in
  @unpackModFile Fixtures.stored (loadFileAsStream data) (Some [])
  = (Ok tt, mkStream data (Z.of_nat (length data)),
     Some (concat (map snd chunks))).
Proof.
  intros chunks.
  assert (H1 : 0 <= 4 < 2 ^ 64) by (split; [lia | reflexivity]).
  assert (H2 : 0 <= 0 < 2 ^ 64) by (split; [lia | reflexivity]).
  assert (H3 : unpacked_size chunks < 2 ^ 64) by reflexivity.
  assert (H4 : Forall (@chunk_ok Fixtures.stored) chunks).
  { repeat constructor; try discriminate; reflexivity. }
  assert (H5 : nominal_sizes 4 chunks) by (split; [reflexivity | exact I]).
  exact (@unpackModFile_round_trip Fixtures.stored 4 0 chunks (Some [])
           H1 H2 H3 H4 H5).
Defined.

Lemma unpackModFile_success_witness :
  exists out,
    snd (@unpackModFile Fixtures.stored Fixtures.good_package None)
    = Some out
    /\ Z.of_nat (length out) = 6.
Proof.
  destruct (@unpackModFile_success Fixtures.stored Fixtures.good_package
              (Fixtures.at_offset Fixtures.good_package 70) None
              (Some (Fixtures.text "abcdxy")))
    as (nominal & total & f1 & out & Hh & Hd & Hl);
    [vm_compute; reflexivity|].
  exists out. split.
  - rewrite <- Hd. vm_compute. reflexivity.
  - rewrite Hl. vm_compute in Hh. now injection Hh.
Defined.

(** ** [unpackModFile]: what is detected *)

Section Detection.
Context `{ZLIB : Zlib}.
Implicit Types (f : MemoryStream) (before after out : list byte)
  (table : list (Z * Z)).




End Detection.





(** ** The game version *)

Lemma is_version_nonempty v : is_version v = true -> v <> [].
Proof. intros H ->. discriminate. Qed.

Lemma checked_spec version :
  checked version
  = match version with
    | Some [] => Some []
    | Some v => if is_version v then Some v else None
    | None => None
    end.
Proof.
  unfold checked. destruct version as [[|c v]|]; try reflexivity.
  unfold truthy. now destruct (is_version (c :: v)).
Qed.

(** X18. [fetchGameVersion] returns the first well-formed version among what
    the server printed, the trimmed content of [version.txt] and the
    trimmed answer of the API when its status is 200, in this order, and
    raises [ValueError] when none of them is one; what it returns is
    always a well-formed version. *)
Theorem fetchGameVersion_first_valid
    (exe verFile : option str) (status_code : Z) (text : str) :
  fetchGameVersion exe verFile status_code text
  = match first_version
            [exe; option_map strip verFile;
             if status_code =? 200 then Some (strip text) else None] with
    | Some v => Ok v
    | None => Raise (ValueError "No version number source available")
    end
  /\ forall v,
       fetchGameVersion exe verFile status_code text = Ok v ->
       is_version v = true.
Proof.
  assert (Hmain :
    fetchGameVersion exe verFile status_code text
    = match first_version
              [exe; option_map strip verFile;
               if status_code =? 200 then Some (strip text) else None] with
      | Some v => Ok v
      | None => Raise (ValueError "No version number source available")
      end).
  { unfold fetchGameVersion. rewrite !checked_spec.
    unfold _fetchGameVersionFromFile, _fetchGameVersionFromAPI.
    cbn [first_version].
    destruct exe as [[|c e]|];
      [change (is_version []) with false; cbv iota
      |destruct (is_version (c :: e)) eqn:Hexe; [reflexivity|]
      |];
      (destruct verFile as [content|]; cbn [option_map];
       [destruct (strip content) as [|c1 t] eqn:Ht;
        [change (is_version []) with false; cbv iota
        |destruct (is_version (c1 :: t)) eqn:Htxt]
       |]);
      (destruct (status_code =? 200); cbn [negb];
       [destruct (strip text) as [|c2 a] eqn:Ha;
        [|destruct (is_version (c2 :: a)) eqn:Hapi]
       |]);
      cbn [truthy andb the_str]; try reflexivity;
      now destruct (negb _). }
  split; [exact Hmain|].
  intros v. rewrite Hmain.
  assert (Hfirst : forall l w, first_version l = Some w -> is_version w = true).
  { induction l as [|[x|] l IH]; intros w; simpl; [discriminate| |apply IH].
    destruct (is_version x) eqn:E; [now intros [= <-] | apply IH]. }
  destruct (first_version _) as [w|] eqn:E; [|discriminate].
  intros [= <-]. now apply (Hfirst _ _ E).
Qed.

(** ** Documents in the key-value format *)

Section LineFacts.
Implicit Types (s w a r : str) (c : ascii) (P : ascii -> bool).

Lemma lstrip_by_app P w s :
  Forall (fun c => P c = true) w -> lstrip_by P (w ++ s) = lstrip_by P s.
Proof.
  induction 1 as [|c w Hc _ IH]; [reflexivity|].
  cbn [app lstrip_by]. now rewrite Hc.
Qed.

Lemma break_at_token P a r :
  Forall (fun c => P c = false) a ->
  (forall c, head r = Some c -> P c = true) ->
  break_at P (a ++ r) = (a, r).
Proof.
  intros Ha Hr. induction Ha as [|c a Hc _ IH].
  - destruct r as [|c r]; [reflexivity|]. cbn [app break_at].
    now rewrite (Hr c eq_refl).
  - cbn [app break_at]. now rewrite Hc, IH.
Qed.

Lemma remove_char_plain c s :
  Forall (fun x => x <> c) s -> remove_char c s = s.
Proof.
  unfold remove_char. induction 1 as [|x s Hx _ IH]; [reflexivity|].
  cbn [List.filter]. apply eqc_false in Hx. rewrite Hx. cbn [negb].
  now rewrite IH.
Qed.

Lemma remove_char_in_quotes s :
  Forall (fun x => x <> QUOTE) s -> remove_char QUOTE (in_quotes s) = s.
Proof.
  intros Hs. unfold in_quotes, remove_char.
  change (QUOTE :: s ++ [QUOTE]) with ([QUOTE] ++ s ++ [QUOTE]).
  rewrite !List.filter_app. fold (remove_char QUOTE s).
  rewrite (remove_char_plain _ _ Hs). cbn. now rewrite app_nil_r.
Qed.

Lemma last_char_in_quotes s : last_char (in_quotes s) = Some QUOTE.
Proof.
  unfold in_quotes. change (QUOTE :: s ++ [QUOTE])
    with ((QUOTE :: s) ++ [QUOTE]). apply last_char_snoc.
Qed.

(** Trimming a line that is some indentation and a text without blanks
    at its ends. *)
Lemma strip_indented w s :
  blanks w ->
  (forall c, head s = Some c -> is_space c = false) ->
  (forall c, last_char s = Some c -> is_space c = false) ->
  strip (w ++ s) = s.
Proof.
  intros Hw Hh Hl. unfold strip, strip_by.
  rewrite lstrip_by_app.
  - rewrite lstrip_by_id by exact Hh. now apply rstrip_by_id.
  - eapply Forall_impl; [exact Hw|]. now intros c [? _].
Qed.

End LineFacts.

Section AcfRun.
Import Acf.
Implicit Types (st : state) (e : acf_entry) (entries : list acf_entry).

Lemma split_ws1_single s :
  s <> [] -> Forall (fun c => is_space c = false) s ->
  split_ws1 s = [s].
Proof.
  intros Hne Hs. unfold split_ws1, lstrip.
  rewrite lstrip_by_id.
  2:{ intros c Hc. rewrite Forall_forall in Hs.
      apply Hs. now apply head_In. }
  destruct s as [|c s]; [contradiction|].
  rewrite <- (app_nil_r (c :: s)) at 1.
  rewrite break_at_token; [reflexivity | exact Hs | discriminate].
Qed.

Lemma in_quotes_no_space s :
  plain_token s -> Forall (fun c => is_space c = false) (in_quotes s).
Proof.
  intros Hs. unfold in_quotes. constructor; [reflexivity|].
  apply Forall_app. split; [|now repeat constructor].
  eapply Forall_impl; [exact Hs|]. now intros c [? _].
Qed.

(** The two fields of the line of an entry. *)
Lemma split_ws1_entry e :
  entry_ok e ->
  split_ws1 (strip (entry_line e))
  = [in_quotes (e_key e); in_quotes (e_value e)].
Proof.
  intros (Hind & Hkey & Hsep & Hne & Hval). unfold entry_line.
  rewrite strip_indented; [|exact Hind|now intros c [= <-]|].
  2:{ intros c. rewrite !last_char_app, last_char_in_quotes.
      now intros [= <-]. }
  unfold split_ws1, lstrip.
  rewrite lstrip_by_id by (now intros c [= <-]).
  destruct (in_quotes (e_key e) ++ e_sep e ++ in_quotes (e_value e))
    as [|c0 t0] eqn:E; [discriminate|]. rewrite <- E.
  rewrite break_at_token.
  - rewrite lstrip_by_app.
    + rewrite lstrip_by_id by (now intros c [= <-]). reflexivity.
    + eapply Forall_impl; [exact Hsep|]. now intros c [? _].
  - now apply in_quotes_no_space.
  - intros c Hc. destruct (e_sep e) as [|x sep]; [contradiction|].
    injection Hc as <-. apply Forall_cons in Hsep as [[? _] _]. assumption.
Qed.

(** An entry is stored in the current section. *)
Lemma step_entry st e :
  entry_ok e ->
  step st (entry_line e)
  = Ok (mkState (<[current_section st :=
                     dict_set (heap st !!! current_section st)
                              (e_key e) (VStr (e_value e))]> (heap st))
                (current_section st) (sections st)).
Proof.
  intros Hok. unfold step. rewrite (split_ws1_entry e Hok).
  destruct Hok as (_ & Hkey & _ & _ & Hval & Hlast).
  rewrite !remove_char_in_quotes.
  - unfold lstrip, rstrip.
    rewrite lstrip_by_id, rstrip_by_id; [reflexivity|exact Hlast|].
    intros c Hc. unfold plain_token in Hkey.
    rewrite Forall_forall in Hkey.
    now apply (Hkey c (head_In _ _ Hc)).
  - eapply Forall_impl; [exact Hval|]. now intros c [_ ?].
  - eapply Forall_impl; [exact Hkey|]. now intros c [_ ?].
Qed.

(** An indented token on a line of its own. *)
Lemma split_ws1_indented w s :
  blanks w -> s <> [] -> Forall (fun c => is_space c = false) s ->
  strip (w ++ s) = s /\ split_ws1 s = [s].
Proof.
  intros Hw Hne Hs. split; [|now apply split_ws1_single].
  rewrite Forall_forall in Hs.
  apply strip_indented; [exact Hw| |]; intros c Hc; apply Hs;
    [now apply head_In | now apply last_char_In].
Qed.

Lemma step_name st w name :
  blanks w -> plain_token name ->
  step st (w ++ in_quotes name)
  = Ok (mkState (heap st) (current_section st) (sections st ++ [name])).
Proof.
  intros Hw Hname. unfold step.
  destruct (split_ws1_indented w (in_quotes name) Hw)
    as [-> ->]; [discriminate | now apply in_quotes_no_space|].
  replace (eqs (in_quotes name) (py "{")) with false
    by (symmetry; now apply bool_decide_eq_false).
  replace (eqs (in_quotes name) (py "}")) with false
    by (symmetry; now apply bool_decide_eq_false).
  rewrite remove_char_in_quotes; [reflexivity|].
  eapply Forall_impl; [exact Hname|]. now intros c [_ ?].
Qed.

Lemma step_close_line st w :
  blanks w ->
  step st (w ++ py "}")
  = match sections st with
    | [] => Raise IndexError
    | _ => Ok (mkState (heap st) (current_section st)
                       (removelast (sections st)))
    end.
Proof.
  intros Hw. unfold step.
  destruct (split_ws1_indented w (py "}") Hw) as [-> ->];
    [discriminate | now repeat constructor|].
  reflexivity.
Qed.

Lemma step_open_line st w :
  blanks w ->
  step st (w ++ py "{")
  = do current <- descend (heap st) (VRef output) (init_of (sections st));
    match last_of (sections st), current with
    | None, _ => Raise IndexError
    | Some _, VStr _ => Raise TypeError
    | Some name, VRef o =>
        Ok (mkState
              (<[o := dict_set ((heap st ++ [[]]) !!! o) name
                               (VRef (length (heap st)))]>
                 (heap st ++ [[]]))
              (length (heap st)) (sections st))
    end.
Proof.
  intros Hw. unfold step.
  destruct (split_ws1_indented w (py "{") Hw) as [-> ->];
    [discriminate | now repeat constructor|].
  reflexivity.
Qed.

Lemma run_entries entries : forall (h0 h1 : pydict) names,
  Forall entry_ok entries ->
  run (mkState [h0; h1] 1 names) (map entry_line entries)
  = Ok (mkState
          [h0; foldl (fun d e => dict_set d (e_key e) (VStr (e_value e)))
                     h1 entries]
          1 names).
Proof.
  induction entries as [|e entries IH]; intros h0 h1 names Hok;
    [reflexivity|].
  apply Forall_cons in Hok as [He Hok]. cbn [map run].
  destruct (entry_line e) as [|c l] eqn:El.
  { unfold entry_line in El. destruct He as (_ & _ & _ & _ & _).
    apply (f_equal last_char) in El.
    rewrite !last_char_app, last_char_in_quotes in El. discriminate. }
  rewrite <- El, (step_entry _ e He). cbn [bind].
  exact (IH h0 _ names Hok).
Qed.

Lemma run_app st ls1 ls2 :
  Forall (fun l => l <> []) ls1 ->
  run st (ls1 ++ ls2) = do st' <- run st ls1; run st' ls2.
Proof.
  intros Hne. revert st. induction Hne as [|l ls1 Hl _ IH]; intros st;
    [reflexivity|].
  destruct l as [|c l]; [contradiction|]. cbn [app run].
  destruct (step st (c :: l)) as [st'|e]; [apply IH | reflexivity].
Qed.

Lemma run_blank st ls more :
  Forall (fun l => l <> []) ls -> run st (ls ++ [] :: more) = run st ls.
Proof.
  intros Hne. rewrite run_app by exact Hne.
  destruct (run st ls); reflexivity.
Qed.

Lemma splitlines_from_line line : forall cur s,
  Forall (fun c => is_linebreak c = false) line ->
  splitlines_from cur (line ++ LF :: s)
  = (rev cur ++ line) :: splitlines_from [] s.
Proof.
  induction line as [|c line IH]; intros cur s Hline.
  - cbn [app splitlines_from]. change (is_linebreak LF) with true. cbv iota.
    rewrite app_nil_r. destruct s as [|d s]; [reflexivity|].
    change (eqc LF CR) with false. reflexivity.
  - apply Forall_cons in Hline as [Hc Hline].
    cbn [app splitlines_from]. rewrite Hc, IH by exact Hline.
    cbn [rev]. now rewrite <- app_assoc.
Qed.

(** [splitlines] gives back the lines that were joined. *)
Lemma splitlines_lines ls rest :
  Forall (Forall (fun c => is_linebreak c = false)) ls ->
  splitlines (Fixtures.lines ls ++ rest) = ls ++ splitlines rest.
Proof.
  unfold splitlines, Fixtures.lines.
  induction 1 as [|l ls Hl _ IH]; [reflexivity|].
  cbn [map concat]. rewrite <- !app_assoc. cbn [app].
  now rewrite splitlines_from_line, IH.
Qed.

End AcfRun.

(** X19. [parseAcf] stops at the first empty line: what follows it does not
    change the result, whatever it is. *)
Theorem parseAcf_stops_at_blank_line (ls : list str) (rest : str) :
  Forall (fun l => l <> [] /\ Forall (fun c => is_linebreak c = false) l)
         ls ->
  Acf.parseAcf (Fixtures.lines ls ++ LF :: rest)
  = Acf.parseAcf (Fixtures.lines ls).
Proof.
  intros Hls.
  assert (Hne : Forall (fun l : str => l <> []) ls)
    by (eapply Forall_impl; [exact Hls | now intros l [? _]]).
  assert (Hlb : Forall (Forall (fun c => is_linebreak c = false)) ls)
    by (eapply Forall_impl; [exact Hls | now intros l [_ ?]]).
  unfold Acf.parseAcf.
  rewrite <- (app_nil_r (Fixtures.lines ls)) at 2.
  rewrite !splitlines_lines by exact Hlb.
  change (splitlines (LF :: rest))
    with (splitlines_from [] ([] ++ LF :: rest)).
  rewrite splitlines_from_line by constructor.
  change (splitlines []) with (@nil str).
  cbn [rev app]. rewrite run_blank by exact Hne.
  now rewrite app_nil_r.
Qed.

Section AcfDocuments.
Import Acf.
Implicit Types (st : state) (e : acf_entry) (entries : list acf_entry).

Lemma linebreak_is_space c : is_linebreak c = true -> is_space c = true.
Proof.
  destruct c as [[] [] [] [] [] [] [] []]; vm_compute; congruence.
Qed.

Lemma not_space_not_linebreak c :
  is_space c = false -> is_linebreak c = false.
Proof.
  intros Hs. destruct (is_linebreak c) eqn:E; [|reflexivity].
  apply linebreak_is_space in E. congruence.
Qed.

Lemma blanks_no_linebreak w :
  blanks w -> Forall (fun c => is_linebreak c = false) w.
Proof. intros Hw. eapply Forall_impl; [exact Hw|]. now intros c [_ ?]. Qed.

Lemma in_quotes_no_linebreak s :
  Forall (fun c => is_linebreak c = false) s ->
  Forall (fun c => is_linebreak c = false) (in_quotes s).
Proof.
  intros Hs. unfold in_quotes. constructor; [reflexivity|].
  apply Forall_app. split; [exact Hs | now repeat constructor].
Qed.

Lemma plain_token_no_linebreak s :
  plain_token s -> Forall (fun c => is_linebreak c = false) s.
Proof.
  intros Hs. eapply Forall_impl; [exact Hs|].
  intros c [? _]. now apply not_space_not_linebreak.
Qed.

Lemma entry_line_no_linebreak e :
  entry_ok e -> Forall (fun c => is_linebreak c = false) (entry_line e).
Proof.
  intros (Hind & Hkey & Hsep & _ & Hval & _). unfold entry_line.
  repeat (apply Forall_app; split).
  - now apply blanks_no_linebreak.
  - now apply in_quotes_no_linebreak, plain_token_no_linebreak.
  - now apply blanks_no_linebreak.
  - apply in_quotes_no_linebreak.
    eapply Forall_impl; [exact Hval|]. now intros c [? _].
Qed.

Lemma entry_line_nonempty e : entry_line e <> [].
Proof.
  unfold entry_line. intros El. apply (f_equal last_char) in El.
  rewrite !last_char_app, last_char_in_quotes in El. discriminate.
Qed.

Lemma run_cons st l ls :
  l <> [] -> run st (l :: ls) = do st' <- step st l; run st' ls.
Proof. destruct l; [contradiction | reflexivity]. Qed.

Lemma indented_nonempty (w s : str) : s <> [] -> w ++ s <> [].
Proof. intros Hs H. now apply app_eq_nil in H as [_ ?]. Qed.

Lemma dict_get_set d k v k' :
  dict_get (dict_set d k v) k'
  = if eqs k k' then Some v else dict_get d k'.
Proof.
  induction d as [|[k0 v0] d IH]; cbn [dict_set dict_get].
  - reflexivity.
  - destruct (eqs k0 k) eqn:E0; cbn [dict_get].
    + apply bool_decide_eq_true in E0 as ->.
      destruct (eqs k k'); reflexivity.
    + destruct (eqs k0 k') eqn:E1; [|exact IH].
      apply bool_decide_eq_true in E1 as ->.
      unfold eqs in *. rewrite bool_decide_eq_false in E0.
      rewrite bool_decide_eq_false_2; [reflexivity | congruence].
Qed.

Lemma dict_get_entries entries : forall (d : pydict) k,
  dict_get (foldl (fun d e => dict_set d (e_key e) (VStr (e_value e)))
                  d entries) k
  = match last_value k entries with
    | Some v => Some (VStr v)
    | None => dict_get d k
    end.
Proof.
  induction entries as [|e entries IH]; intros d k; [reflexivity|].
  cbn [foldl last_value]. rewrite IH, dict_get_set.
  destruct (last_value k entries); [reflexivity|].
  destruct (eqs (e_key e) k); reflexivity.
Qed.

Lemma one_section_lines indent name entries :
  blanks indent -> plain_token name -> Forall entry_ok entries ->
  splitlines (one_section indent name entries)
  = (indent ++ in_quotes name) :: (indent ++ py "{")
    :: map entry_line entries ++ [indent ++ py "}"].
Proof.
  intros Hind Hname Hentries. unfold one_section.
  rewrite <- (app_nil_r (Fixtures.lines _)).
  rewrite splitlines_lines; [now rewrite app_nil_r|].
  pose proof (blanks_no_linebreak _ Hind) as Hi.
  repeat constructor.
  - apply Forall_app. split; [exact Hi|].
    now apply in_quotes_no_linebreak, plain_token_no_linebreak.
  - apply Forall_app. split; [exact Hi | now repeat constructor].
  - apply Forall_app. split.
    + apply Forall_fmap. eapply Forall_impl; [exact Hentries|].
      intros e He. now apply entry_line_no_linebreak.
    + repeat constructor.
      apply Forall_app. split; [exact Hi | now repeat constructor].
Qed.

Lemma parseAcf_flat indent name entries :
  blanks indent -> plain_token name -> Forall entry_ok entries ->
  parseAcf (one_section indent name entries)
  = Ok [[(name, VRef 1)]; entries_dict entries].
Proof.
  intros Hind Hname Hentries.
  unfold parseAcf.
  rewrite one_section_lines by assumption.
  rewrite run_cons by (apply indented_nonempty; discriminate).
  rewrite step_name by assumption. cbn [bind].
  rewrite run_cons by (apply indented_nonempty; discriminate).
  rewrite step_open_line by assumption. unfold initial.
  cbn [sections heap current_section init_of last_of removelast app
       descend bind map List.last length].
  change (<[output := dict_set ([[]; []] !!! output) name (VRef 1)]>
            [[]; []])
    with [[(name, VRef 1)]; ([] : pydict)].
  rewrite run_app.
  2:{ apply Forall_fmap. apply Forall_true. intros e.
      apply entry_line_nonempty. }
  rewrite run_entries by assumption. cbn [bind].
  rewrite run_cons by (apply indented_nonempty; discriminate).
  rewrite step_close_line by assumption. reflexivity.
Qed.

Lemma dict_get_entries_dict entries k :
  dict_get (entries_dict entries) k = option_map VStr (last_value k entries).
Proof.
  unfold entries_dict. rewrite dict_get_entries.
  destruct (last_value k entries); reflexivity.
Qed.

Lemma acf_getitem_flat name entries k :
  acf_getitem [[(name, VRef 1)]; entries_dict entries] (VRef 1) k
  = match last_value k entries with
    | Some v => Ok (VStr v)
    | None => Raise (KeyError k)
    end.
Proof.
  unfold acf_getitem.
  change ([[(name, VRef 1)]; entries_dict entries] !!! 1%nat)
    with (entries_dict entries).
  rewrite dict_get_entries_dict.
  destruct (last_value k entries); reflexivity.
Qed.

End AcfDocuments.

(** X20. A document of one section without subsections: [parseAcf] returns
    a mapping with the name of the section as its only key, whose value
    holds the entries of the section in the order of their first
    occurrence, each key with the value of its last occurrence. *)
Theorem parseAcf_one_section (indent name : str)
    (entries : list acf_entry) :
  blanks indent -> plain_token name -> Forall entry_ok entries ->
  Acf.parseAcf (one_section indent name entries)
  = Ok [[(name, Acf.VRef 1)]; entries_dict entries]
  /\ forall k,
       Acf.dict_get (entries_dict entries) k
       = option_map Acf.VStr (last_value k entries).
Proof.
  intros Hind Hname Hentries. split.
  - now apply parseAcf_flat.
  - intros k. apply dict_get_entries_dict.
Qed.

(** X21. The build id of an app manifest of one section [AppState] without
    subsections is the value of the last entry [buildid]; without such an
    entry [getGameBuildId] raises [KeyError]. *)
Theorem getGameBuildId_manifest (indent : str) (entries : list acf_entry) :
  blanks indent -> Forall entry_ok entries ->
  getGameBuildId (one_section indent (py "AppState") entries)
  = match last_value (py "buildid") entries with
    | Some v => Ok (Acf.VStr v)
    | None => Raise (KeyError (py "buildid"))
    end.
Proof.
  intros Hind Hentries. unfold getGameBuildId.
  rewrite parseAcf_flat; [|assumption|now repeat constructor|assumption].
  cbn [bind].
  change (acf_getitem _ (Acf.VRef Acf.output) (py "AppState"))
    with (Ok (Acf.VRef 1)).
  cbn [bind]. apply acf_getitem_flat.
Qed.

(** X22. A document whose first line is a brace, before any section was
    named, makes [parseAcf] raise [IndexError], whatever follows. *)
Theorem parseAcf_leading_brace (indent brace rest : str) :
  blanks indent ->
  brace = py "{" \/ brace = py "}" ->
  Acf.parseAcf (indent ++ brace ++ LF :: rest) = Raise IndexError.
Proof.
  intros Hind Hbrace. unfold Acf.parseAcf, splitlines.
  rewrite app_assoc, splitlines_from_line.
  2:{ apply Forall_app. split; [now apply blanks_no_linebreak|].
      destruct Hbrace as [-> | ->]; now repeat constructor. }
  cbn [rev app].
  rewrite run_cons
    by (apply indented_nonempty; destruct Hbrace as [-> | ->]; discriminate).
  destruct Hbrace as [-> | ->].
  - now rewrite step_open_line.
  - now rewrite step_close_line.
Qed.

Lemma parseAcf_stops_at_blank_line_witness :
  Acf.parseAcf (Fixtures.lines [Fixtures.quoted "Root"; py "{"; py "}"]
                ++ LF :: py "}")
  = Acf.parseAcf (Fixtures.lines [Fixtures.quoted "Root"; py "{"; py "}"]).
Proof.
  apply (parseAcf_stops_at_blank_line
           [Fixtures.quoted "Root"; py "{"; py "}"] (py "}")).
  repeat constructor; discriminate.
Defined.

Lemma parseAcf_one_section_witness :
  let entries := [mkEntry (py " ") (py "appid") (py "  ") (py "376030");
                  mkEntry (py " ") (py "name") (py " ") (py "ARK Server")]
  in
  Acf.parseAcf (one_section [] (py "AppState") entries)
  = Ok [[(py "AppState", Acf.VRef 1)]; entries_dict entries]
  /\ forall k,
       Acf.dict_get (entries_dict entries) k
       = option_map Acf.VStr (last_value k entries).
Proof.
  intros entries.
  apply (parseAcf_one_section [] (py "AppState") entries).
  - constructor.
  - repeat constructor; discriminate.
  - repeat constructor; try discriminate; intros c [= <-]; reflexivity.
Defined.

Lemma getGameBuildId_manifest_witness :
  getGameBuildId
    (one_section [] (py "AppState")
       [mkEntry (py " ") (py "buildid") (py "  ") (py "1");
        mkEntry (py " ") (py "buildid") (py " ") (py "4756529")])
  = Ok (Acf.VStr (py "4756529")).
Proof.
  apply (getGameBuildId_manifest []
           [mkEntry (py " ") (py "buildid") (py "  ") (py "1");
            mkEntry (py " ") (py "buildid") (py " ") (py "4756529")]).
  - constructor.
  - repeat constructor; try discriminate; intros c [= <-]; reflexivity.
Defined.

Lemma parseAcf_leading_brace_witness :
  Acf.parseAcf (py "  " ++ py "}" ++ LF :: Fixtures.nested)
  = Raise IndexError.
Proof.
  apply (parseAcf_leading_brace (py "  ") (py "}") Fixtures.nested).
  - repeat constructor.
  - now right.
Defined.
